(** * skeema: workspace execution and the diff-apply worker

    A shallow embedding of two Go packages of skeema:

    - [workspace] (workspace/workspace.go): the shutdown registry
      ([Shutdown], [RegisterShutdownFunc]) and [ExecLogicalSchema], which runs
      the CREATE statements of a logical schema concurrently and its ALTER
      statements sequentially inside a scratch workspace;
    - [applier] (applier/applier.go): [Worker], the per-target diff/push loop,
      and [SumResults].

    Everything that lives outside these two files (the database driver, the
    diff engine, the linter, the configuration layer) is an interface: a type
    class whose methods are the external calls the code makes.  Calls that
    perform I/O thread an abstract [World]; every observable call is also
    recorded in a trace of events, so that statements such as "nothing was
    executed" are statements about the trace. *)

From Stdlib Require Import ZArith Lia Ascii String.
From stdpp Require Import base option list strings pretty gmap.

Open Scope Z_scope.

(** ** Go's [int] and [error] *)

(** Go's [int] on the 64-bit platforms skeema is built for: two's complement,
    addition wraps around. *)
Definition int_min : Z := - 2 ^ 63.
Definition int_max : Z := 2 ^ 63 - 1.
Definition int_wrap (z : Z) : Z := (z + 2 ^ 63) mod 2 ^ 64 - 2 ^ 63.
Definition int_add (a b : Z) : Z := int_wrap (a + b).
Definition int_sub (a b : Z) : Z := int_wrap (a - b).
Definition is_int (z : Z) : Prop := int_min <= z <= int_max.

(** [len(s)] of a slice, as an [int]. *)
Definition len {A} (l : list A) : Z := Z.of_nat (length l).

Module tengo.

(** [tengo.ObjectType] is a string type; these are its constants. *)
Definition ObjectType := string.
Definition ObjectTypeDatabase : ObjectType := "database".
Definition ObjectTypeTable : ObjectType := "table".
Definition ObjectTypeProc : ObjectType := "procedure".
Definition ObjectTypeFunc : ObjectType := "function".

Record ObjectKey := { Type_ : ObjectType; Name : string }.

(** [tengo.EscapeIdentifier]: every backtick of the name is doubled and the
    whole is wrapped in backticks. *)
Fixpoint double_backticks (s : string) : string :=
  match s with
  | EmptyString => EmptyString
  | String c s' =>
    if Ascii.eqb c "`"%char then String c (String c (double_backticks s'))
    else String c (double_backticks s')
  end.

Definition EscapeIdentifier (input : string) : string :=
  "`" +:+ double_backticks input +:+ "`".

(** [ObjectKey.String]: the type, a space, the escaped name. *)
Definition ObjectKey_String (k : ObjectKey) : string :=
  Type_ k +:+ " " +:+ EscapeIdentifier (Name k).

End tengo.

(** The dynamic type behind an [error] value.  [None : option error] is the
    nil error. *)
Inductive error :=
| errorString (msg : string)
| UnsupportedDiffError (key : tengo.ObjectKey) (msg extended : string)
| ConfigError (msg : string).

Definition Error (e : error) : string :=
  match e with
  | errorString msg => msg
  | UnsupportedDiffError _ msg _ => msg
  | ConfigError msg => msg
  end.

(** An argument of a printf-style call; the format string and the arguments
    are kept apart instead of being rendered. *)
Inductive Arg := AStr (s : string) | AInt (z : Z).

Inductive Level := Debug | Info | Warn | Err.

(** * Package applier *)

Module applier.

(** ** Data *)

Record Result := {
  Differences : bool;
  SkipCount : Z;
  UnsupportedCount : Z
}.

Definition zero_Result : Result :=
  {| Differences := false; SkipCount := 0; UnsupportedCount := 0 |}.

Definition Regexp := string.

Record Config := {
  GetBool : string -> bool;
  GetEnum : string -> list string -> string * option error;
  GetRegexp : string -> option Regexp * option error
}.

Record Dir := {
  Path : string;
  Config_ : Config;
  IgnoredStatements : list string
}.

Record Instance := {
  InstanceName : string;
  Flavor : string
}.

Inductive NextAutoIncMode :=
| NextAutoIncIgnore | NextAutoIncIfIncreased | NextAutoIncIfAlready | NextAutoIncAlways.

Record StatementModifiers := {
  NextAutoInc : NextAutoIncMode;
  AllowUnsafe : bool;
  CompareMetadata : bool;
  StrictIndexOrder : bool;
  StrictForeignKeyNaming : bool;
  AlgorithmClause : string;
  LockClause : string;
  IgnoreTable : option Regexp;
  ModFlavor : string
}.

(** The zero value of [tengo.StatementModifiers]. *)
Definition zero_mods : StatementModifiers :=
  {| NextAutoInc := NextAutoIncIgnore; AllowUnsafe := false;
     CompareMetadata := false; StrictIndexOrder := false;
     StrictForeignKeyNaming := false; AlgorithmClause := "";
     LockClause := ""; IgnoreTable := None; ModFlavor := "" |}.

(** The types owned by the collaborating packages. *)
Class Universe := {
  World : Type;          (* everything the I/O calls can read or change *)
  TengoSchema : Type;    (* tengo.Schema *)
  WsSchema : Type;       (* workspace.Schema *)
  SchemaDiff : Type;     (* tengo.SchemaDiff *)
  ObjectDiff : Type;     (* tengo.ObjectDiff *)
  DDLStatement : Type;   (* applier.DDLStatement *)
  LintOptions : Type;    (* linter.Options *)
  Annotation : Type      (* linter.Annotation *)
}.

Record Target `{Universe} := {
  Instance_ : Instance;
  SchemaName : string;
  Dir_ : Dir;
  DesiredSchema : WsSchema
}.

Definition TargetGroup `{Universe} := list Target.

Record LintResult `{Universe} := {
  Annotations : list Annotation;
  ErrorCount : Z
}.

(** The calls [Worker] makes into code outside applier.go.  The ones that
    talk to a database take and return the [World]; a nil pointer result is
    [None]. *)
Class Collaborators `{Universe} := {
  SchemaFromInstance : Target -> World -> World * (option TengoSchema * option error);
  SchemaFromDir : Target -> option TengoSchema;
  NewSchemaDiff : option TengoSchema -> option TengoSchema -> SchemaDiff;
  TableDiffs_len : SchemaDiff -> Z;
  ObjectDiffs : SchemaDiff -> list ObjectDiff;
  ObjectDiff_ObjectKey : ObjectDiff -> tengo.ObjectKey;
  VerifyDiff : SchemaDiff -> Target -> World -> World * option error;
  linter_OptionsForDir : Dir -> LintOptions * option error;
  OnlyKeys : LintOptions -> list tengo.ObjectKey -> LintOptions;
  linter_CheckSchema : WsSchema -> LintOptions -> LintResult;
  SortByFile : LintResult -> LintResult;
  NewDDLStatement :
    ObjectDiff -> StatementModifiers -> Target -> option DDLStatement * option error;
  DDL_Execute : DDLStatement -> World -> World * option error;
  ctx_Done : World -> bool  (* is ctx.Done() ready to be received from *)
}.

(** What [Worker] does that an observer can see. *)
Inductive Event `{Universe} :=
| EvLog (lvl : Level) (format : string) (args : list Arg)
| EvSchemaFromInstance (t : Target) (failed : bool)
| EvNewSchemaDiff (t : Target) (from : option TengoSchema)
| EvVerifyDiff (t : Target)
| EvNewDDLStatement (t : Target) (d : ObjectDiff)
| EvCheckSchema (t : Target) (keys : list tengo.ObjectKey)
| EvAnnotationLog (a : Annotation)
| EvPrintDDL (t : Target) (ddl : DDLStatement)
| EvExecute (t : Target) (ddl : DDLStatement) (failed : bool)
| EvCtxDone (t : Target) (done : bool)
| EvChanClosed
| EvSend (r : Result).

Record WState `{Universe} := {
  world : World;
  result : Result;
  trace : list Event
}.

(** ** SumResults *)

(** The body of the loop: [total] after it has absorbed [r]. *)
Definition add_Result (total r : Result) : Result :=
  {| Differences := Differences total || Differences r;
     SkipCount := int_add (SkipCount total) (SkipCount r);
     UnsupportedCount := int_add (UnsupportedCount total) (UnsupportedCount r) |}.

Definition SumResults (results : list Result) : Result :=
  fold_left add_Result results zero_Result.

(** A [Result] whose counters are values of Go's [int]. *)
Definition wf_Result (r : Result) : Prop :=
  is_int (SkipCount r) /\ is_int (UnsupportedCount r).

(** The sum of a counter over a list of results, as an integer. *)
Definition total_of (f : Result -> Z) (rs : list Result) : Z :=
  foldr Z.add 0 (f <$> rs).

(** ** The worker's monad

    State (the world, the accumulated [Result], the trace) plus the two
    non-local exits of the loop body: [continue TargetsInGroup] and
    [return]. *)

Inductive Exit :=
| ContinueTargetsInGroup
| Return (err : option error).

Definition M `{Universe} (A : Type) : Type := WState -> WState * (A + Exit).

#[global] Instance M_ret `{Universe} : MRet M := fun A a st => (st, inl a).

#[global] Instance M_bind `{Universe} : MBind M := fun A B k m st =>
  match m st with
  | (st', inl a) => k a st'
  | (st', inr e) => (st', inr e)
  end.

Definition exit_with `{Universe} {A} (e : Exit) : M A := fun st => (st, inr e).

Definition emit `{Universe} (e : Event) : M unit := fun st =>
  ({| world := world st; result := result st; trace := trace st ++ [e] |}, inl tt).

Definition log `{Universe} (lvl : Level) (format : string) (args : list Arg) : M unit :=
  emit (EvLog lvl format args).

Definition io `{Universe} {A} (call : World -> World * A) : M A := fun st =>
  let (w, a) := call (world st) in
  ({| world := w; result := result st; trace := trace st |}, inl a).

Definition get_world `{Universe} : M World := fun st => (st, inl (world st)).

Definition get_result `{Universe} : M Result := fun st => (st, inl (result st)).

Definition update_result `{Universe} (f : Result -> Result) : M unit := fun st =>
  ({| world := world st; result := f (result st); trace := trace st |}, inl tt).

Definition set_Differences (b : bool) (r : Result) : Result :=
  {| Differences := b; SkipCount := SkipCount r; UnsupportedCount := UnsupportedCount r |}.

Definition add_SkipCount (n : Z) (r : Result) : Result :=
  {| Differences := Differences r; SkipCount := int_add (SkipCount r) n;
     UnsupportedCount := UnsupportedCount r |}.

Definition add_UnsupportedCount (n : Z) (r : Result) : Result :=
  {| Differences := Differences r; SkipCount := SkipCount r;
     UnsupportedCount := int_add (UnsupportedCount r) n |}.

Definition when `{Universe} (b : bool) (m : M unit) : M unit :=
  if b then m else mret tt.

Fixpoint for_each `{Universe} {A} (f : A -> M unit) (l : list A) : M unit :=
  match l with
  | [] => mret tt
  | a :: l' => f a;; for_each f l'
  end.

(** ** StatementModifiersForDir

    The results are named ([mods], [err]): an early [return] hands back the
    modifiers as filled in so far, including the field the failing getter
    just assigned. *)
Definition StatementModifiersForDir (dir : Dir) : StatementModifiers * option error :=
  let cfg := Config_ dir in
  let forceAllowUnsafe := GetBool cfg "brief" && GetBool cfg "dry-run" in
  let exact := GetBool cfg "exact-match" in
  let mk alg lock ign :=
    {| NextAutoInc := NextAutoIncIfIncreased;
       AllowUnsafe := forceAllowUnsafe || GetBool cfg "allow-unsafe";
       CompareMetadata := GetBool cfg "compare-metadata";
       StrictIndexOrder := exact;
       StrictForeignKeyNaming := exact;
       AlgorithmClause := alg; LockClause := lock; IgnoreTable := ign;
       ModFlavor := "" |} in
  let (alg, err) := GetEnum cfg "alter-algorithm" ["INPLACE"; "COPY"; "INSTANT"; "DEFAULT"] in
  match err with
  | Some e => (mk alg "" None, Some e)
  | None =>
    let (lock, err) := GetEnum cfg "alter-lock" ["NONE"; "SHARED"; "EXCLUSIVE"; "DEFAULT"] in
    match err with
    | Some e => (mk alg lock None, Some e)
    | None =>
      let (ign, err) := GetRegexp cfg "ignore-table" in
      (mk alg lock ign, err)
    end
  end.

Definition with_Flavor (fl : string) (m : StatementModifiers) : StatementModifiers :=
  {| NextAutoInc := NextAutoInc m; AllowUnsafe := AllowUnsafe m;
     CompareMetadata := CompareMetadata m; StrictIndexOrder := StrictIndexOrder m;
     StrictForeignKeyNaming := StrictForeignKeyNaming m;
     AlgorithmClause := AlgorithmClause m; LockClause := LockClause m;
     IgnoreTable := IgnoreTable m; ModFlavor := fl |}.

(** ** DebugLogUnsupportedDiff *)

(** [strings.Split(s, "\n")]: the pieces between newlines, empty ones kept. *)
Fixpoint split_lines_go (s cur : string) : list string :=
  match s with
  | EmptyString => [String.rev cur]
  | String c s' =>
    if Ascii.eqb c "010"%char then String.rev cur :: split_lines_go s' ""
    else split_lines_go s' (String c cur)
  end.

Definition split_lines (s : string) : list string := split_lines_go s "".

Definition ExtendedError (e : error) : string :=
  match e with
  | UnsupportedDiffError _ _ extended => extended
  | _ => ""
  end.

Definition DebugLogUnsupportedDiff `{Universe} (err : error) : M unit :=
  for_each
    (fun line => when (0 <? Z.of_nat (String.length line)) (log Debug line []))
    (split_lines (ExtendedError err)).

(** ** Worker *)

Definition inst_arg `{Universe} (t : Target) : Arg := AStr (InstanceName (Instance_ t)).
Definition schema_arg `{Universe} (t : Target) : Arg := AStr (SchemaName t).
Definition dir_arg `{Universe} (t : Target) : Arg := AStr (Path (Dir_ t)).

(** The loop over [objDiffs] (lines 76-98).  [all] is the whole slice, [rest]
    what is left to visit; the result is [ddls], [keys], [targetStmtCount]. *)
Fixpoint build_ddls `{Collaborators} (t : Target) (mods : StatementModifiers)
    (all rest : list ObjectDiff)
    (ddls : list DDLStatement) (keys : list tengo.ObjectKey) (targetStmtCount : Z)
    : M (list DDLStatement * list tengo.ObjectKey * Z) :=
  match rest with
  | [] => mret (ddls, keys, targetStmtCount)
  | objDiff :: rest' =>
    emit (EvNewDDLStatement t objDiff);;
    match NewDDLStatement objDiff mods t with
    | (None, None) =>
      (* mods made the statement a noop *)
      build_ddls t mods all rest' ddls keys targetStmtCount
    | (ddl, err) =>
      let targetStmtCount := int_add targetStmtCount 1 in
      update_result (set_Differences true);;
      match err with
      | None =>
        build_ddls t mods all rest'
          (ddls ++ option_list ddl) (keys ++ [ObjectDiff_ObjectKey objDiff])
          targetStmtCount
      | Some (UnsupportedDiffError key _ _ as unsupportedErr) =>
        update_result (add_UnsupportedCount 1);;
        log Warn "Skipping %s: unable to generate DDL due to use of unsupported features. Use --debug for more information."
          [AStr (tengo.ObjectKey_String key)];;
        DebugLogUnsupportedDiff unsupportedErr;;
        build_ddls t mods all rest' ddls keys targetStmtCount
      | Some e =>
        update_result (add_SkipCount (len all));;
        log Err (Error e) [];;
        when (1 <? len all)
          (log Warn "Skipping %d additional operations for %s %s due to previous error"
             [AInt (int_sub (len all) 1); inst_arg t; schema_arg t]);;
        exit_with ContinueTargetsInGroup
      end
    end
  end.

(** The loop over [ddls] (lines 121-134); [n] is [len(ddls)], [i] the index
    of the head of [rest]. *)
Fixpoint execute_ddls `{Collaborators} (t : Target) (dryRun : bool)
    (n i : Z) (rest : list DDLStatement) : M unit :=
  match rest with
  | [] => mret tt
  | ddl :: rest' =>
    emit (EvPrintDDL t ddl);;
    if dryRun then execute_ddls t dryRun n (i + 1) rest'
    else
      err ← io (DDL_Execute ddl);
      emit (EvExecute t ddl (bool_decide (is_Some err)));;
      match err with
      | Some e =>
        log Err "Error running DDL on %s %s: %s" [inst_arg t; schema_arg t; AStr (Error e)];;
        let skipped := int_sub n i in
        update_result (add_SkipCount skipped);;
        when (1 <? skipped)
          (log Warn "Skipping %d remaining operations for %s %s due to previous error"
             [AInt (int_sub skipped 1); inst_arg t; schema_arg t])
        (* break *)
      | None => execute_ddls t dryRun n (i + 1) rest'
      end
  end.

(** The body of the loop over the targets of a group (lines 32-151). *)
Definition process_target `{Collaborators} (t : Target) : M unit :=
  let cfg := Config_ (Dir_ t) in
  let dryRun := GetBool cfg "dry-run" in
  let brief := dryRun && GetBool cfg "brief" in
  (if dryRun
   then log Info "Generating diff of %s %s vs %s/*.sql" [inst_arg t; schema_arg t; dir_arg t]
   else log Info "Pushing changes from %s/*.sql to %s %s" [dir_arg t; inst_arg t; schema_arg t]);;
  when (0 <? len (IgnoredStatements (Dir_ t)))
    (log Warn "Ignoring %d unsupported or unparseable statements found in this directory's *.sql files; run `skeema lint` for more info"
       [AInt (len (IgnoredStatements (Dir_ t)))]);;
  '(schemaFromInstance, err) ← io (SchemaFromInstance t);
  emit (EvSchemaFromInstance t (bool_decide (is_Some err)));;
  match err with
  | Some e =>
    update_result (add_SkipCount 1);;
    log Err "Skipping %s schema %s for %s: %s"
      [inst_arg t; schema_arg t; dir_arg t; AStr (Error e)]
  | None => mret tt
  end;;
  let diff := NewSchemaDiff schemaFromInstance (SchemaFromDir t) in
  emit (EvNewSchemaDiff t schemaFromInstance);;
  when (GetBool cfg "verify" && (0 <? TableDiffs_len diff) && negb brief)
    (err ← io (VerifyDiff diff t);
     emit (EvVerifyDiff t);;
     match err with
     | Some e => exit_with (Return (Some e))
     | None => mret tt
     end);;
  let (mods, err) := StatementModifiersForDir (Dir_ t) in
  match err with
  | Some e => exit_with (Return (Some (ConfigError (Error e))))
  | None =>
    let mods := with_Flavor (Flavor (Instance_ t)) mods in
    let (lintOpts, err) := linter_OptionsForDir (Dir_ t) in
    match err with
    | Some e => exit_with (Return (Some (ConfigError (Error e))))
    | None =>
      let objDiffs := ObjectDiffs diff in
      '(ddls, keys, targetStmtCount) ← build_ddls t mods objDiffs objDiffs [] [] 0;
      when (GetBool cfg "lint")
        (let lintOpts := OnlyKeys lintOpts keys in
         let lintResult := SortByFile (linter_CheckSchema (DesiredSchema t) lintOpts) in
         emit (EvCheckSchema t keys);;
         for_each (fun a => emit (EvAnnotationLog a)) (Annotations lintResult);;
         when (0 <? ErrorCount lintResult)
           (let noun := if 1 <? ErrorCount lintResult then "errors" else "error" in
            update_result (add_SkipCount (len objDiffs));;
            log Warn "Skipping %s %s due to %d linter %s"
              [inst_arg t; schema_arg t; AInt (ErrorCount lintResult); AStr noun];;
            exit_with ContinueTargetsInGroup));;
      execute_ddls t dryRun (len ddls) 0 ddls;;
      (if targetStmtCount =? 0
       then log Info "%s %s: No differences found
" [inst_arg t; schema_arg t]
       else log Info "%s %s: %s complete
" [inst_arg t; schema_arg t; AStr (if dryRun then "diff" else "push")]);;
      (* Exit early if context cancelled *)
      w ← get_world;
      emit (EvCtxDone t (ctx_Done w));;
      when (ctx_Done w) (exit_with (Return None))
    end
  end.

(** [for _, t := range tg]: a [continue TargetsInGroup] raised by the body
    moves on to the next target, a [return] leaves the worker. *)
Fixpoint targets_in_group `{Collaborators} (tg : TargetGroup) : M unit :=
  match tg with
  | [] => mret tt
  | t :: tg' => fun st =>
    match process_target t st with
    | (st', inl _) => targets_in_group tg' st'
    | (st', inr ContinueTargetsInGroup) => targets_in_group tg' st'
    | (st', inr (Return e)) => (st', inr (Return e))
    end
  end.

(** [Worker].  [targetGroups] is the sequence of groups this worker receives
    from the channel before the channel is closed; [w] is the world when the
    worker starts.  The result is the final state together with the returned
    error. *)
Definition Worker `{Collaborators} (targetGroups : list TargetGroup) (w : World)
    : WState * option error :=
  let st0 := {| world := w; result := zero_Result; trace := [] |} in
  match (for_each targets_in_group targetGroups;;
         emit EvChanClosed;;
         r ← get_result;
         emit (EvSend r)) st0 with
  | (st, inl _) => (st, None)
  | (st, inr (Return e)) => (st, e)
  | (st, inr ContinueTargetsInGroup) => (st, None)
  end.

(** ** Reading a trace *)

Definition is_send `{Universe} (e : Event) : bool :=
  match e with EvSend _ => true | _ => false end.

Definition is_chan_closed `{Universe} (e : Event) : bool :=
  match e with EvChanClosed => true | _ => false end.

(** The post-target check found the context cancelled. *)
Definition cancel_observed `{Universe} (e : Event) : bool :=
  match e with EvCtxDone _ true => true | _ => false end.

(** The results sent on the results channel, oldest first. *)
Definition sends `{Universe} (tr : list Event) : list Result :=
  omap (fun e => match e with EvSend r => Some r | _ => None end) tr.

(** A short name for what an event is. *)
Definition event_kind `{Universe} (e : Event) : string :=
  match e with
  | EvLog Debug _ _ => "log debug"
  | EvLog Info _ _ => "log info"
  | EvLog Warn _ _ => "log warning"
  | EvLog Err _ _ => "log error"
  | EvSchemaFromInstance _ failed => if failed then "fetch: failed" else "fetch: ok"
  | EvNewSchemaDiff _ None => "diff against nil schema"
  | EvNewSchemaDiff _ (Some _) => "diff"
  | EvVerifyDiff _ => "verify"
  | EvNewDDLStatement _ _ => "render"
  | EvCheckSchema _ keys => "lint " +:+ pretty (length keys)
  | EvAnnotationLog _ => "annotation"
  | EvPrintDDL _ _ => "print"
  | EvExecute _ _ failed => if failed then "execute: failed" else "execute: ok"
  | EvCtxDone _ done => if done then "ctx: cancelled" else "ctx: live"
  | EvChanClosed => "channel closed"
  | EvSend _ => "send"
  end.

(** An event that is neither a send, nor the closing of the input channel,
    nor an observed cancellation. *)
Definition quiet `{Universe} (e : Event) : bool :=
  negb (is_send e || is_chan_closed e || cancel_observed e).

(** A computation is tidy when all it adds to the trace is quiet, except
    that a [return nil] comes right after an observed cancellation. *)
Definition tidy `{Universe} {A} (m : M A) : Prop :=
  forall st, exists evs,
    trace (m st).1 = trace st ++ evs
    /\ match (m st).2 with
       | inr (Return None) =>
         exists evs' t, evs = evs' ++ [EvCtxDone t true] /\ forallb quiet evs' = true
       | _ => forallb quiet evs = true
       end.

(** ** The shape of a run

    What one pass of the loop body leaves in the trace: some log entries, the
    fetch of the live schema, more bookkeeping, then the statements handed to
    the printer and, unless the run is dry, to the database, then the closing
    log entries and the cancellation check. *)

(** An event that is neither a fetch, a print, an execution, the closing of
    the input channel nor a send. *)
Definition plain `{Universe} (e : Event) : bool :=
  match e with
  | EvSchemaFromInstance _ _ | EvPrintDDL _ _ | EvExecute _ _ _
  | EvChanClosed | EvSend _ => false
  | _ => true
  end.

(** The linter, if enabled for the target, found no error on some set of
    keys. *)
Definition lint_cleared `{Collaborators} (t : Target) : Prop :=
  GetBool (Config_ (Dir_ t)) "lint" = true ->
  exists keys,
    ErrorCount
      (SortByFile
         (linter_CheckSchema (DesiredSchema t)
            (OnlyKeys (linter_OptionsForDir (Dir_ t)).1 keys))) <= 0.

(** What the loop over [ddls] leaves for one statement: [a.2] tells whether
    its execution failed. *)
Definition attempt_events `{Universe} (t : Target) (dryRun : bool)
    (a : DDLStatement * bool) : list Event :=
  if dryRun then [EvPrintDDL t a.1]
  else [EvPrintDDL t a.1; EvExecute t a.1 a.2].

(** The statements attempted, of which only the last may have failed, and
    the log entries that follow a failure. *)
Definition exec_shape `{Universe} (t : Target) (dryRun : bool) (evs : list Event) : Prop :=
  exists (attempts : list (DDLStatement * bool)) (logs : list Event),
    evs = (attempts ≫= attempt_events t dryRun) ++ logs
    /\ forallb plain logs = true
    /\ (forall before d after, attempts = before ++ (d, true) :: after ->
        dryRun = false -> after = [])
    /\ (dryRun = true -> logs = []).

(** What follows the fetch: bookkeeping, then, unless the target was left
    early, the statements and the closing entries. *)
Definition tail_shape `{Collaborators} (t : Target) (evs : list Event) : Prop :=
  exists mid ex post,
    evs = mid ++ ex ++ post
    /\ forallb plain mid = true
    /\ forallb plain post = true
    /\ (ex = [] /\ post = []
        \/ (lint_cleared t
            /\ exec_shape t (GetBool (Config_ (Dir_ t)) "dry-run") ex)).

(** The events of one pass of the loop body for [t]. *)
Definition target_block `{Collaborators} (t : Target) (evs : list Event) : Prop :=
  exists pre failed tl,
    evs = pre ++ EvSchemaFromInstance t failed :: tl
    /\ forallb plain pre = true
    /\ tail_shape t tl.

(** The error is one of the fatal errors of [t]: its diff failed
    verification, or its configuration could not be turned into statement
    modifiers or linter options. *)
Definition fatal_for `{Collaborators} (t : Target) (e : error) : Prop :=
  (exists diff w, (VerifyDiff diff t w).2 = Some e)
  \/ (exists cause, (StatementModifiersForDir (Dir_ t)).2 = Some cause
                    /\ e = ConfigError (Error cause))
  \/ (exists cause, (linter_OptionsForDir (Dir_ t)).2 = Some cause
                    /\ e = ConfigError (Error cause)).

(** How a step of the loop body for [t] other than the cancellation check
    may leave the loop: with [continue], or with a fatal error of [t]. *)
Definition exit_ok `{Collaborators} {A} (t : Target) (r : A + Exit) : Prop :=
  match r with
  | inr (Return (Some e)) => fatal_for t e
  | inr (Return None) => False
  | _ => True
  end.

(** How the loop body for [t] may leave the loop: with [continue], with a
    fatal error of [t], or with nil right after it found the context
    cancelled. *)
Definition block_exit `{Collaborators} {A} (t : Target) (evs : list Event) (r : A + Exit)
    : Prop :=
  match r with
  | inr (Return (Some e)) => fatal_for t e
  | inr (Return None) => last evs = Some (EvCtxDone t true)
  | _ => True
  end.

(** [m] adds to the trace events that, together with its result, satisfy
    [J]. *)
Definition yields `{Universe} {A} (J : list Event -> A + Exit -> Prop) (m : M A) : Prop :=
  forall st, exists evs, trace (m st).1 = trace st ++ evs /\ J evs (m st).2.

(** [m] adds plain events only and leaves the loop as [exit_ok] says. *)
Definition plainly `{Collaborators} {A} (t : Target) (m : M A) : Prop :=
  yields (fun evs r => forallb plain evs = true /\ exit_ok t r) m.

(** [m] adds plain events only and comes back. *)
Definition silent `{Universe} {A} (m : M A) : Prop :=
  yields (fun evs r => forallb plain evs = true /\ exists a, r = inl a) m.

(** The targets whose live schema was fetched, oldest first. *)
Definition fetched `{Universe} (tr : list Event) : list Target :=
  omap (fun e => match e with EvSchemaFromInstance t _ => Some t | _ => None end) tr.

(** No statement is executed after a failed one until the next fetch;
    [failed] tells whether a failure is pending. *)
Fixpoint halts_after_failure `{Universe} (failed : bool) (tr : list Event) : bool :=
  match tr with
  | [] => true
  | EvSchemaFromInstance _ _ :: tr' => halts_after_failure false tr'
  | EvExecute _ _ f :: tr' => negb failed && halts_after_failure f tr'
  | _ :: tr' => halts_after_failure failed tr'
  end.

(** Each execution comes right after the print of the same statement. *)
Definition announced `{Universe} (tr : list Event) : Prop :=
  forall before t ddl failed after,
    tr = before ++ EvExecute t ddl failed :: after ->
    exists before', before = before' ++ [EvPrintDDL t ddl].

(** What an event of the loop body for [t] can be: a statement is printed
    only once the linter has cleared [t], and executed only if moreover the
    run is not dry. *)
Definition of_target `{Collaborators} (t : Target) (e : Event) : Prop :=
  match e with
  | EvSchemaFromInstance t' _ => t' = t
  | EvPrintDDL t' _ => t' = t /\ lint_cleared t
  | EvExecute t' _ _ =>
    t' = t /\ lint_cleared t /\ GetBool (Config_ (Dir_ t)) "dry-run" = false
  | EvChanClosed | EvSend _ => False
  | _ => True
  end.

(** The same, for whichever target the event names. *)
Definition permitted `{Collaborators} (e : Event) : Prop :=
  match e with
  | EvPrintDDL t _ => lint_cleared t
  | EvExecute t _ _ => lint_cleared t /\ GetBool (Config_ (Dir_ t)) "dry-run" = false
  | _ => True
  end.

(** The modifiers [Worker] hands to [NewDDLStatement] for the target [t]
    (lines 60-64): those of [StatementModifiersForDir], with the flavor of
    the target's instance. *)
Definition mods_of `{Universe} (t : Target) : StatementModifiers :=
  with_Flavor (Flavor (Instance_ t)) (StatementModifiersForDir (Dir_ t)).1.

(** The object diffs among [objDiffs] for which [NewDDLStatement] returns a
    statement and no error, each with its statement: what the loop over
    [objDiffs] appends to [ddls], and whose keys it appends to [keys], when
    it runs to its end. *)
Definition produced `{Collaborators} (t : Target) (mods : StatementModifiers)
    (objDiffs : list ObjectDiff) : list (ObjectDiff * DDLStatement) :=
  omap (fun d => match NewDDLStatement d mods t with
                 | (Some ddl, None) => Some (d, ddl)
                 | _ => None
                 end) objDiffs.

(** The number of errors the linter reports for [t] when it is restricted to
    [keys] (lines 103-105, 109). *)
Definition lint_errors `{Collaborators} (t : Target) (keys : list tengo.ObjectKey) : Z :=
  ErrorCount
    (SortByFile
       (linter_CheckSchema (DesiredSchema t)
          (OnlyKeys (linter_OptionsForDir (Dir_ t)).1 keys))).

(** An event that is a print or an execution is one for [t], of a statement
    among [ddls]. *)
Definition stmt_in `{Universe} (t : Target) (ddls : list DDLStatement) (e : Event) : Prop :=
  match e with
  | EvPrintDDL t' ddl | EvExecute t' ddl _ => t' = t /\ ddl ∈ ddls
  | _ => True
  end.

(** What stands behind the statements [Worker] prints or executes for [t]
    in [evs], when the live schema it fetched is [from]: each is one of the
    statements [NewDDLStatement] produced, with the modifiers of [t], for
    the object diffs between [from] and the schema of the directory; and if
    there is any and linting is enabled, the linter was run on the keys of
    exactly those object diffs and reported no error. *)
Definition licensed_from `{Collaborators} (t : Target) (from : option TengoSchema)
    (evs : list Event) : Prop :=
  let prod := produced t (mods_of t) (ObjectDiffs (NewSchemaDiff from (SchemaFromDir t))) in
  Forall (stmt_in t prod.*2) evs
  /\ (Forall (stmt_in t []) evs
      \/ (GetBool (Config_ (Dir_ t)) "lint" = true ->
          EvCheckSchema t (ObjectDiff_ObjectKey <$> prod.*1) ∈ evs
          /\ lint_errors t (ObjectDiff_ObjectKey <$> prod.*1) <= 0)).

(** The same for a statement [ddl] that [evs] shows printed or executed for
    [t]; the live schema is one that [SchemaFromInstance] returned. *)
Definition licensed `{Collaborators} (t : Target) (evs : list Event) (ddl : DDLStatement)
    : Prop :=
  exists w,
    let from := (SchemaFromInstance t w).2.1 in
    let prod := produced t (mods_of t) (ObjectDiffs (NewSchemaDiff from (SchemaFromDir t))) in
    ddl ∈ prod.*2
    /\ (GetBool (Config_ (Dir_ t)) "lint" = true ->
        EvCheckSchema t (ObjectDiff_ObjectKey <$> prod.*1) ∈ evs
        /\ lint_errors t (ObjectDiff_ObjectKey <$> prod.*1) <= 0).

(** Every statement printed or executed in [evs] is licensed. *)
Definition all_licensed `{Collaborators} (evs : list Event) : Prop :=
  forall e, e ∈ evs ->
    match e with
    | EvPrintDDL t ddl | EvExecute t ddl _ => licensed t evs ddl
    | _ => True
    end.

(** The events of [done], one block per target, in order. *)
Definition blocks `{Collaborators} (done : list Target) (evs : list Event) : Prop :=
  exists bl, evs = concat bl /\ Forall2 target_block done bl.

(** A loop over the targets [ts] went through [done], a prefix of [ts]: all
    of it if the loop came back, up to the target that left it otherwise. *)
Definition run_ok `{Collaborators} {A} (ts : list Target) (evs : list Event) (r : A + Exit)
    : Prop :=
  exists done,
    done `prefix_of` ts /\ blocks done evs
    /\ match r with
       | inl _ => done = ts
       | inr ContinueTargetsInGroup => False
       | inr (Return None) =>
         exists t, last done = Some t /\ last evs = Some (EvCtxDone t true)
       | inr (Return (Some e)) =>
         exists t, last done = Some t /\ fatal_for t e
       end.

(** ** A small concrete world

    One database server holding a set of tables; the desired schema is a list
    of table names.  Used to run [Worker] on explicit inputs. *)
Module Sim.

Record SimWorld := {
  live : list string;       (* tables present on the instance *)
  executed : list string;   (* DDL run so far, oldest first *)
  cancel_after : nat        (* ctx is cancelled once this many DDL have run *)
}.

Inductive SimDiff :=
| CreateTable (name : string)
| DropTable (name : string).

Record SimDesired := {
  tables : list string;
  lint_errors : Z
}.

Definition diff_name (d : SimDiff) : string :=
  match d with CreateTable n => n | DropTable n => n end.

Definition render (d : SimDiff) : string :=
  match d with
  | CreateTable n => "CREATE TABLE " +:+ n
  | DropTable n => "DROP TABLE " +:+ n
  end.

#[global] Instance sim_universe : Universe := {|
  World := SimWorld;
  TengoSchema := list string;
  WsSchema := SimDesired;
  SchemaDiff := list SimDiff;
  ObjectDiff := SimDiff;
  DDLStatement := SimDiff;
  LintOptions := list tengo.ObjectKey;
  Annotation := string
|}.

Definition mem (x : string) (l : list string) : bool := bool_decide (x ∈ l).

Definition sim_diff (from to : option (list string)) : list SimDiff :=
  let from := default [] from in
  let to := default [] to in
  (CreateTable <$> filter (fun n => ¬ mem n from) to)
  ++ (DropTable <$> filter (fun n => ¬ mem n to) from).

(** A table called "unsupported" cannot be diffed, one called "noop" needs no
    statement, and dropping a table is refused unless unsafe operations are
    allowed. *)
Definition sim_ddl (d : SimDiff) (mods : StatementModifiers) : option SimDiff * option error :=
  let key := {| tengo.Type_ := tengo.ObjectTypeTable; tengo.Name := diff_name d |} in
  if String.eqb (diff_name d) "noop" then (None, None)
  else if String.eqb (diff_name d) "unsupported"
  then (None, Some (UnsupportedDiffError key "unsupported table" "uses a feature
that is not supported"))
  else match d with
       | CreateTable _ => (Some d, None)
       | DropTable _ =>
         if AllowUnsafe mods then (Some d, None)
         else (None, Some (errorString "destructive statement refused"))
       end.

(** Creating a table called "bad" fails on the server. *)
Definition sim_execute (d : SimDiff) (w : SimWorld) : SimWorld * option error :=
  if String.eqb (diff_name d) "bad"
  then (w, Some (errorString "Error 1064: syntax error"))
  else
    ({| live := match d with
                | CreateTable n => live w ++ [n]
                | DropTable n => filter (fun m => m ≠ n) (live w)
                end;
        executed := executed w ++ [render d];
        cancel_after := cancel_after w |}, None).

(** An instance called "unreachable" cannot be introspected. *)
Definition sim_fetch (t : Target) (w : SimWorld)
    : SimWorld * (option (list string) * option error) :=
  if String.eqb (InstanceName (Instance_ t)) "unreachable"
  then (w, (None, Some (errorString "connection refused")))
  else (w, (Some (live w), None)).

#[global] Instance sim_collaborators : Collaborators := {|
  SchemaFromInstance := sim_fetch;
  SchemaFromDir := fun t => Some (tables (DesiredSchema t));
  NewSchemaDiff := sim_diff;
  TableDiffs_len := fun d => len d;
  ObjectDiffs := fun d => d;
  ObjectDiff_ObjectKey := fun d =>
    {| tengo.Type_ := tengo.ObjectTypeTable; tengo.Name := diff_name d |};
  VerifyDiff := fun _ _ w => (w, None);
  linter_OptionsForDir := fun _ => ([], None);
  OnlyKeys := fun _ keys => keys;
  linter_CheckSchema := fun desired _ =>
    {| Annotations := []; ErrorCount := lint_errors desired |};
  SortByFile := fun r => r;
  NewDDLStatement := fun d mods _ => sim_ddl d mods;
  DDL_Execute := sim_execute;
  ctx_Done := fun w => bool_decide (cancel_after w ≤ length (executed w))%nat
|}.

(** A configuration in which exactly the boolean options [on] are set. *)
Definition config (on : list string) : Config :=
  {| GetBool := fun k => mem k on;
     GetEnum := fun _ _ => ("", None);
     GetRegexp := fun _ => (None, None) |}.

Definition target (inst : string) (on : list string) (want : list string) (lint : Z)
    : Target :=
  {| Instance_ := {| InstanceName := inst; Flavor := "mysql:8.0" |};
     SchemaName := "app";
     Dir_ := {| Path := "schemas/app"; Config_ := config on; IgnoredStatements := [] |};
     DesiredSchema := {| tables := want; lint_errors := lint |} |}.

Definition world0 (n : nat) : SimWorld :=
  {| live := []; executed := []; cancel_after := n |}.

(** Inputs for the examples. *)
Definition r1 : Result := {| Differences := true; SkipCount := 2; UnsupportedCount := 0 |}.
Definition r2 : Result := {| Differences := false; SkipCount := int_max; UnsupportedCount := 1 |}.
Definition r3 : Result := {| Differences := false; SkipCount := 5; UnsupportedCount := 7 |}.

Definition cancelled_run : list TargetGroup :=
  [[target "db1" [] ["a"] 0; target "db1" [] ["a"; "c"] 0];
   [target "db2" [] ["d"] 0]].

Definition unreachable_run : list TargetGroup :=
  [[target "unreachable" [] ["a"; "b"] 0; target "db1" [] ["a"; "b"; "c"] 0]].

Definition lint_rejected_run : list TargetGroup :=
  [[target "db1" ["lint"] ["noop"; "a"; "unsupported"] 1;
    target "db1" [] ["c"] 0]].

Definition pushed_target : Target := target "db1" [] ["a"] 0.

Definition linted_target : Target := target "db1" ["lint"] ["a"] 0.

Definition failing_target : Target := target "db1" [] ["bad"; "x"] 0.

Definition later_target : Target := target "db1" [] ["c"] 0.

Definition failing_run : list TargetGroup := [[failing_target; later_target]].

End Sim.

End applier.

(** * Package workspace *)

Module workspace.

(** ** Data *)

(** [Type] and [CleanupAction] are [int] types whose constants are numbered
    by [iota]. *)
Definition Type_ := Z.
Definition TypeTempSchema : Type_ := 0.
Definition TypeLocalDocker : Type_ := 1.
Definition TypePrefab : Type_ := 2.

Definition CleanupAction := Z.
Definition CleanupActionNone : CleanupAction := 0.
Definition CleanupActionDrop : CleanupAction := 1.
Definition CleanupActionStop : CleanupAction := 2.
Definition CleanupActionDestroy : CleanupAction := 3.

Class Universe := {
  World : Type;         (* servers, containers, connections *)
  Pool : Type;          (* *sqlx.DB *)
  TengoSchema : Type;   (* tengo.Schema *)
  TengoInstance : Type; (* tengo.Instance *)
  Any : Type            (* interface{} *)
}.

(** The [Workspace] interface. *)
Record Workspace `{Universe} := {
  ConnectionPool : string -> World -> World * (Pool + error);
  IntrospectSchema : World -> World * (option TengoSchema * option error);
  Cleanup : World -> World * option error
}.

Record Options `{Universe} := {
  Type__ : Type_;
  CleanupAction_ : CleanupAction;
  Instance : option TengoInstance;
  Flavor : string;
  ContainerName : string;
  SchemaName : string;
  DefaultCharacterSet : string;
  DefaultCollation : string;
  DefaultConnParams : string;
  RootPassword : string;
  PrefabWorkspace : option Workspace;
  LockWaitTimeout : Z
}.

(** [fs.Statement], with the results of its [Location()] and [Body()]
    methods as fields. *)
Record Statement := {
  ObjectType : tengo.ObjectType;
  ObjectName : string;
  Location : string;
  Body : string
}.

Definition Statement_ObjectKey (s : Statement) : tengo.ObjectKey :=
  {| tengo.Type_ := ObjectType s; tengo.Name := ObjectName s |}.

(** [fs.LogicalSchema].  [Creates] lists the CREATE statements in the order
    in which [range] yields them. *)
Record LogicalSchema := {
  Creates : list Statement;
  Alters : list Statement;
  CharSet : string;
  Collation : string
}.

Record StatementError := {
  Statement_ : Statement;
  Err_ : error
}.

Definition StatementError_Error (se : StatementError) : string :=
  let loc := Location (Statement_ se) in
  if String.eqb loc "" then
    Error (Err_ se) +:+ " [Full SQL: " +:+ Body (Statement_ se) +:+ "]"
  else loc +:+ ": " +:+ Error (Err_ se).

Definition StatementError_String (se : StatementError) : string :=
  StatementError_Error se.

Record Schema `{Universe} := {
  Schema_ : option TengoSchema;
  LogicalSchema_ : LogicalSchema;
  Failures : list StatementError
}.

Definition FailedKeys `{Universe} (wsSchema : Schema) : list tengo.ObjectKey :=
  fold_left (fun result statementError => result ++ [Statement_ObjectKey (Statement_ statementError)])
    (Failures wsSchema) [].

(** The two connection pools of [ExecLogicalSchema]: [db] and [dbRemember]. *)
Inductive PoolRole := Normal | Remember.

#[global] Instance PoolRole_eq_dec : EqDecision PoolRole.
Proof. solve_decision. Defined.

(** A thread of control: the caller of [ExecLogicalSchema], or the goroutine
    started for the [i]-th CREATE statement. *)
Inductive Thread := Main | Goroutine (i : nat).

(** The calls made outside workspace.go. *)
Class Collaborators `{Universe} := {
  NewTempSchema : Options -> World -> World * (option Workspace * option error);
  NewLocalDocker : Options -> World -> World * (option Workspace * option error);
  DB_Exec : Pool -> string -> World -> World * option error;
  IsSyntaxError : error -> bool
}.

Inductive Event `{Universe} :=
| EvNew (opts : Options) (err : option error)
| EvConnectionPool (params : string) (err : option error)
| EvSetMaxOpenConns (pool : PoolRole) (n : Z)
| EvGo (i : nat) (statement : Statement)
| EvExecStart (who : Thread) (pool : PoolRole) (statement : Statement)
| EvExecDone (who : Thread) (pool : PoolRole) (statement : Statement)
    (result : option StatementError)
| EvRecv (result : option StatementError)
| EvClose
| EvIntrospectSchema (err : option error)
| EvCleanup (err : option error)
| EvLock
| EvUnlock
| EvStore (n : nat)   (* shutdownFuncs is assigned a slice of length n *)
| EvCall (i : nat) (args : list Any) (deregister : bool).

(** ** The shutdown registry *)

(** A registered function acts on the world and reports whether it cleaned
    up.  It cannot register or shut down in turn: [Shutdown] holds the mutex
    while it runs, so such a call would block for ever. *)
Definition ShutdownFunc `{Universe} := list Any -> World -> World * bool.

(** The package-level variables, the world and the trace.  [maxOpen] is the
    limit last given to [SetMaxOpenConns] on each pool; zero, the initial
    value, means no limit. *)
Record State `{Universe} := {
  world : World;
  shutdownFuncs : list ShutdownFunc;
  shutdownFuncMutex : bool;   (* true while the mutex is held *)
  maxOpen : PoolRole -> Z;
  trace : list Event
}.

Definition set_world `{Universe} (w : World) (st : State) : State :=
  {| world := w; shutdownFuncs := shutdownFuncs st;
     shutdownFuncMutex := shutdownFuncMutex st; maxOpen := maxOpen st;
     trace := trace st |}.

(** [shutdownFuncs = fs]. *)
Definition set_funcs `{Universe} (fs : list ShutdownFunc) (st : State) : State :=
  {| world := world st; shutdownFuncs := fs;
     shutdownFuncMutex := shutdownFuncMutex st; maxOpen := maxOpen st;
     trace := trace st ++ [EvStore (length fs)] |}.

Definition set_mutex `{Universe} (b : bool) (st : State) : State :=
  {| world := world st; shutdownFuncs := shutdownFuncs st;
     shutdownFuncMutex := b; maxOpen := maxOpen st; trace := trace st |}.

Definition set_maxOpen `{Universe} (pool : PoolRole) (n : Z) (st : State) : State :=
  {| world := world st; shutdownFuncs := shutdownFuncs st;
     shutdownFuncMutex := shutdownFuncMutex st;
     maxOpen := fun p => if decide (p = pool) then n else maxOpen st p;
     trace := trace st |}.

Definition emit `{Universe} (e : Event) (st : State) : State :=
  {| world := world st; shutdownFuncs := shutdownFuncs st;
     shutdownFuncMutex := shutdownFuncMutex st; maxOpen := maxOpen st;
     trace := trace st ++ [e] |}.

(** [sync.Mutex.Lock]: [None] when the mutex is held, in which case the
    caller blocks. *)
Definition Lock `{Universe} (st : State) : option State :=
  if shutdownFuncMutex st then None
  else Some (emit EvLock (set_mutex true st)).

Definition Unlock `{Universe} (st : State) : State :=
  emit EvUnlock (set_mutex false st).

(** The loop of [Shutdown]: [i] is the index of the head of [fs] in the
    registry. *)
Fixpoint shutdown_loop `{Universe} (args : list Any) (i : nat)
    (fs retainedFuncs : list ShutdownFunc) (st : State)
    : list ShutdownFunc * State :=
  match fs with
  | [] => (retainedFuncs, st)
  | f :: fs' =>
    let (w, deregister) := f args (world st) in
    let st := emit (EvCall i args deregister) (set_world w st) in
    shutdown_loop args (S i) fs'
      (if deregister then retainedFuncs else retainedFuncs ++ [f]) st
  end.

Definition Shutdown `{Universe} (args : list Any) (st : State) : option State :=
  st ← Lock st;
  let (retainedFuncs, st) := shutdown_loop args 0 (shutdownFuncs st) [] st in
  let st := set_funcs retainedFuncs st in
  Some (Unlock st).

Definition RegisterShutdownFunc `{Universe} (f : ShutdownFunc) (st : State) : option State :=
  st ← Lock st;
  let st := set_funcs (shutdownFuncs st ++ [f]) st in
  Some (Unlock st).

(** ** New *)

Definition New `{Collaborators} (opts : Options) (w : World)
    : World * (option Workspace * option error) :=
  if Type__ opts =? TypeTempSchema then NewTempSchema opts w
  else if Type__ opts =? TypeLocalDocker then NewLocalDocker opts w
  else if Type__ opts =? TypePrefab then (w, (PrefabWorkspace opts, None))
  else (w, (None, Some (errorString ("Unsupported workspace type " +:+ pretty (Type__ opts))))).

(** ** execStatement *)

Definition execStatement `{Collaborators} (db : Pool) (statement : Statement) (w : World)
    : World * option StatementError :=
  let (w, err) := DB_Exec db (Body statement) w in
  match err with
  | None => (w, None)
  | Some err =>
    (w, Some {| Statement_ := statement;
                Err_ := if IsSyntaxError err
                        then errorString ("SQL syntax error: " +:+ Error err)
                        else errorString ("Error executing DDL in workspace: " +:+ Error err) |})
  end.

(** ** The CREATE phase: goroutines, pools and the results channel

    Each CREATE statement gets a goroutine, which acquires a connection from
    its pool, runs the statement, sends the outcome on the unbuffered channel
    [results] and exits.  The caller first starts all goroutines, then
    receives once per statement.  The interleaving is chosen by a schedule;
    a pool with limit [n > 0] hands out at most [n] connections at a time
    (the contract of database/sql's [SetMaxOpenConns]). *)

Definition rememberSQLMode : gmap tengo.ObjectType bool :=
  <[tengo.ObjectTypeFunc := true]> (<[tengo.ObjectTypeProc := true]> ∅).

Definition pool_of (statement : Statement) : PoolRole :=
  if default false (rememberSQLMode !! ObjectType statement) then Remember else Normal.

Inductive gstatus :=
| Spawned                                     (* waiting for a connection *)
| Running                                     (* inside db.Exec *)
| Sending (result : option StatementError)    (* blocked on results <- ... *)
| Exited.

Record goroutine := {
  g_stmt : Statement;
  g_status : gstatus
}.

Record CState `{Universe} := {
  base : State;
  pending : list Statement;        (* statements the range loop has yet to reach *)
  goroutines : list goroutine;     (* one per statement reached, in order *)
  failures : list StatementError   (* wsSchema.Failures *)
}.

Inductive Action :=
| ActGo                 (* the caller starts the next goroutine *)
| ActStart (i : nat)    (* goroutine i obtains a connection *)
| ActFinish (i : nat)   (* goroutine i's statement completes *)
| ActRecv (i : nat).    (* the caller receives goroutine i's result *)

Definition running_on (pool : PoolRole) (g : goroutine) : bool :=
  match g_status g with
  | Running => bool_decide (pool_of (g_stmt g) = pool)
  | _ => false
  end.

(** Connections of [pool] in use. *)
Fixpoint in_use (pool : PoolRole) (gs : list goroutine) : nat :=
  match gs with
  | [] => 0
  | g :: gs' => ((if running_on pool g then 1 else 0) + in_use pool gs')%nat
  end.

Definition can_start (limit : Z) (used : nat) : bool :=
  (limit <=? 0) || (Z.of_nat used <? limit).

Definition is_nil {A} (l : list A) : bool :=
  match l with [] => true | _ => false end.

Definition actions_at `{Universe} (st : CState) (i : nat) (g : goroutine) : list Action :=
  match g_status g with
  | Spawned =>
    if can_start (maxOpen (base st) (pool_of (g_stmt g)))
                 (in_use (pool_of (g_stmt g)) (goroutines st))
    then [ActStart i] else []
  | Running => [ActFinish i]
  | Sending _ => if is_nil (pending st) then [ActRecv i] else []
  | Exited => []
  end.

(** The actions of the goroutines [gs], the first of which has index [i]. *)
Fixpoint actions_from `{Universe} (st : CState) (i : nat) (gs : list goroutine)
    : list Action :=
  match gs with
  | [] => []
  | g :: gs' => actions_at st i g ++ actions_from st (S i) gs'
  end.

Definition enabled `{Universe} (st : CState) : list Action :=
  (if is_nil (pending st) then [] else [ActGo])
  ++ actions_from st 0 (goroutines st).

Definition set_goroutine `{Universe} (i : nat) (g : goroutine) (b : State) (st : CState)
    : CState :=
  {| base := b; pending := pending st;
     goroutines := <[i := g]> (goroutines st); failures := failures st |}.

(** One step of the CREATE phase.  An action whose guard does not hold
    leaves the state alone. *)
Definition step `{Collaborators} (db dbRemember : Pool) (a : Action) (st : CState) : CState :=
  match a with
  | ActGo =>
    match pending st with
    | [] => st
    | statement :: rest =>
      {| base := emit (EvGo (length (goroutines st)) statement) (base st);
         pending := rest;
         goroutines := goroutines st ++ [{| g_stmt := statement; g_status := Spawned |}];
         failures := failures st |}
    end
  | ActStart i =>
    match goroutines st !! i with
    | Some {| g_stmt := statement; g_status := Spawned |} =>
      if can_start (maxOpen (base st) (pool_of statement))
                   (in_use (pool_of statement) (goroutines st))
      then set_goroutine i {| g_stmt := statement; g_status := Running |}
             (emit (EvExecStart (Goroutine i) (pool_of statement) statement) (base st)) st
      else st
    | _ => st
    end
  | ActFinish i =>
    match goroutines st !! i with
    | Some {| g_stmt := statement; g_status := Running |} =>
      let pool := pool_of statement in
      let (w, result) :=
        execStatement (match pool with Remember => dbRemember | Normal => db end)
          statement (world (base st)) in
      set_goroutine i {| g_stmt := statement; g_status := Sending result |}
        (emit (EvExecDone (Goroutine i) pool statement result) (set_world w (base st))) st
    | _ => st
    end
  | ActRecv i =>
    match goroutines st !! i with
    | Some {| g_stmt := statement; g_status := Sending result |} =>
      if is_nil (pending st) then
        {| base := emit (EvRecv result) (base st);
           pending := pending st;
           goroutines := <[i := {| g_stmt := statement; g_status := Exited |}]> (goroutines st);
           failures := failures st ++ option_list result |}
      else st
    | _ => st
    end
  end.

(** Run until nothing can move, letting the schedule choose among the
    enabled actions: its head, reduced modulo their number. *)
Fixpoint run_goroutines `{Collaborators} (fuel : nat) (sched : list nat)
    (db dbRemember : Pool) (st : CState) : CState :=
  match fuel with
  | O => st
  | S fuel' =>
    match enabled st with
    | [] => st
    | a :: acts =>
      let choice := default a ((a :: acts) !! (hd 0 sched mod length (a :: acts))%nat) in
      run_goroutines fuel' (tl sched) db dbRemember (step db dbRemember choice st)
    end
  end.

(** A sequence of actions, each enabled when its turn comes. *)
Fixpoint valid_run `{Collaborators} (db dbRemember : Pool) (st : CState)
    (acts : list Action) : Prop :=
  match acts with
  | [] => True
  | a :: acts' => a ∈ enabled st /\ valid_run db dbRemember (step db dbRemember a st) acts'
  end.

(** ** ExecLogicalSchema *)

Definition SetMaxOpenConns `{Universe} (pool : PoolRole) (n : Z) (st : State) : State :=
  emit (EvSetMaxOpenConns pool n) (set_maxOpen pool n st).

(** The ALTER loop (lines 314-318). *)
Fixpoint run_alters `{Collaborators} (db : Pool) (alters : list Statement)
    (failures : list StatementError) (st : State) : State * list StatementError :=
  match alters with
  | [] => (st, failures)
  | statement :: rest =>
    let st := emit (EvExecStart Main Normal statement) st in
    let (w, err) := execStatement db statement (world st) in
    let st := emit (EvExecDone Main Normal statement err) (set_world w st) in
    run_alters db rest (failures ++ option_list err) st
  end.

Definition result_err {A} (r : A + error) : option error :=
  match r with inl _ => None | inr e => Some e end.

Definition cannot_connect (err : error) : error :=
  errorString ("Cannot connect to workspace: " +:+ Error err).

(** Lines 265-321, with the two deferred [SetMaxOpenConns(0)] calls, which
    run in reverse order of their [defer] statements. *)
Definition exec_in_workspace `{Collaborators} (sched : list nat)
    (logicalSchema : LogicalSchema) (ws : Workspace) (st : State)
    : State * (option Schema * option error) :=
  let (w, r) := ConnectionPool ws "" (world st) in
  let st := emit (EvConnectionPool "" (result_err r)) (set_world w st) in
  match r with
  | inr err => (st, (None, Some (cannot_connect err)))
  | inl db =>
    let (w, r) := ConnectionPool ws "sql_mode=@@GLOBAL.sql_mode" (world st) in
    let st := emit (EvConnectionPool "sql_mode=@@GLOBAL.sql_mode" (result_err r))
                (set_world w st) in
    match r with
    | inr err => (st, (None, Some (cannot_connect err)))
    | inl dbRemember =>
      let st := SetMaxOpenConns Normal 10 st in
      let st := SetMaxOpenConns Remember 10 st in
      let cst := run_goroutines (4 * length (Creates logicalSchema)) sched db dbRemember
                   {| base := st; pending := Creates logicalSchema;
                      goroutines := []; failures := [] |} in
      let st := emit EvClose (base cst) in
      let (st, failures) := run_alters db (Alters logicalSchema) (failures cst) st in
      let '(w, (schema, fatalErr)) := IntrospectSchema ws (world st) in
      let st := emit (EvIntrospectSchema fatalErr) (set_world w st) in
      let st := SetMaxOpenConns Remember 0 st in
      let st := SetMaxOpenConns Normal 0 st in
      (st, (Some {| Schema_ := schema; LogicalSchema_ := logicalSchema;
                    Failures := failures |}, fatalErr))
    end
  end.

Definition with_charset `{Universe} (cs : string) (opts : Options) : Options :=
  {| Type__ := Type__ opts; CleanupAction_ := CleanupAction_ opts;
     Instance := Instance opts; Flavor := Flavor opts;
     ContainerName := ContainerName opts; SchemaName := SchemaName opts;
     DefaultCharacterSet := cs; DefaultCollation := DefaultCollation opts;
     DefaultConnParams := DefaultConnParams opts; RootPassword := RootPassword opts;
     PrefabWorkspace := PrefabWorkspace opts; LockWaitTimeout := LockWaitTimeout opts |}.

Definition with_collation `{Universe} (co : string) (opts : Options) : Options :=
  {| Type__ := Type__ opts; CleanupAction_ := CleanupAction_ opts;
     Instance := Instance opts; Flavor := Flavor opts;
     ContainerName := ContainerName opts; SchemaName := SchemaName opts;
     DefaultCharacterSet := DefaultCharacterSet opts; DefaultCollation := co;
     DefaultConnParams := DefaultConnParams opts; RootPassword := RootPassword opts;
     PrefabWorkspace := PrefabWorkspace opts; LockWaitTimeout := LockWaitTimeout opts |}.

(** Lines 248-253: what [ExecLogicalSchema] does to its copy of [opts]. *)
Definition merge_charset `{Universe} (logicalSchema : LogicalSchema) (opts : Options) : Options :=
  let opts := if String.eqb (CharSet logicalSchema) "" then opts
              else with_charset (CharSet logicalSchema) opts in
  if String.eqb (Collation logicalSchema) "" then opts
  else with_collation (Collation logicalSchema) opts.

(** How a call ends: it returns its two results, or it panics (a method call
    on a nil [Workspace]). *)
Inductive Outcome `{Universe} :=
| Returned (wsSchema : option Schema) (fatalErr : option error)
| Panicked.

Definition ExecLogicalSchema `{Collaborators} (sched : list nat)
    (logicalSchema : LogicalSchema) (opts : Options) (st : State) : State * Outcome :=
  let opts := merge_charset logicalSchema opts in
  let '(w, (ws, fatalErr)) := New opts (world st) in
  let st := emit (EvNew opts fatalErr) (set_world w st) in
  match fatalErr with
  | Some _ => (st, Returned None fatalErr)
  | None =>
    match ws with
    | None => (st, Panicked)
    | Some ws =>
      let '(st, (wsSchema, fatalErr)) := exec_in_workspace sched logicalSchema ws st in
      (* the deferred closure *)
      let (w, cleanupErr) := Cleanup ws (world st) in
      let st := emit (EvCleanup cleanupErr) (set_world w st) in
      (st, Returned wsSchema (match fatalErr with
                              | None => cleanupErr
                              | Some _ => fatalErr
                              end))
    end
  end.

(** ** Reading a trace *)

(** What is left for a goroutine to do: obtain a connection, finish its
    statement, hand over the result. *)
Definition weight (g : goroutine) : nat :=
  match g_status g with
  | Spawned => 3
  | Running => 2
  | Sending _ => 1
  | Exited => 0
  end.

(** The number of steps the CREATE phase still has to take. *)
Definition remaining `{Universe} (st : CState) : nat :=
  (4 * length (pending st) + sum_list (weight <$> goroutines st))%nat.

(** The statement of a goroutine that has executed it. *)
Definition executed_of (g : goroutine) : list Statement :=
  match g_status g with
  | Sending _ | Exited => [g_stmt g]
  | _ => []
  end.

(** The result a goroutine is waiting to send. *)
Definition undelivered_of (g : goroutine) : list (option StatementError) :=
  match g_status g with
  | Sending r => [r]
  | _ => []
  end.

(** A completed call of [execStatement]. *)
Record Execution := {
  ex_who : Thread;
  ex_pool : PoolRole;
  ex_stmt : Statement;
  ex_result : option StatementError
}.

Definition execution_of `{Universe} (e : Event) : option Execution :=
  match e with
  | EvExecDone who pool statement result =>
    Some {| ex_who := who; ex_pool := pool; ex_stmt := statement; ex_result := result |}
  | _ => None
  end.

Definition executions `{Universe} (tr : list Event) : list Execution :=
  omap execution_of tr.

(** The statements whose execution failed, one entry per failed execution. *)
Definition failed_statements (xs : list Execution) : list Statement :=
  omap (fun x => match ex_result x with Some _ => Some (ex_stmt x) | None => None end) xs.

(** What the caller received on [results], oldest first. *)
Definition received `{Universe} (tr : list Event) : list (option StatementError) :=
  omap (fun e => match e with EvRecv r => Some r | _ => None end) tr.

(** The goroutines started: index and statement. *)
Definition submitted `{Universe} (tr : list Event) : list (nat * Statement) :=
  omap (fun e => match e with EvGo i s => Some (i, s) | _ => None end) tr.

(** The options [New] was called with. *)
Definition options_used `{Universe} (tr : list Event) : list Options :=
  omap (fun e => match e with EvNew opts _ => Some opts | _ => None end) tr.

(** The change an event makes to the number of connections of [pool] that
    are executing a statement. *)
Definition delta `{Universe} (pool : PoolRole) (e : Event) : Z :=
  match e with
  | EvExecStart _ p _ => if decide (p = pool) then 1 else 0
  | EvExecDone _ p _ _ => if decide (p = pool) then -1 else 0
  | _ => 0
  end.

(** Connections of [pool] executing a statement at the end of [tr]. *)
Definition in_flight `{Universe} (pool : PoolRole) (tr : list Event) : Z :=
  foldr (fun e acc => delta pool e + acc) 0 tr.

(** The largest value [in_flight pool] takes on a prefix of [tr]. *)
Fixpoint peak `{Universe} (pool : PoolRole) (tr : list Event) : Z :=
  match tr with
  | [] => 0
  | e :: tr' => Z.max 0 (delta pool e + peak pool tr')
  end.

(** The fatal error an event gives rise to, if any, in the form in which
    [ExecLogicalSchema] reports it. *)
Definition fatal_of `{Universe} (e : Event) : option error :=
  match e with
  | EvNew _ (Some err) => Some err
  | EvConnectionPool _ (Some err) => Some (cannot_connect err)
  | EvIntrospectSchema (Some err) => Some err
  | EvCleanup (Some err) => Some err
  | _ => None
  end.

Definition fatal_events `{Universe} (tr : list Event) : list error :=
  omap fatal_of tr.

Definition is_cleanup `{Universe} (e : Event) : bool :=
  match e with EvCleanup _ => true | _ => false end.

(** An event of the CREATE phase: a goroutine is started, a goroutine starts
    or finishes executing, the caller receives a result. *)
Definition create_phase_event `{Universe} (e : Event) : bool :=
  match e with
  | EvGo _ _ | EvExecStart (Goroutine _) _ _ | EvExecDone (Goroutine _) _ _ _
  | EvRecv _ => true
  | _ => false
  end.

(** A statement starts or finishes executing. *)
Definition is_exec `{Universe} (e : Event) : bool :=
  match e with
  | EvExecStart _ _ _ | EvExecDone _ _ _ _ => true
  | _ => false
  end.

(** A statement starts or finishes executing on the caller's own thread. *)
Definition is_main_exec `{Universe} (e : Event) : bool :=
  match e with
  | EvExecStart Main _ _ | EvExecDone Main _ _ _ => true
  | _ => false
  end.

(** The execution of an ALTER statement with a given outcome. *)
Definition alter_execution (sr : Statement * option StatementError) : Execution :=
  {| ex_who := Main; ex_pool := Normal; ex_stmt := sr.1; ex_result := sr.2 |}.

(** The events of one ALTER statement, given its outcome. *)
Definition alter_events `{Universe} (sr : Statement * option StatementError) : list Event :=
  [EvExecStart Main Normal sr.1; EvExecDone Main Normal sr.1 sr.2].

(** What the registered functions return when [Shutdown] calls them in turn,
    and the world they leave behind. *)
Fixpoint call_all `{Universe} (args : list Any) (fs : list ShutdownFunc) (w : World)
    : list bool * World :=
  match fs with
  | [] => ([], w)
  | f :: fs' =>
    let (w, deregister) := f args w in
    let (rs, w) := call_all args fs' w in
    (deregister :: rs, w)
  end.

(** The functions among [fs] whose entry in [rets] is false. *)
Definition kept `{Universe} (fs : list ShutdownFunc) (rets : list bool) : list ShutdownFunc :=
  (filter (fun fr => fr.2 = false) (zip fs rets)).*1.

Definition returned_schema `{Universe} (o : Outcome) : option Schema :=
  match o with Returned wsSchema _ => wsSchema | Panicked => None end.

Definition returned_error `{Universe} (o : Outcome) : option error :=
  match o with Returned _ fatalErr => fatalErr | Panicked => None end.

(** ** The CREATE phase, as seen in the trace *)

(** A boolean as a count. *)
Definition b2n (b : bool) : nat := if b then 1 else 0.

(** What an event delivers to the caller. *)
Definition recv_of `{Universe} (e : Event) : list (option StatementError) :=
  option_list (match e with EvRecv r => Some r | _ => None end).

(** An error names the statement it is about. *)
Definition names (s : Statement) (r : option StatementError) : Prop :=
  forall se, r = Some se -> Statement_ se = s.

(** An execution of the CREATE phase: it is the work of the goroutine of
    one of the CREATE statements, on the pool chosen for that statement, and
    an error it produced names that statement. *)
Definition exec_ok (creates : list Statement) (x : Execution) : Prop :=
  (exists i, ex_who x = Goroutine i /\ creates !! i = Some (ex_stmt x))
  /\ ex_pool x = pool_of (ex_stmt x)
  /\ (forall se, ex_result x = Some se -> Statement_ se = ex_stmt x).

(** What holds of every state the CREATE phase reaches when it starts from
    the state [st0] with both pools limited to 10 connections, [evs] being
    the events since the phase began. *)
Record Inv `{Universe} (creates : list Statement) (st0 : State)
    (evs : list Event) (cst : CState) : Prop := {
  inv_creates : (g_stmt <$> goroutines cst) ++ pending cst = creates;
  inv_trace : trace (base cst) = trace st0 ++ evs;
  inv_funcs : shutdownFuncs (base cst) = shutdownFuncs st0;
  inv_mutex : shutdownFuncMutex (base cst) = shutdownFuncMutex st0;
  inv_maxOpen : maxOpen (base cst) = maxOpen st0;
  inv_phase : forallb create_phase_event evs = true;
  inv_submitted : submitted evs = imap pair (g_stmt <$> goroutines cst);
  inv_exec_ok : Forall (exec_ok creates) (executions evs);
  inv_executed : ex_stmt <$> executions evs ≡ₚ goroutines cst ≫= executed_of;
  inv_results :
    ex_result <$> executions evs ≡ₚ received evs ++ (goroutines cst ≫= undelivered_of);
  inv_failures : failures cst = omap id (received evs);
  inv_in_flight : forall pool, in_flight pool evs = Z.of_nat (in_use pool (goroutines cst));
  inv_peak : forall pool, peak pool evs <= 10
}.

(** What the events [cre] of a finished CREATE phase satisfy. *)
Definition create_phase_ok `{Universe} (creates : list Statement) (cre : list Event) : Prop :=
  forallb create_phase_event cre = true
  /\ submitted cre = imap pair creates
  /\ Forall (exec_ok creates) (executions cre)
  /\ ex_stmt <$> executions cre ≡ₚ creates
  /\ ex_result <$> executions cre ≡ₚ received cre
  /\ (forall pool, in_flight pool cre = 0 /\ peak pool cre <= 10).

(** The state of a process in which nothing has happened yet. *)
Definition init_state `{Universe} (w : World) : State :=
  {| world := w; shutdownFuncs := []; shutdownFuncMutex := false;
     maxOpen := fun _ => 0; trace := [] |}.

(** ** OptionsForDir

    The directory as [OptionsForDir] sees it: the option getters of its
    configuration and [InstanceDefaultParams].  A [tengo.Flavor] is
    represented by a string, as in [Options]. *)
Record Dir := {
  Config_Get : string -> string;
  Config_GetBool : string -> bool;
  Config_GetEnum : string -> list string -> string * option error;
  InstanceDefaultParams : string * option error
}.

(** The flavor functions of tengo. *)
Class Flavors `{Universe} := {
  NewFlavor : string -> string;
  Flavor_Known : string -> bool;
  Flavor_String : string -> string;
  Instance_Flavor : TengoInstance -> string
}.

(** [strings.Replace(s, ":", "-", -1)]. *)
Fixpoint replace_colons (s : string) : string :=
  match s with
  | EmptyString => EmptyString
  | String c s' => String (if Ascii.eqb c ":"%char then "-"%char else c) (replace_colons s')
  end.

(** [Options{}]. *)
Definition zero_Options `{Universe} : Options :=
  {| Type__ := 0; CleanupAction_ := 0; Instance := None; Flavor := "";
     ContainerName := ""; SchemaName := ""; DefaultCharacterSet := "";
     DefaultCollation := ""; DefaultConnParams := ""; RootPassword := "";
     PrefabWorkspace := None; LockWaitTimeout := 0 |}.

(** [30 * time.Second], in nanoseconds. *)
Definition thirty_seconds : Z := 30 * 1000000000.

Definition OptionsForDir `{Flavors} (dir : Dir) (instance : option TengoInstance)
    : Options * option error :=
  let (requestedType, err) := Config_GetEnum dir "workspace" ["temp-schema"; "docker"] in
  match err with
  | Some _ => (zero_Options, err)
  | None =>
    if String.eqb requestedType "docker" then
      let flavor := NewFlavor (Config_Get dir "flavor") in
      let flavor :=
        match instance with
        | Some inst => if negb (Flavor_Known flavor) then Instance_Flavor inst else flavor
        | None => flavor
        end in
      let containerName := "skeema-" +:+ replace_colons (Flavor_String flavor) in
      let (cleanup, err) := Config_GetEnum dir "docker-cleanup" ["none"; "stop"; "destroy"] in
      match err with
      | Some _ => (zero_Options, err)
      | None =>
        let action :=
          if String.eqb cleanup "stop" then CleanupActionStop
          else if String.eqb cleanup "destroy" then CleanupActionDestroy
          else CleanupActionNone in
        let (params, err) := InstanceDefaultParams dir in
        match err with
        | Some _ => (zero_Options, err)
        | None =>
          ({| Type__ := TypeLocalDocker; CleanupAction_ := action; Instance := None;
              Flavor := flavor; ContainerName := containerName;
              SchemaName := Config_Get dir "temp-schema";
              DefaultCharacterSet := ""; DefaultCollation := "";
              DefaultConnParams := params; RootPassword := "";
              PrefabWorkspace := None; LockWaitTimeout := thirty_seconds |}, None)
        end
      end
    else
      ({| Type__ := TypeTempSchema;
          CleanupAction_ := if negb (Config_GetBool dir "reuse-temp-schema")
                            then CleanupActionDrop else CleanupActionNone;
          Instance := instance; Flavor := ""; ContainerName := "";
          SchemaName := Config_Get dir "temp-schema";
          DefaultCharacterSet := ""; DefaultCollation := "";
          DefaultConnParams := ""; RootPassword := "";
          PrefabWorkspace := None; LockWaitTimeout := thirty_seconds |}, None)
  end.

(** ** More ways to read a trace *)

(** The calls [Shutdown] made: index in the registry and value returned. *)
Definition calls `{Universe} (tr : list Event) : list (nat * bool) :=
  omap (fun e => match e with EvCall i _ r => Some (i, r) | _ => None end) tr.

(** The outcome of a statement when the server's verdict [verdict] depends on
    the text of the statement alone: what [execStatement] makes of it. *)
Definition statement_outcome `{Collaborators} (verdict : string -> option error)
    (statement : Statement) : option StatementError :=
  match verdict (Body statement) with
  | None => None
  | Some err =>
    Some {| Statement_ := statement;
            Err_ := if IsSyntaxError err
                    then errorString ("SQL syntax error: " +:+ Error err)
                    else errorString ("Error executing DDL in workspace: " +:+ Error err) |}
  end.

(** An execution whose result is the one [verdict] dictates. *)
Definition determined `{Collaborators} (verdict : string -> option error)
    (x : Execution) : Prop :=
  ex_result x = statement_outcome verdict (ex_stmt x).

(** [st'] continues [st] with events whose executions are all determined
    by [verdict]. *)
Definition continues `{Collaborators} (verdict : string -> option error)
    (st st' : State) : Prop :=
  exists evs, trace st' = trace st ++ evs
              /\ Forall (determined verdict) (executions evs).

(** ** The calls of db.Exec behind a run *)

(** What [execStatement] returns for [statement] when [db.Exec] returns
    [err] (lines 326-336). *)
Definition statement_result `{Collaborators} (statement : Statement) (err : option error)
    : option StatementError :=
  match err with
  | None => None
  | Some err =>
    Some {| Statement_ := statement;
            Err_ := if IsSyntaxError err
                    then errorString ("SQL syntax error: " +:+ Error err)
                    else errorString ("Error executing DDL in workspace: " +:+ Error err) |}
  end.

(** The pool a goroutine of the CREATE phase hands to [execStatement]
    (lines 294-298): [dbRemember] for a function or a procedure, [db] for
    anything else. *)
Definition route `{Universe} (db dbRemember : Pool) (statement : Statement) : Pool :=
  if String.eqb (ObjectType statement) tengo.ObjectTypeFunc
     || String.eqb (ObjectType statement) tengo.ObjectTypeProc
  then dbRemember else db.

(** [db.Exec] on the body of each statement in turn, on the pool [pool_for]
    gives for it, each call in the world the one before left: what the calls
    returned, and the world after the last. *)
Fixpoint exec_seq `{Collaborators} (pool_for : Statement -> Pool) (stmts : list Statement)
    (w : World) : list (option error) * World :=
  match stmts with
  | [] => ([], w)
  | statement :: rest =>
    let (w, err) := DB_Exec (pool_for statement) (Body statement) w in
    let (errs, w) := exec_seq pool_for rest w in
    (err :: errs, w)
  end.

(** The executions recorded in [evs] are calls of [db.Exec], made one after
    the other from the world [w], each on the pool [pool_for] gives for its
    statement: every recorded result is what [execStatement] makes of what
    the call returned, and [w'] is the world after the last call. *)
Definition faithful `{Collaborators} (pool_for : Statement -> Pool) (evs : list Event)
    (w w' : World) : Prop :=
  let order := ex_stmt <$> executions evs in
  ex_result <$> executions evs
  = zip_with statement_result order (exec_seq pool_for order w).1
  /\ w' = (exec_seq pool_for order w).2.

(** The calls behind a run of [ExecLogicalSchema] that goes from the state
    [st] to the state [st'] and returns the schema [s] and the error
    [fatalErr].  [New] gave the workspace [ws], whose [ConnectionPool] gave
    [db] for the empty parameters and then [dbRemember] for the sql_mode
    ones.  Then [db.Exec] ran the CREATE statements, in the order [created]
    in which they finished, each on the pool [route] gives for it, and
    returned [errsC]; then it ran the ALTER statements in the order of their
    list, all on [db], and returned [errsA].  Then [IntrospectSchema] gave
    the schema, and [Cleanup] left the world of [st'].  Each call is made in
    the world the one before left. *)
Definition db_calls `{Collaborators} (ls : LogicalSchema) (opts : Options)
    (st st' : State) (s : Schema) (fatalErr : option error)
    (ws : Workspace) (db dbRemember : Pool)
    (created : list Statement) (errsC errsA : list (option error)) : Prop :=
  exists w0 w1 w2,
    let rc := exec_seq (route db dbRemember) created w2 in
    let ra := exec_seq (fun _ => db) (Alters ls) rc.2 in
    let i := IntrospectSchema ws ra.2 in
    let c := Cleanup ws i.1 in
    New (merge_charset ls opts) (world st) = (w0, (Some ws, None))
    /\ ConnectionPool ws "" w0 = (w1, inl db)
    /\ ConnectionPool ws "sql_mode=@@GLOBAL.sql_mode" w1 = (w2, inl dbRemember)
    /\ errsC = rc.1
    /\ errsA = ra.1
    /\ Schema_ s = i.2.1
    /\ fatalErr = match i.2.2 with None => c.2 | Some e => Some e end
    /\ world st' = c.1.

(** ** A small concrete world

    A server that records the statements it ran, with switches that make the
    workspace calls fail, and a set of running containers for the shutdown
    functions to stop. *)
Module Sim.

Record SimWorld := {
  executed : list (string * string);   (* (pool parameters, SQL), oldest first *)
  containers : list string;            (* running containers *)
  fail_pool : bool;
  fail_introspect : bool;
  fail_cleanup : bool;
  cleanups : nat                       (* calls to Cleanup so far *)
}.

#[global] Instance sim_universe : Universe := {|
  World := SimWorld;
  Pool := string;
  TengoSchema := list string;
  TengoInstance := unit;
  Any := string
|}.

Definition set_executed (l : list (string * string)) (w : SimWorld) : SimWorld :=
  {| executed := l; containers := containers w; fail_pool := fail_pool w;
     fail_introspect := fail_introspect w; fail_cleanup := fail_cleanup w;
     cleanups := cleanups w |}.

(** Statements beginning with "BAD" are syntax errors; "ADD INDEX" needs
    "ADD COLUMN" to have run before it. *)
Definition sim_exec (pool body : string) (w : SimWorld) : SimWorld * option error :=
  if String.prefix "BAD" body
  then (w, Some (errorString "Error 1064: You have an error in your SQL syntax"))
  else if String.eqb body "ADD INDEX" && negb (bool_decide ("ADD COLUMN" ∈ (executed w).*2))
  then (w, Some (errorString "Error 1072: Key column doesn't exist in table"))
  else (set_executed (executed w ++ [(pool, body)]) w, None).

Definition sim_workspace : Workspace := {|
  ConnectionPool := fun params w =>
    if fail_pool w then (w, inr (errorString "connection refused"))
    else (w, inl params);
  IntrospectSchema := fun w =>
    if fail_introspect w then (w, (None, Some (errorString "cannot read schema")))
    else (w, (Some ((executed w).*2), None));
  Cleanup := fun w =>
    ({| executed := executed w; containers := containers w; fail_pool := fail_pool w;
        fail_introspect := fail_introspect w; fail_cleanup := fail_cleanup w;
        cleanups := S (cleanups w) |},
     if fail_cleanup w then Some (errorString "cannot drop schema") else None)
|}.

#[global] Instance sim_collaborators : Collaborators := {|
  NewTempSchema := fun _ w => (w, (Some sim_workspace, None));
  NewLocalDocker := fun _ w => (w, (None, Some (errorString "docker is not running")));
  DB_Exec := sim_exec;
  IsSyntaxError := fun e => String.prefix "Error 1064" (Error e)
|}.

Definition world0 : SimWorld :=
  {| executed := []; containers := ["skeema-mysql-5.7"; "skeema-mysql-8.0"];
     fail_pool := false; fail_introspect := false; fail_cleanup := false;
     cleanups := 0 |}.

Definition world_failing (pool introspect cleanup : bool) : SimWorld :=
  {| executed := []; containers := []; fail_pool := pool;
     fail_introspect := introspect; fail_cleanup := cleanup; cleanups := 0 |}.

Definition options (ty : Z) (charset collation : string) : Options :=
  {| Type__ := ty; CleanupAction_ := CleanupActionDrop; Instance := Some ();
     Flavor := ""; ContainerName := ""; SchemaName := "_skeema_tmp";
     DefaultCharacterSet := charset; DefaultCollation := collation;
     DefaultConnParams := ""; RootPassword := ""; PrefabWorkspace := None;
     LockWaitTimeout := 30000000000 |}.

Definition stmt (ty : tengo.ObjectType) (name body : string) : Statement :=
  {| ObjectType := ty; ObjectName := name; Location := name +:+ ".sql:1:1"; Body := body |}.

(** The shutdown function of a container: it leaves the container alone, and
    stays registered, when the container is named among the arguments;
    otherwise it stops the container. *)
Definition stop_container (name : string) : ShutdownFunc := fun args w =>
  if bool_decide (name ∈ args) then (w, false)
  else ({| executed := executed w;
           containers := filter (fun c => c ≠ name) (containers w);
           fail_pool := fail_pool w; fail_introspect := fail_introspect w;
           fail_cleanup := fail_cleanup w; cleanups := cleanups w |}, true).

(** Inputs for the examples. *)
Definition registry_example : State :=
  {| world := world0;
     shutdownFuncs := [stop_container "skeema-mysql-5.7";
                       stop_container "skeema-mysql-8.0"];
     shutdownFuncMutex := false;
     maxOpen := fun _ => 0;
     trace := [] |}.

Definition schema_example : LogicalSchema :=
  {| Creates := [stmt tengo.ObjectTypeTable "a" "CREATE TABLE a";
                 stmt tengo.ObjectTypeFunc "f" "BAD FUNCTION f";
                 stmt tengo.ObjectTypeProc "p" "CREATE PROCEDURE p"];
     Alters := [stmt tengo.ObjectTypeTable "a" "ADD INDEX";
                stmt tengo.ObjectTypeTable "a" "ADD COLUMN"];
     CharSet := "utf8mb4";
     Collation := "" |}.

Definition options_example : Options := options 0 "latin1" "latin1_swedish_ci".

Definition schedule_example : list nat := [2; 5; 1; 0; 3]%nat.

Definition state_example : @State sim_universe := init_state world0.

Abbreviation run_example :=
  (ExecLogicalSchema schedule_example schema_example options_example state_example).

(** A server on which a statement fails or succeeds by its text alone. *)
Definition text_verdict (body : string) : option error :=
  if String.prefix "BAD" body
  then Some (errorString "Error 1064: You have an error in your SQL syntax")
  else None.

Definition independent_collaborators : Collaborators := {|
  NewTempSchema := fun _ w => (w, (Some sim_workspace, None));
  NewLocalDocker := fun _ w => (w, (None, Some (errorString "docker is not running")));
  DB_Exec := fun pool body w =>
    match text_verdict body with
    | Some e => (w, Some e)
    | None => (set_executed (executed w ++ [(pool, body)]) w, None)
    end;
  IsSyntaxError := fun e => String.prefix "Error 1064" (Error e)
|}.

Abbreviation independent_run1 :=
  (@ExecLogicalSchema sim_universe independent_collaborators
     schedule_example schema_example options_example state_example).

Abbreviation independent_run2 :=
  (@ExecLogicalSchema sim_universe independent_collaborators
     [] schema_example options_example state_example).

(** Flavors written vendor:version; the empty string is the unknown one. *)
#[global] Instance sim_flavors : Flavors := {|
  NewFlavor := fun s => s;
  Flavor_Known := fun s => negb (String.eqb s "");
  Flavor_String := fun s => if String.eqb s "" then "unknown:0.0" else s;
  Instance_Flavor := fun _ => "mysql:8.0"
|}.

Definition docker_dir : Dir :=
  {| Config_Get := fun k => if String.eqb k "temp-schema" then "_skeema_tmp" else "";
     Config_GetBool := fun _ => false;
     Config_GetEnum := fun k _ =>
       if String.eqb k "workspace" then ("docker", None) else ("destroy", None);
     InstanceDefaultParams := ("timeout=5s", None) |}.

(** A state in which the workspace refuses every connection. *)
Definition no_pool_state : @State sim_universe :=
  init_state (world_failing true false false).

Abbreviation no_pool_run :=
  (ExecLogicalSchema schedule_example schema_example options_example no_pool_state).

Definition unsupported_options : Options := options 7 "" "".

Definition prefab_options : Options := options 2 "" "".

End Sim.

End workspace.
(** * Properties of package applier *)

Module applier_spec.
Import applier.

(** ** Arithmetic of [int] *)

Lemma int_wrap_range z : is_int (int_wrap z).
Proof.
  unfold is_int, int_wrap, int_min, int_max.
  pose proof (Z.mod_pos_bound (z + 2 ^ 63) (2 ^ 64) ltac:(lia)). lia.
Qed.

Lemma int_wrap_id z : is_int z -> int_wrap z = z.
Proof.
  unfold is_int, int_wrap, int_min, int_max. intros Hz.
  rewrite Z.mod_small; lia.
Qed.

Lemma int_wrap_add_l a b : int_wrap (int_wrap a + b) = int_wrap (a + b).
Proof.
  unfold int_wrap.
  replace ((a + 2 ^ 63) mod 2 ^ 64 - 2 ^ 63 + b + 2 ^ 63)
    with ((a + 2 ^ 63) mod 2 ^ 64 + b) by lia.
  rewrite Zplus_mod_idemp_l. f_equal. f_equal. lia.
Qed.

Lemma int_wrap_add_r a b : int_wrap (a + int_wrap b) = int_wrap (a + b).
Proof. rewrite (Z.add_comm a), int_wrap_add_l. f_equal. lia. Qed.

Lemma int_add_comm a b : int_add a b = int_add b a.
Proof. unfold int_add. f_equal. lia. Qed.

Lemma int_add_assoc a b c : int_add (int_add a b) c = int_add a (int_add b c).
Proof.
  unfold int_add. rewrite int_wrap_add_l, int_wrap_add_r. f_equal. lia.
Qed.

(** ** SumResults *)

Lemma total_of_app f xs ys : total_of f (xs ++ ys) = total_of f xs + total_of f ys.
Proof.
  unfold total_of. induction xs as [|x xs IH]; csimpl; [lia|].
  rewrite IH. lia.
Qed.

Lemma total_of_perm f xs ys : xs ≡ₚ ys -> total_of f xs = total_of f ys.
Proof.
  unfold total_of. induction 1; csimpl; lia.
Qed.

Lemma existsb_perm {A} (f : A -> bool) xs ys : xs ≡ₚ ys -> existsb f xs = existsb f ys.
Proof.
  induction 1 as [|x xs ys _ IH|x y xs|xs ys zs _ IH1 _ IH2]; simpl.
  - reflexivity.
  - now rewrite IH.
  - destruct (f x), (f y); reflexivity.
  - congruence.
Qed.

Lemma add_Result_wf a b : wf_Result (add_Result a b).
Proof. split; apply int_wrap_range. Qed.

(** The loop in closed form, from any well-formed accumulator. *)
Lemma fold_add_Result xs : forall acc,
  wf_Result acc ->
  fold_left add_Result xs acc =
    {| Differences := Differences acc || existsb Differences xs;
       SkipCount := int_wrap (SkipCount acc + total_of SkipCount xs);
       UnsupportedCount := int_wrap (UnsupportedCount acc + total_of UnsupportedCount xs) |}.
Proof.
  induction xs as [|x xs IH]; intros acc [Hs Hu].
  - cbn [fold_left existsb]. unfold total_of. csimpl.
    rewrite !Z.add_0_r, !int_wrap_id by assumption.
    rewrite orb_false_r. now destruct acc.
  - cbn [fold_left existsb]. rewrite IH by apply add_Result_wf.
    unfold total_of. csimpl. unfold add_Result, int_add.
    cbn [Differences SkipCount UnsupportedCount].
    rewrite !int_wrap_add_l, !Z.add_assoc, orb_assoc. reflexivity.
Qed.

Lemma zero_Result_wf : wf_Result zero_Result.
Proof. split; unfold is_int, int_min, int_max; simpl; lia. Qed.

Lemma SumResults_closed xs :
  SumResults xs =
    {| Differences := existsb Differences xs;
       SkipCount := int_wrap (total_of SkipCount xs);
       UnsupportedCount := int_wrap (total_of UnsupportedCount xs) |}.
Proof. unfold SumResults. now rewrite fold_add_Result by apply zero_Result_wf. Qed.

Lemma add_Result_assoc a b c :
  add_Result (add_Result a b) c = add_Result a (add_Result b c).
Proof.
  unfold add_Result. simpl. f_equal.
  - now rewrite orb_assoc.
  - apply int_add_assoc.
  - apply int_add_assoc.
Qed.

Lemma add_Result_comm a b : add_Result a b = add_Result b a.
Proof.
  unfold add_Result. f_equal; [apply orb_comm | apply int_add_comm ..].
Qed.

Lemma add_zero_Result r : wf_Result r -> add_Result zero_Result r = r.
Proof.
  intros [Hs Hu]. destruct r as [d s u]. unfold add_Result, int_add. simpl in *.
  now rewrite !int_wrap_id.
Qed.

(** C8.  [SumResults] ors the [Differences] flags and adds the two counters
    (as Go [int]s).  Summing a concatenation is combining the two partial
    sums, the combination is associative and commutative, permuting the list
    does not change the sum, and the zero [Result] is neutral: as a list
    element always, and as an operand of the combination for every [Result]
    whose counters are [int]s. *)
Theorem SumResults_assoc_comm (xs ys : list Result) (a b c : Result) :
  Differences (SumResults xs) = existsb Differences xs
  /\ SkipCount (SumResults xs) = int_wrap (total_of SkipCount xs)
  /\ UnsupportedCount (SumResults xs) = int_wrap (total_of UnsupportedCount xs)
  /\ SumResults (xs ++ ys) = add_Result (SumResults xs) (SumResults ys)
  /\ add_Result (add_Result a b) c = add_Result a (add_Result b c)
  /\ add_Result a b = add_Result b a
  /\ (xs ≡ₚ ys -> SumResults xs = SumResults ys)
  /\ SumResults [] = zero_Result
  /\ SumResults (xs ++ zero_Result :: ys) = SumResults (xs ++ ys)
  /\ (wf_Result a ->
      add_Result zero_Result a = a /\ add_Result a zero_Result = a /\ SumResults [a] = a).
Proof.
  repeat split.
  - now rewrite SumResults_closed.
  - now rewrite SumResults_closed.
  - now rewrite SumResults_closed.
  - rewrite !SumResults_closed. unfold add_Result, int_add. simpl.
    rewrite existsb_app, !total_of_app, !int_wrap_add_l, !int_wrap_add_r.
    reflexivity.
  - apply add_Result_assoc.
  - apply add_Result_comm.
  - intros Hp. rewrite !SumResults_closed.
    now rewrite (existsb_perm _ _ _ Hp), !(total_of_perm _ _ _ Hp).
  - rewrite !SumResults_closed. rewrite !existsb_app, !total_of_app. simpl.
    unfold total_of at 2 4. simpl. fold (total_of SkipCount ys).
    fold (total_of UnsupportedCount ys). reflexivity.
  - now apply add_zero_Result.
  - rewrite add_Result_comm. now apply add_zero_Result.
  - unfold SumResults. simpl. now apply add_zero_Result.
Qed.

Lemma SumResults_assoc_comm_witness :
  [Sim.r1; Sim.r2; Sim.r3] ≡ₚ [Sim.r3; Sim.r1; Sim.r2]
  /\ wf_Result Sim.r2
  /\ SumResults [Sim.r1; Sim.r2; Sim.r3] = SumResults [Sim.r3; Sim.r1; Sim.r2]
  /\ SumResults [Sim.r2] = Sim.r2.
Proof.
  pose proof (SumResults_assoc_comm [Sim.r1; Sim.r2; Sim.r3] [Sim.r3; Sim.r1; Sim.r2] Sim.r2 Sim.r1 Sim.r3) as H.
  destruct H as (_ & _ & _ & _ & _ & _ & Hperm & _ & _ & Hid).
  assert (Hp : [Sim.r1; Sim.r2; Sim.r3] ≡ₚ [Sim.r3; Sim.r1; Sim.r2]).
  { change [Sim.r3; Sim.r1; Sim.r2] with ([Sim.r3] ++ [Sim.r1; Sim.r2]).
    change [Sim.r1; Sim.r2; Sim.r3] with ([Sim.r1; Sim.r2] ++ [Sim.r3]). apply Permutation_app_comm. }
  assert (Hw : wf_Result Sim.r2).
  { unfold wf_Result, is_int, Sim.r2, int_min, int_max; simpl; lia. }
  split; [exact Hp|]. split; [exact Hw|].
  split; [exact (Hperm Hp) | exact (proj2 (proj2 (Hid Hw)))].
Defined.

(** ** Worker: when the result is sent *)

Section WorkerSends.
Context `{C : Collaborators}.

Lemma tidy_ret {A} (a : A) : tidy (mret a).
Proof. intros st. exists []. simpl. now rewrite app_nil_r. Qed.

Lemma tidy_emit e : quiet e = true -> tidy (emit e).
Proof. intros He st. exists [e]. simpl. now rewrite He. Qed.

Lemma tidy_log lvl f args : tidy (log lvl f args).
Proof. now apply tidy_emit. Qed.

Lemma tidy_io {A} (call : World -> World * A) : tidy (io call).
Proof.
  intros st. exists []. unfold io. destruct (call (world st)). simpl.
  now rewrite app_nil_r.
Qed.

Lemma tidy_update f : tidy (update_result f).
Proof. intros st. exists []. simpl. now rewrite app_nil_r. Qed.

Lemma tidy_get_world : tidy get_world.
Proof. intros st. exists []. simpl. now rewrite app_nil_r. Qed.

Lemma tidy_exit {A} (e : Exit) : e <> Return None -> tidy (exit_with (A:=A) e).
Proof.
  intros He st. exists []. simpl. rewrite app_nil_r. split; [reflexivity|].
  destruct e as [|[?|]]; try reflexivity. now destruct He.
Qed.

Lemma tidy_bind {A B} (m : M A) (k : A -> M B) :
  tidy m -> (forall a, tidy (k a)) -> tidy (m ≫= k).
Proof.
  intros Hm Hk st. unfold mbind, M_bind.
  destruct (Hm st) as (evs1 & Htr1 & H1).
  destruct (m st) as [st1 [a|e]]; simpl in *.
  - destruct (Hk a st1) as (evs2 & Htr2 & H2).
    exists (evs1 ++ evs2). rewrite Htr2, Htr1, app_assoc. split; [reflexivity|].
    destruct (k a st1) as [st2 [b|[|[?|]]]]; simpl in *;
      try (rewrite forallb_app, H1, H2; reflexivity).
    destruct H2 as (evs' & t & -> & Hq).
    exists (evs1 ++ evs'), t. rewrite app_assoc, forallb_app, H1, Hq. easy.
  - exists evs1. easy.
Qed.

Lemma tidy_when b m : tidy m -> tidy (when b m).
Proof. destruct b; [easy|]. intros _. apply tidy_ret. Qed.

Lemma tidy_for_each {A} (f : A -> M unit) l : (forall a, tidy (f a)) -> tidy (for_each f l).
Proof.
  intros Hf. induction l as [|a l IH]; simpl.
  - apply tidy_ret.
  - apply tidy_bind; [apply Hf | intros _; exact IH].
Qed.

Ltac tidy_step :=
  first
    [ apply tidy_ret | apply tidy_log | apply tidy_io | apply tidy_update
    | apply tidy_get_world
    | apply tidy_emit; reflexivity
    | apply tidy_exit; discriminate
    | apply tidy_when
    | apply tidy_for_each; intros
    | apply tidy_bind; [|intros]
    | match goal with
      | |- tidy (match ?x with _ => _ end) => destruct x
      | |- tidy (let (_, _) := ?x in _) => destruct x
      end ].

Lemma tidy_DebugLogUnsupportedDiff e : tidy (DebugLogUnsupportedDiff e).
Proof. unfold DebugLogUnsupportedDiff. repeat tidy_step. Qed.

Lemma tidy_build_ddls t mods all rest : forall ddls keys n,
  tidy (build_ddls t mods all rest ddls keys n).
Proof.
  induction rest as [|d rest IH]; intros ddls keys n; simpl.
  - apply tidy_ret.
  - apply tidy_bind; [now apply tidy_emit | intros _].
    destruct (NewDDLStatement d mods t) as [[ddl|] [e|]];
      try apply IH;
      (apply tidy_bind; [apply tidy_update | intros _]);
      try apply IH;
      destruct e;
      repeat first [apply IH | apply tidy_DebugLogUnsupportedDiff | tidy_step].
Qed.

Lemma tidy_execute_ddls t dryRun n rest : forall i,
  tidy (execute_ddls t dryRun n i rest).
Proof.
  induction rest as [|d rest IH]; intros i; simpl.
  - apply tidy_ret.
  - apply tidy_bind; [now apply tidy_emit | intros _].
    destruct dryRun; [apply IH|].
    apply tidy_bind; [apply tidy_io | intros err].
    apply tidy_bind; [now apply tidy_emit | intros _].
    destruct err; [repeat tidy_step | apply IH].
Qed.

(** The post-target check is the one place that may [return nil]. *)
Lemma tidy_cancel_check t :
  tidy (w ← get_world; emit (EvCtxDone t (ctx_Done w));; when (ctx_Done w) (exit_with (Return None))).
Proof.
  intros st. unfold mbind, M_bind, get_world, emit, when, exit_with. simpl.
  destruct (ctx_Done (world st)); simpl.
  - exists [EvCtxDone t true]. split; [reflexivity|]. now exists [], t.
  - exists [EvCtxDone t false]. easy.
Qed.

Lemma tidy_process_target t : tidy (process_target t).
Proof.
  unfold process_target.
  repeat first
    [ apply tidy_cancel_check | apply tidy_build_ddls | apply tidy_execute_ddls
    | tidy_step ].
Qed.

Lemma tidy_targets_in_group tg : tidy (targets_in_group tg).
Proof.
  induction tg as [|t tg IH]; simpl.
  - apply tidy_ret.
  - intros st. destruct (tidy_process_target t st) as (evs1 & Htr1 & H1).
    destruct (process_target t st) as [st1 [u|[|e]]]; simpl in *.
    + destruct (IH st1) as (evs2 & Htr2 & H2).
      exists (evs1 ++ evs2). rewrite Htr2, Htr1, app_assoc. split; [reflexivity|].
      destruct (targets_in_group tg st1) as [st2 [b|[|[?|]]]]; simpl in *;
        try (rewrite forallb_app, H1, H2; reflexivity).
      destruct H2 as (evs' & t' & -> & Hq).
      exists (evs1 ++ evs'), t'. rewrite app_assoc, forallb_app, H1, Hq. easy.
    + destruct (IH st1) as (evs2 & Htr2 & H2).
      exists (evs1 ++ evs2). rewrite Htr2, Htr1, app_assoc. split; [reflexivity|].
      destruct (targets_in_group tg st1) as [st2 [b|[|[?|]]]]; simpl in *;
        try (rewrite forallb_app, H1, H2; reflexivity).
      destruct H2 as (evs' & t' & -> & Hq).
      exists (evs1 ++ evs'), t'. rewrite app_assoc, forallb_app, H1, Hq. easy.
    + exists evs1. easy.
Qed.

Lemma quiet_sends evs : forallb quiet evs = true -> sends evs = [].
Proof.
  induction evs as [|e evs IH]; [easy|]. simpl. intros [He Hq]%andb_true_iff.
  unfold sends in *. simpl. destruct e; try discriminate; now apply IH.
Qed.

Lemma quiet_no_cancel evs :
  forallb quiet evs = true -> existsb cancel_observed evs = false.
Proof.
  induction evs as [|e evs IH]; [easy|]. simpl. intros [He Hq]%andb_true_iff.
  rewrite (IH Hq), orb_false_r. unfold quiet in He.
  now destruct (cancel_observed e), (is_send e), (is_chan_closed e).
Qed.

Lemma quiet_not_closed evs :
  forallb quiet evs = true -> existsb is_chan_closed evs = false.
Proof.
  induction evs as [|e evs IH]; [easy|]. simpl. intros [He Hq]%andb_true_iff.
  rewrite (IH Hq), orb_false_r. unfold quiet in He.
  now destruct (cancel_observed e), (is_send e), (is_chan_closed e).
Qed.

Lemma sends_app tr1 tr2 : sends (tr1 ++ tr2) = sends tr1 ++ sends tr2.
Proof. apply omap_app. Qed.

Lemma Worker_unfold (targetGroups : list TargetGroup) (w : World) :
  Worker targetGroups w =
    match for_each targets_in_group targetGroups
            {| world := w; result := zero_Result; trace := [] |} with
    | (st, inl _) =>
      ({| world := world st; result := result st;
          trace := trace st ++ [EvChanClosed; EvSend (result st)] |}, None)
    | (st, inr (Return e)) => (st, e)
    | (st, inr ContinueTargetsInGroup) => (st, None)
    end.
Proof.
  unfold Worker, mbind, M_bind.
  destruct (for_each targets_in_group targetGroups _) as [st [u|[|e]]]; try reflexivity.
  simpl. now rewrite <- app_assoc.
Qed.

(** The three ways a run of [Worker] can end. *)
Lemma Worker_cases (targetGroups : list TargetGroup) (w : World) :
  let st := (Worker targetGroups w).1 in
  let err := (Worker targetGroups w).2 in
  (exists tr, trace st = tr ++ [EvChanClosed; EvSend (result st)]
              /\ forallb quiet tr = true /\ err = None)
  \/ (exists tr t, trace st = tr ++ [EvCtxDone t true]
                   /\ forallb quiet tr = true /\ err = None)
  \/ forallb quiet (trace st) = true.
Proof.
  intros st err. subst st err. rewrite Worker_unfold.
  set (st0 := {| world := w; result := zero_Result; trace := [] |}).
  pose proof (tidy_for_each targets_in_group targetGroups tidy_targets_in_group st0)
    as (evs & Htr & Hev).
  destruct (for_each targets_in_group targetGroups st0) as [st1 [u|[|[e|]]]];
    simpl in *.
  - left. exists evs. now rewrite Htr.
  - right. right. now rewrite Htr.
  - right. right. now rewrite Htr.
  - right. left. destruct Hev as (evs' & t & -> & Hq). exists evs', t. now rewrite Htr.
Qed.

End WorkerSends.

(** ** Worker: a target whose live schema cannot be fetched *)

(** C1, evaluated.  The first target's instance cannot be introspected.
    [Worker] counts one skip and logs the error, and then goes on with the
    same target: it diffs the desired schema against a nil schema, renders
    two statements, prints them and executes them; only then does it turn to
    the second target. *)
Theorem Worker_fetch_failure_target_not_skipped :
  let st := (Worker Sim.unreachable_run (Sim.world0 10)).1 in
  event_kind <$> trace st =
    ["log info"; "fetch: failed"; "log error"; "diff against nil schema";
     "render"; "render"; "print"; "execute: ok"; "print"; "execute: ok";
     "log info"; "ctx: live";
     "log info"; "fetch: ok"; "diff"; "render"; "print"; "execute: ok";
     "log info"; "ctx: live"; "channel closed"; "send"]
  /\ result st = {| Differences := true; SkipCount := 1; UnsupportedCount := 0 |}
  /\ Sim.executed (world st) = ["CREATE TABLE a"; "CREATE TABLE b"; "CREATE TABLE c"].
Proof. vm_compute. repeat split. Qed.

(** ** Worker: a target rejected by the linter *)

(** C4, evaluated.  The first target has three object diffs: one needs no
    statement, one yields a statement, one is unsupported.  The linter, run
    on the one key of the one produced statement, reports an error.
    [Worker] prints and executes nothing for the target and moves on to the
    second target, but it has added 3, the number of object diffs, to
    [SkipCount], not 1, the number of produced statements. *)
Theorem Worker_lint_skip_counts_object_diffs :
  let st := (Worker Sim.lint_rejected_run (Sim.world0 10)).1 in
  event_kind <$> trace st =
    ["log info"; "fetch: ok"; "diff"; "render"; "render"; "render";
     "log warning"; "log debug"; "log debug"; "lint 1"; "log warning";
     "log info"; "fetch: ok"; "diff"; "render"; "print"; "execute: ok";
     "log info"; "ctx: live"; "channel closed"; "send"]
  /\ result st = {| Differences := true; SkipCount := 3; UnsupportedCount := 1 |}
  /\ Sim.executed (world st) = ["CREATE TABLE c"].
Proof. vm_compute. repeat split. Qed.

(** ** Worker: the shape of a run *)

Section WorkerShape.
Context `{C : Collaborators}.

Lemma yields_weaken {A} (J J' : list Event -> A + Exit -> Prop) (m : M A) :
  (forall evs r, J evs r -> J' evs r) -> yields J m -> yields J' m.
Proof.
  intros HJ Hm st. destruct (Hm st) as (evs & Htr & HJ1). exists evs. eauto.
Qed.

Lemma yields_bind {A B} (J1 : list Event -> A + Exit -> Prop)
    (J2 : A -> list Event -> B + Exit -> Prop) (J3 : list Event -> B + Exit -> Prop)
    (m : M A) (k : A -> M B) :
  yields J1 m -> (forall a, yields (J2 a) (k a)) ->
  (forall evs1 a evs2 r, J1 evs1 (inl a) -> J2 a evs2 r -> J3 (evs1 ++ evs2) r) ->
  (forall evs1 e, J1 evs1 (inr e) -> J3 evs1 (inr e)) ->
  yields J3 (m ≫= k).
Proof.
  intros Hm Hk H3 He st. unfold mbind, M_bind.
  destruct (Hm st) as (evs1 & Htr1 & H1).
  destruct (m st) as [st1 [a|e]]; simpl in *.
  - destruct (Hk a st1) as (evs2 & Htr2 & H2).
    exists (evs1 ++ evs2). rewrite Htr2, Htr1, app_assoc. split; [reflexivity|].
    eapply H3; eauto.
  - exists evs1. split; [easy|]. now apply He.
Qed.

Lemma yields_emit e : yields (fun evs r => evs = [e] /\ r = inl tt) (emit e).
Proof. intros st. now exists [e]. Qed.

Lemma yields_io {A} (call : World -> World * A) :
  yields (fun evs r => evs = [] /\ exists a, r = inl a) (io call).
Proof.
  intros st. exists []. unfold io. destruct (call (world st)) as [w a]. simpl.
  rewrite app_nil_r. eauto.
Qed.

(** *** Steps that add plain events only *)

Lemma plainly_ret {A} t (a : A) : plainly t (mret a).
Proof. intros st. exists []. simpl. now rewrite app_nil_r. Qed.

Lemma plainly_emit t e : plain e = true -> plainly t (emit e).
Proof. intros He st. exists [e]. simpl. now rewrite He. Qed.

Lemma plainly_log t lvl f args : plainly t (log lvl f args).
Proof. now apply plainly_emit. Qed.

Lemma plainly_io {A} t (call : World -> World * A) : plainly t (io call).
Proof.
  intros st. exists []. unfold io. destruct (call (world st)). simpl.
  now rewrite app_nil_r.
Qed.

Lemma plainly_update t f : plainly t (update_result f).
Proof. intros st. exists []. simpl. now rewrite app_nil_r. Qed.

Lemma plainly_exit {A} t (e : Exit) : exit_ok (A:=A) t (inr e) -> plainly t (exit_with (A:=A) e).
Proof. intros He st. exists []. simpl. now rewrite app_nil_r. Qed.

Lemma plainly_bind {A B} t (m : M A) (k : A -> M B) :
  plainly t m -> (forall a, plainly t (k a)) -> plainly t (m ≫= k).
Proof.
  intros Hm Hk.
  apply (yields_bind _ (fun _ evs r => forallb plain evs = true /\ exit_ok t r) _ _ _ Hm Hk).
  - intros evs1 a evs2 r [H1 _] [H2 Hr]. now rewrite forallb_app, H1, H2.
  - intros evs1 e [H1 He]. easy.
Qed.

Lemma plainly_when t b m : plainly t m -> plainly t (when b m).
Proof. destruct b; [easy|]. intros _. apply plainly_ret. Qed.

Lemma plainly_for_each {A} t (f : A -> M unit) l :
  (forall a, plainly t (f a)) -> plainly t (for_each f l).
Proof.
  intros Hf. induction l as [|a l IH]; simpl.
  - apply plainly_ret.
  - apply plainly_bind; [apply Hf | intros _; exact IH].
Qed.

Ltac plainly_step :=
  first
    [ apply plainly_ret | apply plainly_log | apply plainly_io | apply plainly_update
    | apply plainly_emit; reflexivity
    | apply plainly_exit; exact I
    | apply plainly_when
    | apply plainly_for_each; intros
    | apply plainly_bind; [|intros]
    | match goal with
      | |- plainly _ (match ?x with _ => _ end) => destruct x
      | |- plainly _ (let (_, _) := ?x in _) => destruct x
      end ].

Lemma plainly_DebugLogUnsupportedDiff t e : plainly t (DebugLogUnsupportedDiff e).
Proof. unfold DebugLogUnsupportedDiff. repeat plainly_step. Qed.

Lemma plainly_build_ddls t mods all rest : forall ddls keys n,
  plainly t (build_ddls t mods all rest ddls keys n).
Proof.
  induction rest as [|d rest IH]; intros ddls keys n; simpl.
  - apply plainly_ret.
  - apply plainly_bind; [now apply plainly_emit | intros _].
    destruct (NewDDLStatement d mods t) as [[ddl|] [e|]];
      try apply IH;
      (apply plainly_bind; [apply plainly_update | intros _]);
      try apply IH;
      destruct e;
      repeat first [apply IH | apply plainly_DebugLogUnsupportedDiff | plainly_step].
Qed.

(** The verification step leaves the loop only with the error of
    [VerifyDiff]. *)
Lemma plainly_verify t diff :
  plainly t
    (err ← io (VerifyDiff diff t);
     emit (EvVerifyDiff t);;
     match err with
     | Some e => exit_with (Return (Some e))
     | None => mret tt
     end).
Proof.
  intros st. unfold mbind, M_bind, io, emit, exit_with.
  destruct (VerifyDiff diff t (world st)) as [w [e|]] eqn:Hv; simpl;
    exists [EvVerifyDiff t]; (split; [reflexivity|]); (split; [reflexivity|]).
  - left. exists diff, (world st). now rewrite Hv.
  - exact I.
Qed.

(** *** The loop over the statements *)

Lemma exec_shape_nil t dryRun : exec_shape t dryRun [].
Proof.
  exists [], []. repeat split; try reflexivity.
  intros before d after Heq. now destruct before.
Qed.

Lemma exec_shape_cons_dry t d evs :
  exec_shape t true evs -> exec_shape t true (EvPrintDDL t d :: evs).
Proof.
  intros (att & logs & -> & Hl & Hf & Hd).
  exists ((d, false) :: att), logs. repeat split; easy.
Qed.

Lemma exec_shape_cons_ok t d evs :
  exec_shape t false evs ->
  exec_shape t false (EvPrintDDL t d :: EvExecute t d false :: evs).
Proof.
  intros (att & logs & -> & Hl & Hf & Hd).
  exists ((d, false) :: att), logs. repeat split; try easy.
  intros [|a before] d' after Heq Hdry; [discriminate|].
  injection Heq as _ Heq. now apply (Hf _ _ _ Heq).
Qed.

Lemma exec_shape_failed t d logs :
  forallb plain logs = true ->
  exec_shape t false (EvPrintDDL t d :: EvExecute t d true :: logs).
Proof.
  intros Hl. exists [(d, true)], logs. repeat split; try easy.
  intros [|a [|b before]] d' after Heq _; try discriminate.
  now injection Heq as _ <-.
Qed.

Lemma execute_ddls_shape t dryRun n rest : forall i,
  yields (fun evs r => exec_shape t dryRun evs /\ r = inl tt)
    (execute_ddls t dryRun n i rest).
Proof.
  induction rest as [|d rest IH]; intros i st.
  - exists []. simpl. rewrite app_nil_r. split; [reflexivity|]. split; [|reflexivity].
    apply exec_shape_nil.
  - cbn [execute_ddls]. destruct dryRun.
    + unfold mbind, M_bind, emit. cbn [fst snd].
      set (st1 := {| world := world st; result := result st;
                     trace := trace st ++ [EvPrintDDL t d] |}).
      destruct (IH (i + 1) st1) as (evs & Htr & Hs & Hr).
      exists (EvPrintDDL t d :: evs).
      rewrite Htr. simpl. rewrite <- app_assoc. split; [reflexivity|].
      split; [|exact Hr]. now apply exec_shape_cons_dry.
    + unfold mbind, M_bind, emit, io, log, update_result, when.
      cbn [fst snd world result trace].
      destruct (DDL_Execute d (world st)) as [w [e|]] eqn:Hx;
        cbn [fst snd world result trace].
      * rewrite (bool_decide_eq_true_2 (is_Some (Some e))) by eauto.
        destruct (1 <? int_sub n i); cbn [fst snd world result trace emit mret M_ret];
          repeat rewrite <- app_assoc; simpl;
          (eexists; split; [reflexivity|]); (split; [|reflexivity]);
          now apply exec_shape_failed.
      * rewrite (bool_decide_eq_false_2 (is_Some None)) by (intros [? ?]; discriminate).
        set (st1 := {| world := w; result := result st;
                       trace := (trace st ++ [EvPrintDDL t d]) ++ [EvExecute t d false] |}).
        destruct (IH (i + 1) st1) as (evs & Htr & Hs & Hr).
        exists (EvPrintDDL t d :: EvExecute t d false :: evs).
        rewrite Htr. simpl. repeat rewrite <- app_assoc. split; [reflexivity|].
        split; [|exact Hr]. now apply exec_shape_cons_ok.
Qed.

(** *** One pass of the loop body *)

Lemma silent_log lvl f args : silent (log lvl f args).
Proof. intros st. exists [EvLog lvl f args]. simpl. eauto. Qed.

Lemma silent_when_log b lvl f args : silent (when b (log lvl f args)).
Proof.
  destruct b; [apply silent_log|]. intros st. exists []. simpl.
  rewrite app_nil_r. eauto.
Qed.

Lemma block_exit_app {A} t evs1 evs2 (r : A + Exit) :
  block_exit t evs2 r -> block_exit t (evs1 ++ evs2) r.
Proof.
  destruct r as [a|[|[e|]]]; simpl; try easy.
  intros Hl. now rewrite last_app, Hl.
Qed.

Lemma block_after_silent {A} t (m : M A) (k : A -> M unit) :
  silent m ->
  (forall a, yields (fun evs r => target_block t evs /\ block_exit t evs r) (k a)) ->
  yields (fun evs r => target_block t evs /\ block_exit t evs r) (m ≫= k).
Proof.
  intros Hm Hk.
  apply (yields_bind _ (fun _ evs r => target_block t evs /\ block_exit t evs r) _ _ _ Hm Hk).
  - intros evs1 a evs2 r [H1 _] [(pre & failed & tl & -> & Hpre & Htl) Hr].
    split; [|now apply block_exit_app].
    exists (evs1 ++ pre), failed, tl. rewrite <- app_assoc, forallb_app, H1, Hpre. easy.
  - intros evs1 e [_ [a Ha]]. discriminate.
Qed.

Lemma tail_after_plain {A} t (m : M A) (k : A -> M unit) :
  plainly t m ->
  (forall a, yields (fun evs r => tail_shape t evs /\ block_exit t evs r) (k a)) ->
  yields (fun evs r => tail_shape t evs /\ block_exit t evs r) (m ≫= k).
Proof.
  intros Hm Hk.
  apply (yields_bind _ (fun _ evs r => tail_shape t evs /\ block_exit t evs r) _ _ _ Hm Hk).
  - intros evs1 a evs2 r [H1 _] [(mid & ex & post & -> & Hmid & Hpost & Hex) Hr].
    split; [|now apply block_exit_app].
    exists (evs1 ++ mid), ex, post. rewrite <- app_assoc, forallb_app, H1, Hmid. easy.
  - intros evs1 e [H1 He]. split.
    + exists evs1, [], []. rewrite !app_nil_r. repeat split; try easy. now left.
    + now destruct e as [|[?|]].
Qed.

Lemma tail_exit t e :
  fatal_for t e ->
  yields (fun evs r => tail_shape t evs /\ block_exit t evs r)
    (exit_with (A:=unit) (Return (Some e))).
Proof.
  intros He st. exists []. simpl. rewrite app_nil_r. split; [reflexivity|].
  split; [|exact He]. exists [], [], []. repeat split; try easy. now left.
Qed.

Lemma block_of_fetch t failed (k : M unit) :
  yields (fun evs r => tail_shape t evs /\ block_exit t evs r) k ->
  yields (fun evs r => target_block t evs /\ block_exit t evs r)
    (emit (EvSchemaFromInstance t failed);; k).
Proof.
  intros Hk.
  apply (yields_bind _ (fun _ evs r => tail_shape t evs /\ block_exit t evs r) _ _ _
           (yields_emit _) (fun _ => Hk)).
  - intros evs1 a evs2 r [-> _] [Htl Hr].
    split; [|now apply block_exit_app]. now exists [], failed, evs2.
  - intros evs1 e [_ He]. discriminate.
Qed.

(** A step after which the loop body goes on only if [P] holds. *)
Lemma gate_after_plain {A B} t (P : Prop) (m : M A) (k : A -> M B) :
  plainly t m ->
  (forall a, yields (fun evs r =>
     forallb plain evs = true /\ ((exists b, r = inl b) -> P) /\ exit_ok t r) (k a)) ->
  yields (fun evs r =>
     forallb plain evs = true /\ ((exists b, r = inl b) -> P) /\ exit_ok t r) (m ≫= k).
Proof.
  intros Hm Hk.
  apply (yields_bind _ (fun _ evs r =>
     forallb plain evs = true /\ ((exists b, r = inl b) -> P) /\ exit_ok t r) _ _ _ Hm Hk).
  - intros evs1 a evs2 r [H1 _] (H2 & HP & Hr). now rewrite forallb_app, H1, H2.
  - intros evs1 e [H1 He]. repeat split; try easy. intros [b Hb]. discriminate.
Qed.

(** The cancellation check that ends the loop body. *)
Lemma cancel_check_shape t :
  yields (fun evs r =>
      forallb plain evs = true
      /\ match r with
         | inl _ => True
         | inr (Return None) => last evs = Some (EvCtxDone t true)
         | inr _ => False
         end)
    (w ← get_world; emit (EvCtxDone t (ctx_Done w));; when (ctx_Done w) (exit_with (Return None))).
Proof.
  intros st. unfold mbind, M_bind, get_world, emit, when, exit_with. simpl.
  destruct (ctx_Done (world st)); simpl; eexists; (split; [reflexivity|]); easy.
Qed.

Lemma process_target_block t :
  yields (fun evs r => target_block t evs /\ block_exit t evs r) (process_target t).
Proof.
  unfold process_target.
  apply block_after_silent; [destruct (GetBool _ "dry-run"); apply silent_log | intros _].
  apply block_after_silent; [apply silent_when_log | intros _].
  apply (yields_bind _ (fun _ evs r => target_block t evs /\ block_exit t evs r) _ _ _
           (yields_io _)).
  2: { intros evs1 a evs2 r [-> _] Hb. exact Hb. }
  2: { intros evs1 e [_ [a Ha]]. discriminate. }
  intros [schemaFromInstance err].
  apply block_of_fetch.
  apply tail_after_plain; [repeat plainly_step | intros _].
  apply tail_after_plain; [repeat plainly_step | intros _].
  apply tail_after_plain; [apply plainly_when, plainly_verify | intros _].
  destruct (StatementModifiersForDir (Dir_ t)) as [mods [e|]] eqn:Hmods.
  { apply tail_exit. right. left. exists e. now rewrite Hmods. }
  destruct (linter_OptionsForDir (Dir_ t)) as [lintOpts [e|]] eqn:Hlint.
  { apply tail_exit. right. right. exists e. now rewrite Hlint. }
  apply tail_after_plain; [apply plainly_build_ddls | intros [[ddls keys] targetStmtCount]].
  apply (yields_bind
           (fun evs r => forallb plain evs = true
                         /\ ((exists b, r = inl b) -> lint_cleared t) /\ exit_ok t r)
           (fun _ evs r =>
              (exists ex post, evs = ex ++ post /\ forallb plain post = true
                 /\ exec_shape t (GetBool (Config_ (Dir_ t)) "dry-run") ex)
              /\ block_exit t evs r)).
  - (* the linter *)
    destruct (GetBool (Config_ (Dir_ t)) "lint") eqn:Hl; simpl when.
    + apply gate_after_plain; [repeat plainly_step | intros _].
      apply gate_after_plain; [repeat plainly_step | intros _].
      destruct (0 <? ErrorCount _) eqn:Herrs; simpl when.
      * intros st. unfold mbind, M_bind, update_result, log, emit, exit_with. simpl.
        eexists. split; [reflexivity|]. repeat split. intros [b Hb]. discriminate.
      * intros st. exists []. simpl. rewrite app_nil_r. repeat split.
        intros _ _. exists keys. rewrite Hlint. simpl. now apply Z.ltb_ge.
    + intros st. exists []. simpl. rewrite app_nil_r. repeat split.
      intros _ Hl'. congruence.
  - (* the statements, the closing log entry and the cancellation check *)
    intros _.
    apply (yields_bind _
             (fun _ evs r => forallb plain evs = true
                /\ match r with
                   | inl _ => True
                   | inr (Return None) => last evs = Some (EvCtxDone t true)
                   | inr _ => False
                   end) _ _ _ (execute_ddls_shape _ _ _ _ _)).
    + intros _.
      apply (yields_bind (fun evs r => forallb plain evs = true /\ exists a, r = inl a)
               (fun _ evs r => forallb plain evs = true
                  /\ match r with
                     | inl _ => True
                     | inr (Return None) => last evs = Some (EvCtxDone t true)
                     | inr _ => False
                     end)).
      * destruct (targetStmtCount =? 0); apply silent_log.
      * intros _. apply cancel_check_shape.
      * intros evs1 a evs2 r [H1 _] [H2 Hr]. rewrite forallb_app, H1, H2.
        split; [reflexivity|]. destruct r as [|[|[?|]]]; try easy.
        now rewrite last_app, Hr.
      * intros evs1 e [_ [a Ha]]. discriminate.
    + intros evs1 a evs2 r [Hex _] [Hpost Hr]. split; [now exists evs1, evs2|].
      destruct r as [|[|[?|]]]; simpl; try easy. now rewrite last_app, Hr.
    + intros evs1 e [_ He]. discriminate.
  - intros evs1 a evs2 r (H1 & Hc & _) [(ex & post & -> & Hpost & Hex) Hr].
    split; [|now apply block_exit_app].
    exists evs1, ex, post. repeat split; try easy. right. split; [eauto | exact Hex].
  - intros evs1 e (H1 & _ & He). split.
    + exists evs1, [], []. rewrite !app_nil_r. repeat split; try easy. now left.
    + now destruct e as [|[?|]].
Qed.

(** *** The loops over the targets and the groups *)

Lemma blocks_nil : blocks [] [].
Proof. exists []. split; [reflexivity | constructor]. Qed.

Lemma blocks_cons t done evs1 evs2 :
  target_block t evs1 -> blocks done evs2 -> blocks (t :: done) (evs1 ++ evs2).
Proof.
  intros Hb (bl & -> & Hbl). exists (evs1 :: bl). split; [reflexivity|].
  now constructor.
Qed.

Lemma blocks_app done1 done2 evs1 evs2 :
  blocks done1 evs1 -> blocks done2 evs2 -> blocks (done1 ++ done2) (evs1 ++ evs2).
Proof.
  intros (bl1 & -> & Hbl1) (bl2 & -> & Hbl2). exists (bl1 ++ bl2).
  split; [now rewrite concat_app | now apply Forall2_app].
Qed.

Lemma run_ok_skip {A} t tg evs1 evs2 (r : A + Exit) :
  target_block t evs1 -> run_ok tg evs2 r -> run_ok (t :: tg) (evs1 ++ evs2) r.
Proof.
  intros Hb (done & Hpre & Hbl & Hr). exists (t :: done).
  split; [now apply prefix_cons|]. split; [now apply blocks_cons|].
  destruct r as [a|[|[e|]]]; try easy.
  - now subst.
  - destruct Hr as (t' & Hl & Hf). exists t'. split; [|exact Hf].
    now rewrite last_cons, Hl.
  - destruct Hr as (t' & Hl & Hf). exists t'. rewrite last_cons, Hl, last_app, Hf. easy.
Qed.

Lemma targets_in_group_run tg : yields (run_ok tg) (targets_in_group tg).
Proof.
  induction tg as [|t tg IH]; intros st; cbn [targets_in_group].
  - exists []. simpl. rewrite app_nil_r. split; [reflexivity|].
    exists []. split; [reflexivity|]. split; [apply blocks_nil | reflexivity].
  - destruct (process_target_block t st) as (evs1 & Htr1 & Hb & Hx).
    destruct (process_target t st) as [st1 [u|[|e]]]; cbn [fst snd] in *.
    + destruct (IH st1) as (evs2 & Htr2 & Hr). exists (evs1 ++ evs2).
      rewrite Htr2, Htr1, app_assoc. split; [reflexivity|]. now apply run_ok_skip.
    + destruct (IH st1) as (evs2 & Htr2 & Hr). exists (evs1 ++ evs2).
      rewrite Htr2, Htr1, app_assoc. split; [reflexivity|]. now apply run_ok_skip.
    + exists evs1. split; [exact Htr1|]. exists [t].
      split; [apply prefix_cons, prefix_nil|].
      split; [rewrite <- (app_nil_r evs1); apply blocks_cons; [exact Hb | apply blocks_nil]|].
      destruct e as [e|]; exists t; easy.
Qed.

Lemma for_each_run groups :
  yields (run_ok (concat groups)) (for_each targets_in_group groups).
Proof.
  induction groups as [|tg groups IH]; cbn [for_each concat].
  - intros st. exists []. simpl. rewrite app_nil_r. split; [reflexivity|].
    exists []. split; [reflexivity|]. split; [apply blocks_nil | reflexivity].
  - apply (yields_bind _ (fun _ => run_ok (concat groups)) _ _ _
             (targets_in_group_run tg) (fun _ => IH)).
    + intros evs1 a evs2 r (done1 & _ & Hbl1 & ->) (done2 & Hpre & Hbl2 & Hr).
      exists (tg ++ done2). split; [now apply prefix_app|].
      split; [now apply blocks_app|].
      destruct r as [b|[|[e|]]]; try easy.
      * now subst.
      * destruct Hr as (t' & Hl & Hf). exists t'. split; [|exact Hf].
        now rewrite last_app, Hl.
      * destruct Hr as (t' & Hl & Hf). exists t'. rewrite !last_app, Hl, Hf. easy.
    + intros evs1 e (done & Hpre & Hbl & Hr). exists done.
      split; [now apply prefix_app_r|]. easy.
Qed.

(** The three ways a run of [Worker] can end, with the targets it went
    through. *)
Lemma Worker_blocks (targetGroups : list TargetGroup) (w : World) :
  let st := (Worker targetGroups w).1 in
  let err := (Worker targetGroups w).2 in
  exists done bl,
    done `prefix_of` concat targetGroups
    /\ Forall2 target_block done bl
    /\ (trace st = concat bl ++ [EvChanClosed; EvSend (result st)]
        /\ done = concat targetGroups /\ err = None
        \/ trace st = concat bl /\ err = None
           /\ (exists t, last done = Some t /\ last (trace st) = Some (EvCtxDone t true))
        \/ trace st = concat bl
           /\ exists e t, err = Some e /\ last done = Some t /\ fatal_for t e).
Proof.
  intros st err. subst st err. rewrite Worker_unfold.
  set (st0 := {| world := w; result := zero_Result; trace := [] |}).
  destruct (for_each_run targetGroups st0) as (evs & Htr & done & Hpre & (bl & -> & Hbl) & Hr).
  exists done, bl. split; [exact Hpre|]. split; [exact Hbl|].
  destruct (for_each targets_in_group targetGroups st0) as [st1 [u|[|[e|]]]];
    cbn [fst snd trace result] in *.
  - left. now rewrite Htr.
  - easy.
  - right. right. split; [exact Htr|]. destruct Hr as (t & Hl & Hf). now exists e, t.
  - right. left. split; [exact Htr|]. split; [reflexivity|].
    destruct Hr as (t & Hl & Hf). exists t. now rewrite Htr.
Qed.

(** *** What a block holds *)

Lemma plain_of_target t evs : forallb plain evs = true -> Forall (of_target t) evs.
Proof.
  induction evs as [|e evs IH]; [constructor|]. simpl. intros [He Hq]%andb_true_iff.
  constructor; [|now apply IH]. now destruct e.
Qed.

Lemma exec_of_target t ex :
  lint_cleared t -> exec_shape t (GetBool (Config_ (Dir_ t)) "dry-run") ex ->
  Forall (of_target t) ex.
Proof.
  intros Hc (att & logs & -> & Hl & _ & _).
  apply Forall_app. split; [|now apply plain_of_target].
  induction att as [|[d f] att IH]; csimpl; [constructor|].
  apply Forall_app. split; [|exact IH].
  unfold attempt_events. destruct (GetBool (Config_ (Dir_ t)) "dry-run") eqn:Hd;
    repeat constructor; simpl; auto.
Qed.

Lemma block_of_target t evs : target_block t evs -> Forall (of_target t) evs.
Proof.
  intros (pre & failed & tl & -> & Hpre & mid & ex & post & -> & Hmid & Hpost & Hex).
  apply Forall_app. split; [now apply plain_of_target|].
  constructor; [reflexivity|].
  apply Forall_app. split; [now apply plain_of_target|].
  apply Forall_app. split; [|now apply plain_of_target].
  destruct Hex as [[-> _]|[Hc Hex]]; [constructor | now apply exec_of_target].
Qed.

Lemma of_target_permitted t e : of_target t e -> permitted e.
Proof. destruct e; simpl; try easy; now intros [-> ?]. Qed.

Lemma blocks_permitted done bl :
  Forall2 target_block done bl -> Forall permitted (concat bl).
Proof.
  induction 1 as [|t evs done bl Hb _ IH]; simpl; [constructor|].
  apply Forall_app. split; [|exact IH].
  apply (Forall_impl _ _ _ (block_of_target t evs Hb)). apply of_target_permitted.
Qed.

Lemma sends_of_target t evs : Forall (of_target t) evs -> sends evs = [].
Proof.
  induction 1 as [|e evs He _ IH]; [reflexivity|].
  unfold sends in *. simpl. now destruct e.
Qed.

Lemma blocks_sends done bl : Forall2 target_block done bl -> sends (concat bl) = [].
Proof.
  induction 1 as [|t evs done bl Hb _ IH]; simpl; [reflexivity|].
  now rewrite sends_app, (sends_of_target t evs (block_of_target _ _ Hb)), IH.
Qed.

Lemma fetched_app tr1 tr2 : fetched (tr1 ++ tr2) = fetched tr1 ++ fetched tr2.
Proof. apply omap_app. Qed.

Lemma fetched_plain evs : forallb plain evs = true -> fetched evs = [].
Proof.
  induction evs as [|e evs IH]; [reflexivity|]. simpl. intros [He Hq]%andb_true_iff.
  unfold fetched in *. simpl. destruct e; try discriminate; now apply IH.
Qed.

Lemma fetched_exec t dryRun ex : exec_shape t dryRun ex -> fetched ex = [].
Proof.
  intros (att & logs & -> & Hl & _ & _).
  rewrite fetched_app, (fetched_plain _ Hl), app_nil_r.
  induction att as [|[d f] att IH]; csimpl; [reflexivity|].
  rewrite fetched_app, IH, app_nil_r. unfold attempt_events. now destruct dryRun.
Qed.

Lemma fetched_block t evs : target_block t evs -> fetched evs = [t].
Proof.
  intros (pre & failed & tl & -> & Hpre & mid & ex & post & -> & Hmid & Hpost & Hex).
  rewrite fetched_app, (fetched_plain _ Hpre).
  change (fetched (EvSchemaFromInstance t failed :: mid ++ ex ++ post))
    with (t :: fetched (mid ++ ex ++ post)).
  rewrite !fetched_app, (fetched_plain _ Hmid), (fetched_plain _ Hpost).
  destruct Hex as [[-> _]|[_ Hex]]; [reflexivity|].
  now rewrite (fetched_exec _ _ _ Hex).
Qed.

Lemma blocks_fetched done bl : Forall2 target_block done bl -> fetched (concat bl) = done.
Proof.
  induction 1 as [|t evs done bl Hb _ IH]; simpl; [reflexivity|].
  now rewrite fetched_app, (fetched_block _ _ Hb), IH.
Qed.

Lemma Worker_permitted (targetGroups : list TargetGroup) (w : World) :
  Forall permitted (trace (Worker targetGroups w).1).
Proof.
  destruct (Worker_blocks targetGroups w) as (done & bl & _ & Hbl & Hend).
  pose proof (blocks_permitted _ _ Hbl) as Hp.
  destruct Hend as [(-> & _)|[(-> & _)|(-> & _)]]; try exact Hp.
  apply Forall_app. split; [exact Hp|]. now repeat constructor.
Qed.

(** *** Prints come before executions *)

Lemma announced_nil : announced [].
Proof. intros before t d f after Heq. now destruct before. Qed.

Lemma announced_cons_other e evs :
  (forall t d f, e <> EvExecute t d f) -> announced evs -> announced (e :: evs).
Proof.
  intros He Hevs [|e' before] t d f after Heq; simplify_eq/=.
  - now destruct (He t d f).
  - destruct (Hevs _ _ _ _ _ eq_refl) as (before' & ->). now exists (e' :: before').
Qed.

Lemma announced_pair t d f evs :
  announced evs -> announced (EvPrintDDL t d :: EvExecute t d f :: evs).
Proof.
  intros Hevs [|e1 [|e2 before]] t' d' f' after Heq.
  - discriminate.
  - simplify_eq/=. now exists [].
  - simplify_eq/=.
    destruct (Hevs _ _ _ _ _ eq_refl) as (before' & ->).
    now exists (EvPrintDDL t d :: EvExecute t d f :: before').
Qed.

Lemma announced_app evs1 evs2 :
  announced evs1 -> announced evs2 -> announced (evs1 ++ evs2).
Proof.
  intros H1 H2 before t d f after Heq.
  apply app_eq_inv in Heq as [(k & -> & Hk)|(k & -> & Hk)].
  - destruct k as [|e k].
    + simpl in Hk. symmetry in Hk. destruct (H2 [] _ _ _ _ Hk) as (before' & Hb).
      now destruct before'.
    + injection Hk as <- _. exact (H1 _ _ _ _ _ eq_refl).
  - destruct (H2 _ _ _ _ _ Hk) as (before' & ->). exists (evs1 ++ before').
    now rewrite app_assoc.
Qed.

Lemma announced_plain evs : forallb plain evs = true -> announced evs.
Proof.
  induction evs as [|e evs IH]; [intros _; apply announced_nil|].
  simpl. intros [He Hq]%andb_true_iff.
  apply announced_cons_other; [|now apply IH]. intros t d f ->. discriminate.
Qed.

Lemma announced_exec t dryRun ex : exec_shape t dryRun ex -> announced ex.
Proof.
  intros (att & logs & -> & Hl & _ & _).
  apply announced_app; [|now apply announced_plain].
  induction att as [|[d f] att IH]; csimpl; [apply announced_nil|].
  unfold attempt_events at 1. destruct dryRun; simpl.
  - now apply announced_cons_other.
  - now apply announced_pair.
Qed.

Lemma announced_block t evs : target_block t evs -> announced evs.
Proof.
  intros (pre & failed & tl & -> & Hpre & mid & ex & post & -> & Hmid & Hpost & Hex).
  apply announced_app; [now apply announced_plain|].
  apply announced_cons_other; [discriminate|].
  apply announced_app; [now apply announced_plain|].
  apply announced_app; [|now apply announced_plain].
  destruct Hex as [[-> _]|[_ Hex]]; [apply announced_nil | now apply announced_exec in Hex].
Qed.

Lemma announced_blocks done bl : Forall2 target_block done bl -> announced (concat bl).
Proof.
  induction 1 as [|t evs done bl Hb _ IH]; simpl; [apply announced_nil|].
  apply announced_app; [now apply announced_block in Hb | exact IH].
Qed.

Lemma Worker_announced (targetGroups : list TargetGroup) (w : World) :
  announced (trace (Worker targetGroups w).1).
Proof.
  destruct (Worker_blocks targetGroups w) as (done & bl & _ & Hbl & Hend).
  pose proof (announced_blocks _ _ Hbl) as Hp.
  destruct Hend as [(-> & _)|[(-> & _)|(-> & _)]]; try exact Hp.
  apply announced_app; [exact Hp|].
  apply announced_cons_other; [discriminate|].
  apply announced_cons_other; [discriminate | apply announced_nil].
Qed.

(** *** A failed statement ends its target *)

Lemma halts_plain b evs rest :
  forallb plain evs = true ->
  halts_after_failure b (evs ++ rest) = halts_after_failure b rest.
Proof.
  induction evs as [|e evs IH]; [reflexivity|]. simpl.
  intros [He Hq]%andb_true_iff. destruct e; try discriminate; now apply IH.
Qed.

Lemma halts_exec t dryRun ex post rest :
  exec_shape t dryRun ex -> forallb plain post = true ->
  (forall b, halts_after_failure b rest = true) ->
  halts_after_failure false (ex ++ post ++ rest) = true.
Proof.
  intros (att & logs & -> & Hl & Hf & _) Hpost Hrest.
  rewrite <- app_assoc.
  induction att as [|[d f] att IH]; csimpl.
  - now rewrite !halts_plain.
  - rewrite <- app_assoc. unfold attempt_events at 1. destruct dryRun; simpl.
    + apply IH. intros before d' after ->. discriminate.
    + destruct f.
      * rewrite (Hf [] d att eq_refl eq_refl). simpl.
        now rewrite !halts_plain.
      * apply IH. intros before d' after -> _.
        now apply (Hf ((d, false) :: before) d' after).
Qed.

Lemma halts_block t evs rest :
  target_block t evs -> (forall b, halts_after_failure b rest = true) ->
  forall b, halts_after_failure b (evs ++ rest) = true.
Proof.
  intros (pre & failed & tl & -> & Hpre & mid & ex & post & -> & Hmid & Hpost & Hex) Hrest b.
  rewrite <- app_assoc, halts_plain by exact Hpre. simpl.
  rewrite <- app_assoc, halts_plain by exact Hmid.
  rewrite <- app_assoc.
  destruct Hex as [[-> ->]|[_ Hex]]; [apply Hrest | exact (halts_exec t _ ex post rest Hex Hpost Hrest)].
Qed.

Lemma halts_blocks done bl rest :
  Forall2 target_block done bl -> (forall b, halts_after_failure b rest = true) ->
  forall b, halts_after_failure b (concat bl ++ rest) = true.
Proof.
  induction 1 as [|t evs done bl Hb _ IH]; intros Hrest b; simpl; [apply Hrest|].
  rewrite <- app_assoc. apply (halts_block t); [exact Hb | now apply IH].
Qed.

Lemma Worker_halts (targetGroups : list TargetGroup) (w : World) :
  halts_after_failure false (trace (Worker targetGroups w).1) = true.
Proof.
  destruct (Worker_blocks targetGroups w) as (done & bl & _ & Hbl & Hend).
  destruct Hend as [(-> & _)|[(-> & _)|(-> & _)]].
  - apply (halts_blocks done); [exact Hbl | reflexivity].
  - rewrite <- (app_nil_r (concat bl)). apply (halts_blocks done); [exact Hbl | reflexivity].
  - rewrite <- (app_nil_r (concat bl)). apply (halts_blocks done); [exact Hbl | reflexivity].
Qed.

Lemma halts_after b before t d after :
  halts_after_failure b (before ++ EvExecute t d true :: after) = true ->
  halts_after_failure true after = true.
Proof.
  revert b. induction before as [|e before IH]; intros b; simpl.
  - now intros [_ ?]%andb_true_iff.
  - destruct e; try apply IH. intros [_ ?]%andb_true_iff. eauto.
Qed.

Lemma halts_pending mid t d f rest :
  halts_after_failure true (mid ++ EvExecute t d f :: rest) = true ->
  exists t' failed, EvSchemaFromInstance t' failed ∈ mid.
Proof.
  induction mid as [|e mid IH]; simpl; [discriminate|].
  destruct e; try discriminate;
    try (intros (t' & failed & Hin)%IH; exists t', failed; now right).
  intros _. eexists _, _. left.
Qed.

(** *** The modifiers of an executed target *)

Lemma StatementModifiersForDir_AllowUnsafe dir :
  AllowUnsafe (StatementModifiersForDir dir).1
  = GetBool (Config_ dir) "brief" && GetBool (Config_ dir) "dry-run"
    || GetBool (Config_ dir) "allow-unsafe".
Proof.
  unfold StatementModifiersForDir.
  destruct (GetEnum (Config_ dir) "alter-algorithm" _) as [alg [e|]]; [reflexivity|].
  destruct (GetEnum (Config_ dir) "alter-lock" _) as [lock [e|]]; [reflexivity|].
  now destruct (GetRegexp (Config_ dir) "ignore-table").
Qed.

End WorkerShape.

(** ** Worker: where the statements come from *)

Section Closed.
Context `{C : Collaborators}.
Variable R : list Event -> Prop.
Hypothesis R_nil : R [].
Hypothesis R_app : forall a b, R a -> R b -> R (a ++ b).
Hypothesis R_target : forall t, yields (fun evs _ => R evs) (process_target t).
Hypothesis R_end : forall r, R [EvChanClosed; EvSend r].

Lemma closed_targets_in_group tg : yields (fun evs _ => R evs) (targets_in_group tg).
Proof.
  induction tg as [|t tg IH]; intros st; cbn [targets_in_group].
  - exists []. simpl. now rewrite app_nil_r.
  - destruct (R_target t st) as (evs1 & Htr1 & H1).
    destruct (process_target t st) as [st1 [u|[|e]]]; cbn [fst snd] in *.
    + destruct (IH st1) as (evs2 & Htr2 & H2). exists (evs1 ++ evs2).
      rewrite Htr2, Htr1, app_assoc. auto.
    + destruct (IH st1) as (evs2 & Htr2 & H2). exists (evs1 ++ evs2).
      rewrite Htr2, Htr1, app_assoc. auto.
    + now exists evs1.
Qed.

Lemma closed_for_each groups :
  yields (fun evs _ => R evs) (for_each targets_in_group groups).
Proof.
  induction groups as [|tg groups IH]; cbn [for_each].
  - intros st. exists []. simpl. now rewrite app_nil_r.
  - apply (yields_bind _ (fun _ evs _ => R evs) _ _ _
             (closed_targets_in_group tg) (fun _ => IH)); auto.
Qed.

Lemma Worker_closed (targetGroups : list TargetGroup) (w : World) :
  R (trace (Worker targetGroups w).1).
Proof.
  rewrite Worker_unfold.
  set (st0 := {| world := w; result := zero_Result; trace := [] |}).
  destruct (closed_for_each targetGroups st0) as (evs & Htr & Hev).
  destruct (for_each targets_in_group targetGroups st0) as [st1 [u|[|e]]];
    cbn [fst snd trace] in *; rewrite Htr; auto.
Qed.

End Closed.

Section Licensed.
Context `{C : Collaborators}.

Ltac plain_steps :=
  repeat first
    [ apply plainly_ret | apply plainly_log | apply plainly_io | apply plainly_update
    | apply plainly_emit; reflexivity
    | apply plainly_exit; exact I
    | apply plainly_when
    | apply plainly_for_each; intros
    | apply plainly_bind; [|intros]
    | match goal with
      | |- plainly _ (match ?x with _ => _ end) => destruct x
      | |- plainly _ (let (_, _) := ?x in _) => destruct x
      end ].

Lemma stmt_in_mono t ddls e : stmt_in t [] e -> stmt_in t ddls e.
Proof. destruct e; simpl; try easy; intros [_ Hin]; now apply elem_of_nil in Hin. Qed.

Lemma plain_no_stmts t evs : forallb plain evs = true -> Forall (stmt_in t []) evs.
Proof.
  induction evs as [|e evs IH]; [constructor|]. simpl. intros [He Hq]%andb_true_iff.
  constructor; [|now apply IH]. now destruct e.
Qed.

Lemma licensed_from_quiet t from evs : Forall (stmt_in t []) evs -> licensed_from t from evs.
Proof.
  intros Hq. split; [|now left].
  eapply Forall_impl; [exact Hq|]. intros e. apply stmt_in_mono.
Qed.

Lemma licensed_from_prefix t from evs1 evs2 :
  Forall (stmt_in t []) evs1 -> licensed_from t from evs2 -> licensed_from t from (evs1 ++ evs2).
Proof.
  intros Hq [Hall Hl]. split.
  - apply Forall_app. split; [|exact Hall].
    eapply Forall_impl; [exact Hq|]. intros e. apply stmt_in_mono.
  - destruct Hl as [Hl|Hl]; [left; now apply Forall_app|].
    right. intros Hlint. destruct (Hl Hlint) as [Hin Herrs].
    split; [|exact Herrs]. apply elem_of_app. now right.
Qed.

Lemma licensed_after_plain {A} t from (m : M A) (k : A -> M unit) :
  plainly t m ->
  (forall a, yields (fun evs _ => licensed_from t from evs) (k a)) ->
  yields (fun evs _ => licensed_from t from evs) (m ≫= k).
Proof.
  intros Hm Hk.
  apply (yields_bind _ (fun _ evs _ => licensed_from t from evs) _ _ _ Hm Hk).
  - intros evs1 a evs2 r [H1 _] H2. apply licensed_from_prefix; [|exact H2].
    now apply plain_no_stmts.
  - intros evs1 e [H1 _]. now apply licensed_from_quiet, plain_no_stmts.
Qed.

(** *** The loop over the object diffs *)

Lemma produced_cons t mods d rest :
  produced t mods (d :: rest)
  = match NewDDLStatement d mods t with
    | (Some ddl, None) => (d, ddl) :: produced t mods rest
    | _ => produced t mods rest
    end.
Proof.
  unfold produced. csimpl. now destruct (NewDDLStatement d mods t) as [[ddl|] [e|]].
Qed.

(** *** Steps that add plain events and come back *)

Lemma silent_ret {A} (a : A) : silent (mret a).
Proof. intros st. exists []. simpl. rewrite app_nil_r. eauto. Qed.

Lemma silent_emit e : plain e = true -> silent (emit e).
Proof. intros He st. exists [e]. simpl. rewrite He. eauto. Qed.

Lemma silent_update f : silent (update_result f).
Proof. intros st. exists []. simpl. rewrite app_nil_r. eauto. Qed.

Lemma silent_bind {A B} (m : M A) (k : A -> M B) :
  silent m -> (forall a, silent (k a)) -> silent (m ≫= k).
Proof.
  intros Hm Hk.
  apply (yields_bind _ (fun _ evs r => forallb plain evs = true /\ exists b, r = inl b)
           _ _ _ Hm Hk).
  - intros evs1 a evs2 r [H1 _] [H2 Hr]. now rewrite forallb_app, H1, H2.
  - intros evs1 e [_ [a Ha]]. discriminate.
Qed.

Lemma silent_when b m : silent m -> silent (when b m).
Proof. destruct b; [easy|]. intros _. apply silent_ret. Qed.

Lemma silent_for_each {A} (f : A -> M unit) l : (forall a, silent (f a)) -> silent (for_each f l).
Proof.
  intros Hf. induction l as [|a l IH]; simpl.
  - apply silent_ret.
  - apply silent_bind; [apply Hf | intros _; exact IH].
Qed.

Lemma silent_DebugLogUnsupportedDiff e : silent (DebugLogUnsupportedDiff e).
Proof.
  unfold DebugLogUnsupportedDiff. apply silent_for_each. intros line.
  apply silent_when, silent_log.
Qed.

Lemma yields_after_silent {A B} (J : list Event -> B + Exit -> Prop) (m : M A) (k : A -> M B) :
  silent m -> (forall a, yields J (k a)) ->
  (forall evs1 evs2 r, forallb plain evs1 = true -> J evs2 r -> J (evs1 ++ evs2) r) ->
  yields J (m ≫= k).
Proof.
  intros Hm Hk HJ. apply (yields_bind _ (fun _ => J) _ _ _ Hm Hk).
  - intros evs1 a evs2 r [H1 _] H2. now apply HJ.
  - intros evs1 e [_ [a Ha]]. discriminate.
Qed.

Lemma build_ddls_produced t mods all rest : forall ddls keys n,
  yields (fun evs r =>
      forallb plain evs = true
      /\ match r with
         | inl (ddls', keys', _) =>
           ddls' = ddls ++ (produced t mods rest).*2
           /\ keys' = keys ++ (ObjectDiff_ObjectKey <$> (produced t mods rest).*1)
         | inr e => e = ContinueTargetsInGroup
         end)
    (build_ddls t mods all rest ddls keys n).
Proof.
  induction rest as [|d rest IH]; intros ddls keys n.
  - intros st. exists []. simpl. rewrite !app_nil_r. easy.
  - cbn [build_ddls]. rewrite produced_cons.
    assert (Hpre : forall ddls0 keys0 (prod : list (ObjectDiff * DDLStatement))
                     (evs1 evs2 : list Event)
                     (r : list DDLStatement * list tengo.ObjectKey * Z + Exit),
              forallb plain evs1 = true ->
              forallb plain evs2 = true
              /\ match r with
                 | inl (ddls', keys', _) =>
                   ddls' = ddls0 ++ prod.*2
                   /\ keys' = keys0 ++ (ObjectDiff_ObjectKey <$> prod.*1)
                 | inr e => e = ContinueTargetsInGroup
                 end ->
              forallb plain (evs1 ++ evs2) = true
              /\ match r with
                 | inl (ddls', keys', _) =>
                   ddls' = ddls0 ++ prod.*2
                   /\ keys' = keys0 ++ (ObjectDiff_ObjectKey <$> prod.*1)
                 | inr e => e = ContinueTargetsInGroup
                 end).
    { intros ddls0 keys0 prod evs1 evs2 r H1 [H2 Hr]. now rewrite forallb_app, H1, H2. }
    apply yields_after_silent; [now apply silent_emit | intros _ | apply Hpre].
    assert (Hexit : forall e prod,
              yields (fun evs (r : list DDLStatement * list tengo.ObjectKey * Z + Exit) =>
                  forallb plain evs = true
                  /\ match r with
                     | inl (ddls', keys', _) =>
                       ddls' = ddls ++ prod.*2
                       /\ keys' = keys ++ (ObjectDiff_ObjectKey <$> prod.*1)
                     | inr e => e = ContinueTargetsInGroup
                     end)
                (update_result (add_SkipCount (len all));;
                 log Err (Error e) [];;
                 when (1 <? len all)
                   (log Warn "Skipping %d additional operations for %s %s due to previous error"
                      [AInt (int_sub (len all) 1); inst_arg t; schema_arg t]);;
                 exit_with ContinueTargetsInGroup)).
    { intros e prod.
      apply yields_after_silent; [apply silent_update | intros _ | apply Hpre].
      apply yields_after_silent; [apply silent_log | intros _ | apply Hpre].
      apply yields_after_silent; [apply silent_when_log | intros _ | apply Hpre].
      intros st. exists []. simpl. now rewrite app_nil_r. }
    assert (Hunsupported : forall (e : error) key ddls0 keys0 n0,
              yields (fun evs (r : list DDLStatement * list tengo.ObjectKey * Z + Exit) =>
                  forallb plain evs = true
                  /\ match r with
                     | inl (ddls', keys', _) =>
                       ddls' = ddls0 ++ (produced t mods rest).*2
                       /\ keys' = keys0 ++ (ObjectDiff_ObjectKey <$> (produced t mods rest).*1)
                     | inr e => e = ContinueTargetsInGroup
                     end)
                (update_result (add_UnsupportedCount 1);;
                 log Warn "Skipping %s: unable to generate DDL due to use of unsupported features. Use --debug for more information."
                   [AStr (tengo.ObjectKey_String key)];;
                 DebugLogUnsupportedDiff e;;
                 build_ddls t mods all rest ddls0 keys0 n0)).
    { intros e key ddls0 keys0 n0.
      apply yields_after_silent; [apply silent_update | intros _ | apply Hpre].
      apply yields_after_silent; [apply silent_log | intros _ | apply Hpre].
      apply yields_after_silent;
        [apply silent_DebugLogUnsupportedDiff | intros _ | apply Hpre].
      apply IH. }
    destruct (NewDDLStatement d mods t) as [[ddl|] [e|]].
    + apply yields_after_silent; [apply silent_update | intros _ | apply Hpre].
      destruct e; first [apply Hunsupported | apply Hexit].
    + apply yields_after_silent; [apply silent_update | intros _ | apply Hpre].
      eapply yields_weaken; [|apply IH].
      intros evs [[[ddls' keys'] n']|e]; simpl; [|easy].
      intros (Hp & -> & ->). rewrite <- !app_assoc. easy.
    + apply yields_after_silent; [apply silent_update | intros _ | apply Hpre].
      destruct e; first [apply Hunsupported | apply Hexit].
    + apply IH.
Qed.

(** *** The loop over the statements *)

Lemma execute_ddls_stmts t dryRun n rest : forall i,
  yields (fun evs r => Forall (stmt_in t rest) evs /\ exists a, r = inl a)
    (execute_ddls t dryRun n i rest).
Proof.
  induction rest as [|d rest IH]; intros i.
  - intros st. exists []. simpl. rewrite app_nil_r. repeat split; eauto.
  - cbn [execute_ddls].
    assert (Hrec : forall j,
              yields (fun evs (r : unit + Exit) =>
                        Forall (stmt_in t (d :: rest)) evs /\ exists a, r = inl a)
                (execute_ddls t dryRun n j rest)).
    { intros j. eapply yields_weaken; [|apply IH]. intros evs r [Hall Hr].
      split; [|exact Hr]. eapply Forall_impl; [exact Hall|].
      intros e. destruct e; simpl; try easy; intros [-> Hin]; split; auto; now right. }
    apply (yields_bind _ (fun _ evs (r : unit + Exit) =>
                            Forall (stmt_in t (d :: rest)) evs /\ exists a, r = inl a)
             _ _ _ (yields_emit _)).
    2: { intros evs1 a evs2 r [-> _] [Hall Hr]. split; [|exact Hr].
         constructor; [|exact Hall]. split; [reflexivity | now left]. }
    2: { intros evs1 e [_ He]. discriminate. }
    intros _. destruct dryRun; [apply Hrec|].
    apply (yields_bind _ (fun _ evs (r : unit + Exit) =>
                            Forall (stmt_in t (d :: rest)) evs /\ exists a, r = inl a)
             _ _ _ (yields_io _)).
    2: { intros evs1 a evs2 r [-> _] Hb. exact Hb. }
    2: { intros evs1 e [_ [a Ha]]. discriminate. }
    intros err.
    apply (yields_bind _ (fun _ evs (r : unit + Exit) =>
                            Forall (stmt_in t (d :: rest)) evs /\ exists a, r = inl a)
             _ _ _ (yields_emit _)).
    2: { intros evs1 a evs2 r [-> _] [Hall Hr]. split; [|exact Hr].
         constructor; [|exact Hall]. split; [reflexivity | now left]. }
    2: { intros evs1 e [_ He]. discriminate. }
    intros _. destruct err as [e|]; [|apply Hrec].
    eapply yields_weaken.
    2: { apply silent_bind; [apply silent_log | intros _].
         apply silent_bind; [apply silent_update | intros _]. apply silent_when_log. }
    intros evs r [Hp Hr]. split; [|exact Hr].
    eapply Forall_impl; [exact (plain_no_stmts t _ Hp)|]. intros e'. apply stmt_in_mono.
Qed.

(** *** One pass of the loop body *)

Lemma yields_io_at {A} (call : World -> World * A) :
  yields (fun evs r => evs = [] /\ exists w, r = inl (call w).2) (io call).
Proof.
  intros st. exists []. unfold io. destruct (call (world st)) as [w a] eqn:Hc. simpl.
  rewrite app_nil_r. repeat split. exists (world st). now rewrite Hc.
Qed.

Lemma process_target_licensed t :
  yields (fun evs _ => exists w, licensed_from t (SchemaFromInstance t w).2.1 evs)
    (process_target t).
Proof.
  unfold process_target.
  assert (Hpre : forall (evs1 evs2 : list Event) (r : unit + Exit),
            forallb plain evs1 = true ->
            (exists w, licensed_from t (SchemaFromInstance t w).2.1 evs2) ->
            exists w, licensed_from t (SchemaFromInstance t w).2.1 (evs1 ++ evs2)).
  { intros evs1 evs2 _ Hp (w & Hl). exists w.
    apply licensed_from_prefix; [now apply plain_no_stmts | exact Hl]. }
  apply yields_after_silent;
    [destruct (GetBool _ "dry-run"); apply silent_log | intros _ | exact Hpre].
  apply yields_after_silent; [apply silent_when_log | intros _ | exact Hpre].
  apply (yields_bind _ (fun a evs (_ : unit + Exit) => licensed_from t a.1 evs) _ _ _
           (yields_io_at _)).
  2: { intros evs1 a evs2 r [-> (w & Ha)] Hl. injection Ha as ->. now exists w. }
  2: { intros evs1 e [_ (w & Hw)]. discriminate. }
  intros [from err]. cbn [fst].
  apply (yields_bind _ (fun _ evs (_ : unit + Exit) => licensed_from t from evs) _ _ _
           (yields_emit _)).
  2: { intros evs1 a evs2 r [-> _] Hl. apply licensed_from_prefix; [|exact Hl].
       now repeat constructor. }
  2: { intros evs1 e [_ He]. discriminate. }
  intros _.
  apply licensed_after_plain; [plain_steps | intros _].
  apply licensed_after_plain; [plain_steps | intros _].
  apply licensed_after_plain; [apply plainly_when, plainly_verify | intros _].
  assert (Hquit : forall e : Exit,
            yields (fun evs (_ : unit + Exit) => licensed_from t from evs) (exit_with e)).
  { intros e st. exists []. simpl. rewrite app_nil_r. split; [reflexivity|].
    apply licensed_from_quiet. constructor. }
  destruct (StatementModifiersForDir (Dir_ t)) as [mods [e|]] eqn:Hmods; [apply Hquit|].
  destruct (linter_OptionsForDir (Dir_ t)) as [lintOpts [e|]] eqn:Hlint; [apply Hquit|].
  assert (Hm : with_Flavor (Flavor (Instance_ t)) mods = mods_of t)
    by (unfold mods_of; now rewrite Hmods).
  rewrite Hm.
  set (prod := produced t (mods_of t) (ObjectDiffs (NewSchemaDiff from (SchemaFromDir t)))).
  apply (yields_bind _
           (fun a evs (_ : unit + Exit) =>
              Forall (stmt_in t a.1.1) evs
              /\ (Forall (stmt_in t []) evs
                  \/ (GetBool (Config_ (Dir_ t)) "lint" = true ->
                      EvCheckSchema t a.1.2 ∈ evs /\ lint_errors t a.1.2 <= 0)))
           _ _ _ (build_ddls_produced _ _ _ _ _ _ _)).
  2: { intros evs1 [[ddls keys] cnt] evs2 r [Hp [Hd Hk]] Hl. simpl in Hd, Hk, Hl.
       fold prod in Hd, Hk. subst ddls keys.
       apply licensed_from_prefix; [now apply plain_no_stmts | exact Hl]. }
  2: { intros evs1 e [Hp _]. now apply licensed_from_quiet, plain_no_stmts. }
  intros [[ddls keys] cnt]. cbn [fst snd].
  apply (yields_bind
           (fun evs (r : unit + Exit) =>
              forallb plain evs = true
              /\ ((exists b, r = inl b) ->
                  GetBool (Config_ (Dir_ t)) "lint" = true ->
                  EvCheckSchema t keys ∈ evs /\ lint_errors t keys <= 0))
           (fun _ evs (_ : unit + Exit) => Forall (stmt_in t ddls) evs)).
  - (* the linter *)
    destruct (GetBool (Config_ (Dir_ t)) "lint") eqn:Hl; simpl when.
    + apply (yields_bind _
               (fun _ evs (r : unit + Exit) =>
                  forallb plain evs = true
                  /\ ((exists b, r = inl b) -> lint_errors t keys <= 0) /\ exit_ok t r)
               _ _ _ (yields_emit _)).
      2: { intros evs1 a evs2 r [-> _] (Hp & Hok & _). split; [exact Hp|].
           intros Hr _. split; [now left | now apply Hok]. }
      2: { intros evs1 e [_ He]. discriminate. }
      intros _.
      apply gate_after_plain; [plain_steps | intros _].
      destruct (0 <? ErrorCount _) eqn:Herrs; simpl when.
      * intros st. unfold mbind, M_bind, update_result, log, emit, exit_with. simpl.
        eexists. split; [reflexivity|]. repeat split. intros [b Hb]. discriminate.
      * intros st. exists []. simpl. rewrite app_nil_r. repeat split.
        intros _. unfold lint_errors. rewrite Hlint. simpl. now apply Z.ltb_ge.
    + intros st. exists []. simpl. rewrite app_nil_r. repeat split; discriminate.
  - (* the statements, the closing log entry and the cancellation check *)
    intros _.
    apply (yields_bind _ (fun _ evs (_ : unit + Exit) => forallb plain evs = true)
             _ _ _ (execute_ddls_stmts _ _ _ _ _)).
    + intros _.
      apply (yields_bind (fun evs r => forallb plain evs = true /\ exists a, r = inl a)
               (fun _ evs (_ : unit + Exit) => forallb plain evs = true)).
      * destruct (cnt =? 0); apply silent_log.
      * intros _. eapply yields_weaken; [|apply cancel_check_shape]. now intros evs r [Hp _].
      * intros evs1 a evs2 r [H1 _] H2. now rewrite forallb_app, H1, H2.
      * intros evs1 e [_ [a Ha]]. discriminate.
    + intros evs1 a evs2 r [Hall _] Hp. apply Forall_app. split; [exact Hall|].
      eapply Forall_impl; [exact (plain_no_stmts t _ Hp)|]. intros e. apply stmt_in_mono.
    + intros evs1 e [_ [a Ha]]. discriminate.
  - intros evs1 a evs2 r [Hp Hlint'] Hall. split.
    + apply Forall_app. split; [|exact Hall].
      eapply Forall_impl; [exact (plain_no_stmts t _ Hp)|]. intros e. apply stmt_in_mono.
    + right. intros Hl. destruct (Hlint' (ex_intro _ a eq_refl) Hl) as [Hin Herrs].
      split; [|exact Herrs]. apply elem_of_app. now left.
  - intros evs1 e [Hp _]. split; [|left; now apply plain_no_stmts].
    eapply Forall_impl; [exact (plain_no_stmts t _ Hp)|]. intros e'. apply stmt_in_mono.
Qed.

(** *** The whole run *)

Lemma licensed_mono t evs1 evs2 ddl :
  (forall e, e ∈ evs1 -> e ∈ evs2) -> licensed t evs1 ddl -> licensed t evs2 ddl.
Proof.
  intros Hsub (w & Hin & Hl). exists w. split; [exact Hin|].
  intros Hlint. destruct (Hl Hlint) as [Hc He]. split; [now apply Hsub | exact He].
Qed.

Lemma all_licensed_app evs1 evs2 :
  all_licensed evs1 -> all_licensed evs2 -> all_licensed (evs1 ++ evs2).
Proof.
  intros H1 H2 e [Hin|Hin]%elem_of_app.
  - specialize (H1 e Hin). destruct e; try exact I;
      (eapply licensed_mono; [|exact H1]); intros e' He'; apply elem_of_app; now left.
  - specialize (H2 e Hin). destruct e; try exact I;
      (eapply licensed_mono; [|exact H2]); intros e' He'; apply elem_of_app; now right.
Qed.

Lemma licensed_from_all t w evs :
  licensed_from t (SchemaFromInstance t w).2.1 evs -> all_licensed evs.
Proof.
  intros [Hall Hl] e Hin.
  pose proof (proj1 (Forall_forall _ _) Hall e Hin) as He.
  assert (Hq : stmt_in t [] e ->
               match e with
               | EvPrintDDL _ _ | EvExecute _ _ _ => False
               | _ => True
               end).
  { destruct e; simpl; try easy; intros [_ Hnil]; now apply elem_of_nil in Hnil. }
  destruct e; try exact I; destruct He as [-> Hddl]; exists w;
    (split; [exact Hddl|]); intros Hlint;
    (destruct Hl as [Hl|Hl]; [|now apply Hl]);
    destruct (Hq (proj1 (Forall_forall _ _) Hl _ Hin)).
Qed.

Lemma Worker_licensed (targetGroups : list TargetGroup) (w : World) :
  all_licensed (trace (Worker targetGroups w).1).
Proof.
  apply (Worker_closed all_licensed).
  - intros e Hin. now apply elem_of_nil in Hin.
  - apply all_licensed_app.
  - intros t. eapply yields_weaken; [|apply process_target_licensed].
    intros evs _ (w' & Hl). now apply (licensed_from_all t w').
  - intros r e Hin. apply elem_of_cons in Hin as [->|Hin]; [exact I|].
    apply elem_of_cons in Hin as [->|Hin]; [exact I|]. now apply elem_of_nil in Hin.
Qed.

Lemma produced_rendered t mods objDiffs ddl :
  ddl ∈ (produced t mods objDiffs).*2 ->
  exists objDiff, objDiff ∈ objDiffs /\ NewDDLStatement objDiff mods t = (Some ddl, None).
Proof.
  intros ([d ddl'] & -> & Hin)%list_elem_of_fmap. simpl.
  unfold produced in Hin. apply list_elem_of_omap in Hin as (d' & Hd' & Hsome).
  destruct (NewDDLStatement d' mods t) as [[x|] [e|]] eqn:Hnew; try discriminate.
  injection Hsome as -> ->. now exists d.
Qed.

End Licensed.

(** C10.  A run of [Worker] in which the check after a target finds the
    context cancelled returns nil at once (the observation is the last
    event) and sends nothing.  In every run the worker sends either nothing
    or exactly one value, its accumulated [Result], as its last action and
    right after finding the input channel closed, with no cancellation
    observed before; and it does send whenever it finds the channel
    closed.  It does send whenever it neither observes a cancellation nor
    returns an error, so that it sends exactly in the runs that end that
    way; and when it sends it has gone through every target of every group
    it was given. *)
Theorem Worker_sends_once_unless_cancelled `{Collaborators}
    (targetGroups : list TargetGroup) (w : World) :
  let st := (Worker targetGroups w).1 in
  let err := (Worker targetGroups w).2 in
  (existsb cancel_observed (trace st) = true ->
     err = None /\ sends (trace st) = []
     /\ exists tr t, trace st = tr ++ [EvCtxDone t true])
  /\ (sends (trace st) = []
      \/ sends (trace st) = [result st]
         /\ err = None
         /\ exists tr, trace st = tr ++ [EvChanClosed; EvSend (result st)]
                       /\ existsb cancel_observed tr = false
                       /\ existsb is_chan_closed tr = false)
  /\ (existsb is_chan_closed (trace st) = true <-> sends (trace st) <> [])
  /\ (existsb cancel_observed (trace st) = false -> err = None ->
      sends (trace st) = [result st])
  /\ (err <> None -> sends (trace st) = [])
  /\ (sends (trace st) <> [] -> fetched (trace st) = concat targetGroups).
Proof.
  intros st err.
  assert (Hold :
    (existsb cancel_observed (trace st) = true ->
       err = None /\ sends (trace st) = []
       /\ exists tr t, trace st = tr ++ [EvCtxDone t true])
    /\ (sends (trace st) = []
        \/ sends (trace st) = [result st]
           /\ err = None
           /\ exists tr, trace st = tr ++ [EvChanClosed; EvSend (result st)]
                         /\ existsb cancel_observed tr = false
                         /\ existsb is_chan_closed tr = false)
    /\ (existsb is_chan_closed (trace st) = true <-> sends (trace st) <> [])).
  { destruct (Worker_cases targetGroups w) as
      [(tr & Htr & Hq & Herr) | [(tr & t & Htr & Hq & Herr) | Hq]];
      fold st in Htr || fold st in Hq; fold err in Herr || idtac.
    - assert (Hs : sends (trace st) = [result st]).
      { rewrite Htr, sends_app, (quiet_sends _ Hq). reflexivity. }
      split; [|split].
      + rewrite Htr, existsb_app, (quiet_no_cancel _ Hq). discriminate.
      + right. split; [exact Hs|]. split; [exact Herr|]. exists tr.
        split; [exact Htr|]. split; [now apply quiet_no_cancel | now apply quiet_not_closed].
      + rewrite Hs. split; [discriminate|]. intros _.
        rewrite Htr, existsb_app. simpl. now rewrite orb_true_r.
    - assert (Hs : sends (trace st) = []).
      { rewrite Htr, sends_app, (quiet_sends _ Hq). reflexivity. }
      split; [|split].
      + intros _. split; [exact Herr|]. split; [exact Hs|]. now exists tr, t.
      + now left.
      + rewrite Hs, Htr, existsb_app, (quiet_not_closed _ Hq). simpl. split; easy.
    - split; [|split].
      + rewrite (quiet_no_cancel _ Hq). discriminate.
      + left. now apply quiet_sends.
      + rewrite (quiet_not_closed _ Hq), (quiet_sends _ Hq). split; easy. }
  destruct Hold as (H1 & H2 & H3).
  split; [exact H1|]. split; [exact H2|]. split; [exact H3|].
  destruct (Worker_blocks targetGroups w) as (done & bl & Hpre & Hbl & Hend).
  fold st in Hend. fold err in Hend.
  pose proof (blocks_sends _ _ Hbl) as Hs. pose proof (blocks_fetched _ _ Hbl) as Hf.
  destruct Hend as [(Htr & -> & Herr)|[(Htr & Herr & t & Hl & Hc)|(Htr & e & t & Herr & Hl & Hfatal)]].
  - assert (Hsent : sends (trace st) = [result st])
      by (rewrite Htr, sends_app, Hs; reflexivity).
    split; [now intros _ _|]. split; [intros Hne; now rewrite Herr in Hne|].
    intros _. rewrite Htr, fetched_app, Hf. apply app_nil_r.
  - assert (Hnot : sends (trace st) = []) by now rewrite Htr.
    split; [|split; [now intros _ | now rewrite Hnot]].
    intros Hno _. apply last_Some in Hc as (tr & Htr').
    rewrite Htr', existsb_app in Hno. simpl in Hno. now rewrite orb_true_r in Hno.
  - assert (Hnot : sends (trace st) = []) by now rewrite Htr.
    split; [|split; [now intros _ | now rewrite Hnot]].
    intros _ Hnone. now rewrite Herr in Hnone.
Qed.

Lemma Worker_sends_once_unless_cancelled_witness :
  (existsb cancel_observed (trace (Worker Sim.cancelled_run (Sim.world0 1)).1) = true
   /\ (Worker Sim.cancelled_run (Sim.world0 1)).2 = None
   /\ sends (trace (Worker Sim.cancelled_run (Sim.world0 1)).1) = [])
  /\ (existsb cancel_observed (trace (Worker Sim.failing_run (Sim.world0 10)).1) = false
      /\ (Worker Sim.failing_run (Sim.world0 10)).2 = None
      /\ sends (trace (Worker Sim.failing_run (Sim.world0 10)).1)
         = [result (Worker Sim.failing_run (Sim.world0 10)).1]
      /\ fetched (trace (Worker Sim.failing_run (Sim.world0 10)).1)
         = concat Sim.failing_run).
Proof.
  assert (Hc : existsb cancel_observed (trace (Worker Sim.cancelled_run (Sim.world0 1)).1) = true)
    by (vm_compute; reflexivity).
  assert (Hno : existsb cancel_observed (trace (Worker Sim.failing_run (Sim.world0 10)).1) = false)
    by (vm_compute; reflexivity).
  assert (Herr : (Worker Sim.failing_run (Sim.world0 10)).2 = None)
    by (vm_compute; reflexivity).
  split.
  - split; [exact Hc|].
    destruct (@Worker_sends_once_unless_cancelled Sim.sim_universe Sim.sim_collaborators
                Sim.cancelled_run (Sim.world0 1)) as [H _].
    destruct (H Hc) as (He & Hs & _). split; [exact He | exact Hs].
  - split; [exact Hno|]. split; [exact Herr|].
    destruct (@Worker_sends_once_unless_cancelled Sim.sim_universe Sim.sim_collaborators
                Sim.failing_run (Sim.world0 10)) as (_ & _ & _ & Hsend & _ & Hall).
    pose proof (Hsend Hno Herr) as Hs. split; [exact Hs|].
    apply Hall. rewrite Hs. discriminate.
Defined.

(** X1.  [Worker] fetches the live schema of its targets in the order of
    its input, each once, and ends in one of three ways: it has gone through
    every target, sends its result and returns nil; or it returns nil without
    sending, its last action being the check that found the context cancelled
    after the last target it fetched; or it returns, without sending, an
    error of the last target it fetched, which is the error of that target's
    diff verification or the wrapped error of its statement modifiers or
    linter options. *)
Theorem Worker_ends_in_one_of_three_ways `{Collaborators}
    (targetGroups : list TargetGroup) (w : World) :
  let st := (Worker targetGroups w).1 in
  let err := (Worker targetGroups w).2 in
  fetched (trace st) `prefix_of` concat targetGroups
  /\ (err = None /\ sends (trace st) = [result st]
      /\ fetched (trace st) = concat targetGroups
      \/ err = None /\ sends (trace st) = []
         /\ (exists t, last (fetched (trace st)) = Some t
                       /\ last (trace st) = Some (EvCtxDone t true))
      \/ exists e t, err = Some e /\ sends (trace st) = []
                     /\ last (fetched (trace st)) = Some t /\ fatal_for t e).
Proof.
  intros st err. subst st err.
  destruct (Worker_blocks targetGroups w) as (done & bl & Hpre & Hbl & Hend).
  pose proof (blocks_fetched _ _ Hbl) as Hf. pose proof (blocks_sends _ _ Hbl) as Hs.
  destruct Hend as [(Htr & -> & Herr)|[(Htr & Herr & t & Hl & Hc)|(Htr & e & t & Herr & Hl & Hfatal)]].
  - assert (Hfetched : fetched (trace (Worker targetGroups w).1) = concat targetGroups).
    { rewrite Htr, fetched_app, Hf. apply app_nil_r. }
    rewrite Hfetched. split; [reflexivity|]. left. split; [exact Herr|].
    split; [|reflexivity]. rewrite Htr, sends_app, Hs. reflexivity.
  - rewrite Htr, Hf. split; [exact Hpre|]. right. left. split; [exact Herr|].
    split; [exact Hs|]. exists t. split; [exact Hl|]. now rewrite <- Htr.
  - rewrite Htr, Hf. split; [exact Hpre|]. right. right. exists e, t. easy.
Qed.

(** X2.  [Worker] hands a statement to the database only for a target
    whose configuration does not ask for a dry run. *)
Theorem Worker_never_executes_in_dry_run `{Collaborators}
    (targetGroups : list TargetGroup) (w : World)
    (t : Target) (ddl : DDLStatement) (failed : bool) :
  EvExecute t ddl failed ∈ trace (Worker targetGroups w).1 ->
  GetBool (Config_ (Dir_ t)) "dry-run" = false.
Proof.
  intros Hin.
  pose proof (proj1 (Forall_forall _ _) (Worker_permitted targetGroups w) _ Hin) as Hp.
  exact (proj2 Hp).
Qed.

Lemma Worker_never_executes_in_dry_run_witness :
  EvExecute Sim.pushed_target (Sim.CreateTable "a") false
    ∈ trace (Worker [[Sim.pushed_target]] (Sim.world0 10)).1
  /\ GetBool (Config_ (Dir_ Sim.pushed_target)) "dry-run" = false.
Proof.
  assert (Hin : EvExecute Sim.pushed_target (Sim.CreateTable "a") false
                  ∈ trace (Worker [[Sim.pushed_target]] (Sim.world0 10)).1).
  { apply (list_elem_of_lookup_2 _ 5%nat). vm_compute. reflexivity. }
  split; [exact Hin|].
  exact (@Worker_never_executes_in_dry_run Sim.sim_universe Sim.sim_collaborators
           [[Sim.pushed_target]] (Sim.world0 10) Sim.pushed_target (Sim.CreateTable "a")
           false Hin).
Defined.

(** X3.  A statement [Worker] prints or executes for a target is one of
    those [NewDDLStatement] produced, with the target's modifiers, for the
    object diffs between a live schema fetched from the instance and the
    schema of the directory.  If linting is enabled for the target, the
    linter was run, restricted to the keys of exactly the object diffs that
    produced a statement, and it reported no error on them. *)
Theorem Worker_prints_and_executes_only_after_lint `{Collaborators}
    (targetGroups : list TargetGroup) (w : World)
    (t : Target) (ddl : DDLStatement) (failed : bool) :
  EvPrintDDL t ddl ∈ trace (Worker targetGroups w).1
  \/ EvExecute t ddl failed ∈ trace (Worker targetGroups w).1 ->
  exists w0,
    let from := (SchemaFromInstance t w0).2.1 in
    let prod := produced t (mods_of t) (ObjectDiffs (NewSchemaDiff from (SchemaFromDir t))) in
    let keys := ObjectDiff_ObjectKey <$> prod.*1 in
    ddl ∈ prod.*2
    /\ (GetBool (Config_ (Dir_ t)) "lint" = true ->
        EvCheckSchema t keys ∈ trace (Worker targetGroups w).1
        /\ ErrorCount
             (SortByFile
                (linter_CheckSchema (DesiredSchema t)
                   (OnlyKeys (linter_OptionsForDir (Dir_ t)).1 keys))) <= 0).
Proof.
  intros [Hin|Hin]; exact (Worker_licensed targetGroups w _ Hin).
Qed.

Lemma Worker_prints_and_executes_only_after_lint_witness :
  EvPrintDDL Sim.linted_target (Sim.CreateTable "a")
    ∈ trace (Worker [[Sim.linted_target]] (Sim.world0 10)).1
  /\ GetBool (Config_ (Dir_ Sim.linted_target)) "lint" = true
  /\ exists keys,
       EvCheckSchema Sim.linted_target keys
         ∈ trace (Worker [[Sim.linted_target]] (Sim.world0 10)).1
       /\ ErrorCount
            (SortByFile
               (linter_CheckSchema (DesiredSchema Sim.linted_target)
                  (OnlyKeys (linter_OptionsForDir (Dir_ Sim.linted_target)).1 keys))) <= 0.
Proof.
  assert (Hin : EvPrintDDL Sim.linted_target (Sim.CreateTable "a")
                  ∈ trace (Worker [[Sim.linted_target]] (Sim.world0 10)).1).
  { apply (list_elem_of_lookup_2 _ 5%nat). vm_compute. reflexivity. }
  assert (Hl : GetBool (Config_ (Dir_ Sim.linted_target)) "lint" = true)
    by (vm_compute; reflexivity).
  split; [exact Hin|]. split; [exact Hl|].
  destruct (@Worker_prints_and_executes_only_after_lint Sim.sim_universe Sim.sim_collaborators
              [[Sim.linted_target]] (Sim.world0 10) Sim.linted_target (Sim.CreateTable "a")
              false (or_introl Hin)) as (w0 & _ & Hlint).
  destruct (Hlint Hl) as [Hc He]. eexists. split; [exact Hc | exact He].
Defined.

(** X4.  Whenever [Worker] executes a statement, what it did just before
    was to print that statement, for the same target. *)
Theorem Worker_prints_each_statement_before_executing_it `{Collaborators}
    (targetGroups : list TargetGroup) (w : World)
    (before after : list Event) (t : Target) (ddl : DDLStatement) (failed : bool) :
  trace (Worker targetGroups w).1 = before ++ EvExecute t ddl failed :: after ->
  exists before', before = before' ++ [EvPrintDDL t ddl].
Proof. apply Worker_announced. Qed.

Lemma Worker_prints_each_statement_before_executing_it_witness :
  trace (Worker [[Sim.pushed_target]] (Sim.world0 10)).1
  = take 5 (trace (Worker [[Sim.pushed_target]] (Sim.world0 10)).1)
    ++ EvExecute Sim.pushed_target (Sim.CreateTable "a") false
    :: drop 6 (trace (Worker [[Sim.pushed_target]] (Sim.world0 10)).1)
  /\ exists before',
       take 5 (trace (Worker [[Sim.pushed_target]] (Sim.world0 10)).1)
       = before' ++ [EvPrintDDL Sim.pushed_target (Sim.CreateTable "a")].
Proof.
  assert (Heq : trace (Worker [[Sim.pushed_target]] (Sim.world0 10)).1
    = take 5 (trace (Worker [[Sim.pushed_target]] (Sim.world0 10)).1)
      ++ EvExecute Sim.pushed_target (Sim.CreateTable "a") false
      :: drop 6 (trace (Worker [[Sim.pushed_target]] (Sim.world0 10)).1))
    by (vm_compute; reflexivity).
  split; [exact Heq|].
  exact (@Worker_prints_each_statement_before_executing_it
           Sim.sim_universe Sim.sim_collaborators
           [[Sim.pushed_target]] (Sim.world0 10) _ _ Sim.pushed_target
           (Sim.CreateTable "a") false Heq).
Defined.

(** X5.  Once a statement has failed, [Worker] executes nothing more for
    that target: before any later execution it has fetched the live schema
    of another target. *)
Theorem Worker_stops_a_target_at_its_first_failure `{Collaborators}
    (targetGroups : list TargetGroup) (w : World)
    (before mid rest : list Event) (t t' : Target) (ddl ddl' : DDLStatement)
    (failed : bool) :
  trace (Worker targetGroups w).1
  = before ++ EvExecute t ddl true :: mid ++ EvExecute t' ddl' failed :: rest ->
  exists t'' failed', EvSchemaFromInstance t'' failed' ∈ mid.
Proof.
  intros Heq. pose proof (Worker_halts targetGroups w) as Hh. rewrite Heq in Hh.
  apply halts_after in Hh. now apply halts_pending in Hh.
Qed.

Lemma Worker_stops_a_target_at_its_first_failure_witness :
  trace (Worker Sim.failing_run (Sim.world0 10)).1
  = take 6 (trace (Worker Sim.failing_run (Sim.world0 10)).1)
    ++ EvExecute Sim.failing_target (Sim.CreateTable "bad") true
    :: (take 9 (drop 7 (trace (Worker Sim.failing_run (Sim.world0 10)).1)))
    ++ EvExecute Sim.later_target (Sim.CreateTable "c") false
    :: drop 17 (trace (Worker Sim.failing_run (Sim.world0 10)).1)
  /\ exists t'' failed',
       EvSchemaFromInstance t'' failed'
         ∈ take 9 (drop 7 (trace (Worker Sim.failing_run (Sim.world0 10)).1)).
Proof.
  assert (Heq : trace (Worker Sim.failing_run (Sim.world0 10)).1
    = take 6 (trace (Worker Sim.failing_run (Sim.world0 10)).1)
      ++ EvExecute Sim.failing_target (Sim.CreateTable "bad") true
      :: (take 9 (drop 7 (trace (Worker Sim.failing_run (Sim.world0 10)).1)))
      ++ EvExecute Sim.later_target (Sim.CreateTable "c") false
      :: drop 17 (trace (Worker Sim.failing_run (Sim.world0 10)).1))
    by (vm_compute; reflexivity).
  split; [exact Heq|].
  exact (@Worker_stops_a_target_at_its_first_failure
           Sim.sim_universe Sim.sim_collaborators
           Sim.failing_run (Sim.world0 10) _ _ _ Sim.failing_target Sim.later_target
           (Sim.CreateTable "bad") (Sim.CreateTable "c") false Heq).
Defined.

(** X6.  The modifiers [StatementModifiersForDir] computes allow unsafe
    statements when the directory asks for a brief dry run or sets
    allow-unsafe, whether or not it also returns an error.  A statement
    [Worker] executes for a target was produced by [NewDDLStatement] with
    those modifiers and the flavor of the target's instance, and for such a
    target they allow unsafe statements exactly when allow-unsafe is set:
    what a brief dry run forces is never executed. *)
Theorem Worker_executes_unsafe_only_if_allowed `{Collaborators}
    (targetGroups : list TargetGroup) (w : World)
    (t : Target) (ddl : DDLStatement) (failed : bool) :
  AllowUnsafe (StatementModifiersForDir (Dir_ t)).1
  = GetBool (Config_ (Dir_ t)) "brief" && GetBool (Config_ (Dir_ t)) "dry-run"
    || GetBool (Config_ (Dir_ t)) "allow-unsafe"
  /\ (EvExecute t ddl failed ∈ trace (Worker targetGroups w).1 ->
      AllowUnsafe (StatementModifiersForDir (Dir_ t)).1
      = GetBool (Config_ (Dir_ t)) "allow-unsafe"
      /\ exists objDiff mods,
           NewDDLStatement objDiff mods t = (Some ddl, None)
           /\ mods = with_Flavor (Flavor (Instance_ t)) (StatementModifiersForDir (Dir_ t)).1
           /\ AllowUnsafe mods = GetBool (Config_ (Dir_ t)) "allow-unsafe"
           /\ ModFlavor mods = Flavor (Instance_ t)).
Proof.
  split; [apply StatementModifiersForDir_AllowUnsafe|]. intros Hin.
  pose proof (proj1 (Forall_forall _ _) (Worker_permitted targetGroups w) _ Hin) as Hp.
  assert (Hallow : AllowUnsafe (StatementModifiersForDir (Dir_ t)).1
                   = GetBool (Config_ (Dir_ t)) "allow-unsafe").
  { rewrite StatementModifiersForDir_AllowUnsafe, (proj2 Hp), andb_false_r. reflexivity. }
  split; [exact Hallow|].
  destruct (Worker_licensed targetGroups w _ Hin) as (w0 & Hprod & _).
  apply produced_rendered in Hprod as (objDiff & _ & Hnew).
  exists objDiff, (mods_of t). split; [exact Hnew|]. split; [reflexivity|].
  split; [exact Hallow | reflexivity].
Qed.

Lemma Worker_executes_unsafe_only_if_allowed_witness :
  EvExecute Sim.later_target (Sim.CreateTable "c") false
    ∈ trace (Worker Sim.failing_run (Sim.world0 10)).1
  /\ AllowUnsafe (StatementModifiersForDir (Dir_ Sim.later_target)).1
     = GetBool (Config_ (Dir_ Sim.later_target)) "allow-unsafe"
  /\ exists objDiff mods,
       NewDDLStatement objDiff mods Sim.later_target = (Some (Sim.CreateTable "c"), None)
       /\ AllowUnsafe mods = GetBool (Config_ (Dir_ Sim.later_target)) "allow-unsafe".
Proof.
  assert (Hin : EvExecute Sim.later_target (Sim.CreateTable "c") false
                  ∈ trace (Worker Sim.failing_run (Sim.world0 10)).1).
  { apply (list_elem_of_lookup_2 _ 16%nat). vm_compute. reflexivity. }
  split; [exact Hin|].
  destruct (proj2 (@Worker_executes_unsafe_only_if_allowed Sim.sim_universe
                     Sim.sim_collaborators Sim.failing_run (Sim.world0 10) Sim.later_target
                     (Sim.CreateTable "c") false) Hin)
    as (Hallow & objDiff & mods & Hnew & _ & Hmods & _).
  split; [exact Hallow|]. exists objDiff, mods. split; [exact Hnew | exact Hmods].
Defined.

(** ** DebugLogUnsupportedDiff *)

Section DebugLog.
Context `{U : Universe}.

Lemma rev_app_chars s acc :
  list_ascii_of_string (String.rev_app s acc)
  = reverse (list_ascii_of_string s) ++ list_ascii_of_string acc.
Proof.
  revert acc. induction s as [|c s IH]; intros acc; simpl; [reflexivity|].
  rewrite IH, reverse_cons. simpl. now rewrite <- app_assoc.
Qed.

Lemma rev_chars s : list_ascii_of_string (String.rev s) = reverse (list_ascii_of_string s).
Proof. unfold String.rev. rewrite rev_app_chars. apply app_nil_r. Qed.

Lemma split_lines_go_no_newline s : forall cur,
  "010"%char ∉ list_ascii_of_string cur ->
  Forall (fun l => "010"%char ∉ list_ascii_of_string l) (split_lines_go s cur).
Proof.
  induction s as [|c s IH]; intros cur Hcur; simpl.
  - constructor; [|constructor]. rewrite rev_chars. now rewrite elem_of_reverse.
  - destruct (Ascii.eqb c "010") eqn:Hc.
    + constructor.
      * rewrite rev_chars. now rewrite elem_of_reverse.
      * apply IH. simpl. apply not_elem_of_nil.
    + apply IH. simpl. rewrite not_elem_of_cons. split; [|exact Hcur].
      intros <-. now rewrite Ascii.eqb_refl in Hc.
Qed.

Lemma split_lines_go_join s : forall cur,
  mjoin (list_ascii_of_string <$> split_lines_go s cur)
  = reverse (list_ascii_of_string cur)
    ++ filter (fun c => c <> "010"%char) (list_ascii_of_string s).
Proof.
  induction s as [|c s IH]; intros cur; simpl.
  - now rewrite rev_chars.
  - destruct (Ascii.eqb c "010") eqn:Hc.
    + apply Ascii.eqb_eq in Hc as ->. csimpl.
      rewrite IH, rev_chars, filter_cons_False by (intros Hne; now apply Hne).
      reflexivity.
    + rewrite IH. simpl. rewrite reverse_cons.
      rewrite filter_cons_True by (intros ->; now rewrite Ascii.eqb_refl in Hc).
      now rewrite <- app_assoc.
Qed.

Lemma nonempty_lines_join ls :
  mjoin (list_ascii_of_string <$> filter (fun l : string => l <> "") ls)
  = mjoin (list_ascii_of_string <$> ls).
Proof.
  induction ls as [|l ls IH]; [reflexivity|].
  destruct l as [|c l].
  - rewrite filter_cons_False by (intros Hne; now apply Hne). csimpl. exact IH.
  - rewrite filter_cons_True by discriminate. csimpl. now rewrite IH.
Qed.

Lemma log_lines ls : forall st,
  let out :=
    for_each (fun line => when (0 <? Z.of_nat (String.length line)) (log Debug line []))
      ls st in
  out.2 = inl tt /\ world out.1 = world st /\ result out.1 = result st
  /\ trace out.1
     = trace st ++ ((fun l => EvLog Debug l []) <$> filter (fun l : string => l <> "") ls).
Proof.
  induction ls as [|l ls IH]; intros st; simpl.
  - now rewrite app_nil_r.
  - unfold mbind, M_bind. destruct l as [|c l].
    + rewrite filter_cons_False by (intros Hne; now apply Hne). simpl. apply IH.
    + rewrite filter_cons_True by discriminate.
      change (when (0 <? Z.of_nat (String.length (String c l))) (log Debug (String c l) []) st)
        with (emit (EvLog Debug (String c l) []) st).
      unfold emit. cbn beta iota.
      destruct (IH {| world := world st; result := result st;
                      trace := trace st ++ [EvLog Debug (String c l) []] |})
        as (H1 & H2 & H3 & H4).
      split; [exact H1|]. split; [exact H2|]. split; [exact H3|].
      rewrite H4. cbn [trace]. csimpl. now rewrite <- app_assoc.
Qed.

End DebugLog.

(** X7.  [DebugLogUnsupportedDiff] writes one debug entry for each
    non-empty line of the error's extended text, in order, and does nothing
    else: it comes back, and the world and the accumulated result are as
    before.  No entry is empty or holds a newline, and the entries put
    together are the text without its newlines. *)
Theorem DebugLogUnsupportedDiff_logs_each_nonempty_line `{Universe}
    (err : error) (st : WState) :
  let lines := filter (fun l : string => l <> "") (split_lines (ExtendedError err)) in
  let out := DebugLogUnsupportedDiff err st in
  out.2 = inl tt /\ world out.1 = world st /\ result out.1 = result st
  /\ trace out.1 = trace st ++ ((fun l => EvLog Debug l []) <$> lines)
  /\ Forall (fun l => l <> "" /\ "010"%char ∉ list_ascii_of_string l) lines
  /\ mjoin (list_ascii_of_string <$> lines)
     = filter (fun c => c <> "010"%char) (list_ascii_of_string (ExtendedError err)).
Proof.
  intros lines out. subst lines out. unfold DebugLogUnsupportedDiff.
  destruct (log_lines (split_lines (ExtendedError err)) st) as (H1 & H2 & H3 & H4).
  split; [exact H1|]. split; [exact H2|]. split; [exact H3|]. split; [exact H4|].
  split.
  - apply Forall_forall. intros l [Hne Hin]%list_elem_of_filter. split; [exact Hne|].
    pose proof (split_lines_go_no_newline (ExtendedError err) "" (not_elem_of_nil _)) as Hall.
    exact (proj1 (Forall_forall _ _) Hall l Hin).
  - rewrite nonempty_lines_join. unfold split_lines. now rewrite split_lines_go_join.
Qed.

End applier_spec.

(** * Properties of package workspace *)

Module workspace_spec.
Import workspace.

(** ** The shutdown registry *)

Section Registry.
Context `{U : Universe}.

Lemma kept_cons (f : ShutdownFunc) fs (r : bool) rs :
  kept (f :: fs) (r :: rs) = if r then kept fs rs else f :: kept fs rs.
Proof.
  unfold kept. change (zip (f :: fs) (r :: rs)) with ((f, r) :: zip fs rs).
  destruct r.
  - now rewrite filter_cons_False by (simpl; discriminate).
  - now rewrite filter_cons_True by reflexivity.
Qed.

Lemma shutdown_loop_spec (args : list Any) (fs : list ShutdownFunc) :
  forall (i : nat) (retained : list ShutdownFunc) (st : State),
  let rets := (call_all args fs (world st)).1 in
  let out := shutdown_loop args i fs retained st in
  out.1 = retained ++ kept fs rets
  /\ trace out.2 = trace st ++ imap (fun j r => EvCall (i + j) args r) rets
  /\ world out.2 = (call_all args fs (world st)).2
  /\ length rets = length fs
  /\ shutdownFuncs out.2 = shutdownFuncs st
  /\ shutdownFuncMutex out.2 = shutdownFuncMutex st
  /\ maxOpen out.2 = maxOpen st.
Proof.
  induction fs as [|f fs IH]; intros i retained st.
  - simpl. rewrite !app_nil_r. easy.
  - simpl. destruct (f args (world st)) as [w r] eqn:Hf.
    specialize (IH (S i) (if r then retained else retained ++ [f])
                  (emit (EvCall i args r) (set_world w st))).
    simpl in IH. destruct (call_all args fs w) as [rs w'] eqn:Hc. simpl in *.
    destruct IH as (IH1 & IH2 & IH3 & IH4 & IH5 & IH6 & IH7).
    repeat split; try assumption.
    + rewrite IH1, kept_cons. destruct r; [reflexivity|].
      now rewrite <- app_assoc.
    + rewrite IH2, <- app_assoc. simpl. rewrite Nat.add_0_r. do 2 f_equal.
      apply imap_ext. intros j r' _. simpl. f_equal. lia.
    + simpl. now rewrite IH4.
Qed.

End Registry.

(** C9.  With the mutex free, [RegisterShutdownFunc] returns, and between
    its [Lock] and its [Unlock] it appends the function to the registry.
    [Shutdown] returns too: between its [Lock] and its [Unlock] it calls the
    registered functions one after the other, each exactly once, in registry
    order and with the arguments of the call, and then stores in the registry
    the functions that returned false, in their original order. *)
Theorem Shutdown_retains_unfinished `{Universe}
    (args : list Any) (f : ShutdownFunc) (st : State) :
  shutdownFuncMutex st = false ->
  (exists st', RegisterShutdownFunc f st = Some st'
     /\ shutdownFuncs st' = shutdownFuncs st ++ [f]
     /\ trace st' = trace st
                    ++ [EvLock; EvStore (S (length (shutdownFuncs st))); EvUnlock]
     /\ shutdownFuncMutex st' = false
     /\ world st' = world st)
  /\ (exists st', Shutdown args st = Some st'
     /\ let rets := (call_all args (shutdownFuncs st) (world st)).1 in
        length rets = length (shutdownFuncs st)
        /\ trace st' = trace st ++ [EvLock]
                       ++ imap (fun i r => EvCall i args r) rets
                       ++ [EvStore (length (kept (shutdownFuncs st) rets)); EvUnlock]
        /\ shutdownFuncs st' = kept (shutdownFuncs st) rets
        /\ world st' = (call_all args (shutdownFuncs st) (world st)).2
        /\ shutdownFuncMutex st' = false).
Proof.
  intros Hfree. split.
  - unfold RegisterShutdownFunc, Lock. rewrite Hfree. simpl.
    eexists. split; [reflexivity|]. simpl.
    rewrite <- !app_assoc, length_app, Nat.add_comm. easy.
  - unfold Shutdown, Lock. rewrite Hfree. simpl.
    pose proof (shutdown_loop_spec args (shutdownFuncs st) 0%nat []
                  (emit EvLock (set_mutex true st))) as Hloop.
    simpl in Hloop.
    destruct (shutdown_loop args 0 (shutdownFuncs st) []
                (emit EvLock (set_mutex true st))) as [retained st1].
    simpl in Hloop. destruct Hloop as (H1 & H2 & H3 & H4 & _).
    eexists. split; [reflexivity|]. simpl.
    repeat split; try assumption.
    rewrite H2, H1, <- !app_assoc. reflexivity.
Qed.

Lemma Shutdown_retains_unfinished_witness :
  shutdownFuncMutex Sim.registry_example = false
  /\ exists st', @Shutdown Sim.sim_universe ["skeema-mysql-8.0"] Sim.registry_example = Some st'
     /\ length (shutdownFuncs st') = 1%nat
     /\ Sim.containers (world st') = ["skeema-mysql-8.0"].
Proof.
  split; [reflexivity|].
  destruct (@Shutdown_retains_unfinished Sim.sim_universe ["skeema-mysql-8.0"]
              (Sim.stop_container "x") Sim.registry_example eq_refl)
    as (_ & st' & Hs & _ & _ & Hk & Hw & _).
  exists st'. split; [exact Hs|]. rewrite Hk, Hw. split; reflexivity.
Defined.

(** ** The CREATE phase *)

Section Lists.
Context {A : Type}.

Lemma insert_split (l : list A) (i : nat) (x y : A) :
  l !! i = Some x -> exists rest, l ≡ₚ x :: rest /\ <[i:=y]> l ≡ₚ y :: rest.
Proof.
  intros Hi. exists (delete i l). split; [now apply delete_Permutation|].
  rewrite insert_take_drop by (eapply lookup_lt_Some; eassumption).
  rewrite delete_take_drop. symmetry. apply Permutation_middle.
Qed.

Lemma bind_insert {B} (f : A -> list B) (l : list A) (i : nat) (x y : A) :
  l !! i = Some x ->
  exists rest, l ≫= f ≡ₚ f x ++ rest /\ <[i:=y]> l ≫= f ≡ₚ f y ++ rest.
Proof.
  intros Hi. destruct (insert_split l i x y Hi) as (rest & H1 & H2).
  exists (rest ≫= f). split.
  - now rewrite H1.
  - now rewrite H2.
Qed.

Lemma omap_snoc {B} (f : A -> option B) (l : list A) (x : A) :
  omap f (l ++ [x]) = omap f l ++ option_list (f x).
Proof. rewrite omap_app. simpl. now destruct (f x). Qed.

Lemma forallb_snoc (f : A -> bool) (l : list A) (x : A) :
  forallb f (l ++ [x]) = forallb f l && f x.
Proof. rewrite forallb_app. simpl. now rewrite andb_true_r. Qed.

End Lists.

Lemma execStatement_Statement `{Collaborators} db statement w se :
  (execStatement db statement w).2 = Some se -> Statement_ se = statement.
Proof.
  unfold execStatement. destruct (DB_Exec db (Body statement) w) as [w' [err|]]; simpl.
  - now intros [= <-].
  - discriminate.
Qed.

Lemma pool_of_spec (statement : Statement) :
  pool_of statement = Remember
  <-> ObjectType statement = tengo.ObjectTypeFunc
      \/ ObjectType statement = tengo.ObjectTypeProc.
Proof.
  unfold pool_of, rememberSQLMode.
  rewrite lookup_insert. case_decide as Hf; simpl.
  - split; [intros _; left; congruence | reflexivity].
  - rewrite lookup_insert. case_decide as Hp; simpl.
    + split; [intros _; right; congruence | reflexivity].
    + rewrite lookup_empty. simpl. split; [discriminate|]. intros [?|?]; congruence.
Qed.

Lemma weight_perm (l1 l2 : list goroutine) :
  l1 ≡ₚ l2 -> sum_list (weight <$> l1) = sum_list (weight <$> l2).
Proof. induction 1; csimpl; lia. Qed.

Lemma in_use_perm pool (l1 l2 : list goroutine) :
  l1 ≡ₚ l2 -> in_use pool l1 = in_use pool l2.
Proof. induction 1; simpl; lia. Qed.

Lemma in_use_app pool (l1 l2 : list goroutine) :
  in_use pool (l1 ++ l2) = (in_use pool l1 + in_use pool l2)%nat.
Proof. induction l1 as [|g l1 IH]; simpl; lia. Qed.

Lemma in_use_insert pool (gs : list goroutine) i g g' :
  gs !! i = Some g ->
  (in_use pool (<[i:=g']> gs) + b2n (running_on pool g)
   = in_use pool gs + b2n (running_on pool g'))%nat.
Proof.
  intros Hi. destruct (insert_split gs i g g' Hi) as (rest & H1 & H2).
  rewrite (in_use_perm _ _ _ H1), (in_use_perm _ _ _ H2). simpl. unfold b2n. lia.
Qed.

Lemma weight_insert (gs : list goroutine) i g g' :
  gs !! i = Some g ->
  (sum_list (weight <$> <[i:=g']> gs) + weight g
   = sum_list (weight <$> gs) + weight g')%nat.
Proof.
  intros Hi. destruct (insert_split gs i g g' Hi) as (rest & H1 & H2).
  rewrite (weight_perm _ _ H1), (weight_perm _ _ H2). csimpl. lia.
Qed.

Lemma stmts_insert (gs : list goroutine) i g g' :
  gs !! i = Some g -> g_stmt g' = g_stmt g ->
  g_stmt <$> <[i:=g']> gs = g_stmt <$> gs.
Proof.
  intros Hi Hs. rewrite list_fmap_insert, Hs. apply list_insert_id.
  now rewrite list_lookup_fmap, Hi.
Qed.

Section TraceFacts.
Context `{U : Universe}.

Lemma in_flight_snoc pool (tr : list Event) e :
  in_flight pool (tr ++ [e]) = in_flight pool tr + delta pool e.
Proof.
  unfold in_flight. induction tr as [|x tr IH]; simpl; [lia|]. rewrite IH. lia.
Qed.

Lemma in_flight_app pool (tr1 tr2 : list Event) :
  in_flight pool (tr1 ++ tr2) = in_flight pool tr1 + in_flight pool tr2.
Proof.
  unfold in_flight. induction tr1 as [|x tr IH]; simpl; [lia|]. rewrite IH. lia.
Qed.

Lemma peak_app pool (tr1 tr2 : list Event) :
  peak pool (tr1 ++ tr2) = Z.max (peak pool tr1) (in_flight pool tr1 + peak pool tr2).
Proof.
  induction tr1 as [|x tr IH]; simpl.
  - unfold in_flight. simpl. destruct tr2; simpl; lia.
  - rewrite IH. unfold in_flight. simpl. fold (in_flight pool tr). lia.
Qed.

Lemma peak_bounds pool (tr : list Event) :
  0 <= peak pool tr /\ in_flight pool tr <= peak pool tr.
Proof.
  unfold in_flight. induction tr as [|x tr IH]; simpl; lia.
Qed.

Lemma peak_snoc pool (tr : list Event) e :
  peak pool (tr ++ [e]) = Z.max (peak pool tr) (in_flight pool (tr ++ [e])).
Proof.
  rewrite peak_app, in_flight_snoc. simpl.
  pose proof (peak_bounds pool tr). lia.
Qed.

End TraceFacts.

Section CreatePhase.
Context `{C : Collaborators}.
Variables (db dbRemember : Pool) (creates : list Statement) (st0 : State).
Hypothesis limits : forall pool, maxOpen st0 pool = 10.

Local Abbreviation Inv := (workspace.Inv creates st0).
Local Abbreviation exec_ok := (workspace.exec_ok creates).

Lemma Inv_init :
  Inv [] {| base := st0; pending := creates; goroutines := []; failures := [] |}.
Proof.
  constructor; simpl; try easy.
  - now rewrite app_nil_r.
Qed.

Lemma executions_snoc (evs : list Event) e :
  executions (evs ++ [e]) = executions evs ++ option_list (execution_of e).
Proof. apply omap_snoc. Qed.

Lemma received_snoc (evs : list Event) e :
  received (evs ++ [e])
  = received evs ++ option_list (match e with EvRecv r => Some r | _ => None end).
Proof. apply omap_snoc. Qed.

Lemma submitted_snoc (evs : list Event) e :
  submitted (evs ++ [e])
  = submitted evs ++ option_list (match e with EvGo i s => Some (i, s) | _ => None end).
Proof. apply omap_snoc. Qed.

Lemma can_start_10 (n : nat) : can_start 10 n = true -> (n < 10)%nat.
Proof. unfold can_start. simpl. intros Hlt%Z.ltb_lt. lia. Qed.

Lemma step_go evs cst :
  Inv evs cst -> exists evs', Inv evs' (step db dbRemember ActGo cst).
Proof.
  intros [Hc Ht Hf Hm Hmo Hph Hsub Hok Hex Hres Hfl Hif Hpk]. simpl.
  destruct (pending cst) as [|s rest] eqn:Hp.
  { exists evs. constructor; try assumption. now rewrite Hp. }
  exists (evs ++ [EvGo (length (goroutines cst)) s]).
  constructor; simpl.
  - now rewrite fmap_app, <- app_assoc.
  - now rewrite Ht, app_assoc.
  - assumption.
  - assumption.
  - assumption.
  - now rewrite forallb_snoc, Hph.
  - rewrite submitted_snoc, Hsub, fmap_app, imap_app. simpl.
    now rewrite length_fmap, Nat.add_0_r.
  - rewrite executions_snoc. simpl. now rewrite app_nil_r.
  - rewrite executions_snoc, bind_app. simpl. now rewrite !app_nil_r.
  - rewrite executions_snoc, received_snoc, bind_app. simpl. now rewrite !app_nil_r.
  - rewrite received_snoc. simpl. now rewrite app_nil_r.
  - intros pool. rewrite in_flight_snoc, in_use_app, Hif. simpl. lia.
  - intros pool. rewrite peak_snoc, in_flight_snoc. simpl.
    pose proof (Hpk pool). pose proof (peak_bounds pool evs). lia.
Qed.

(** One goroutine changes status and one event is added. *)
Lemma Inv_update evs cst i g g' b e fl :
  Inv evs cst ->
  goroutines cst !! i = Some g ->
  g_stmt g' = g_stmt g ->
  trace b = trace (base cst) ++ [e] ->
  shutdownFuncs b = shutdownFuncs (base cst) ->
  shutdownFuncMutex b = shutdownFuncMutex (base cst) ->
  maxOpen b = maxOpen (base cst) ->
  create_phase_event e = true ->
  submitted [e] = [] ->
  Forall exec_ok (option_list (execution_of e)) ->
  (ex_stmt <$> option_list (execution_of e)) ++ executed_of g ≡ₚ executed_of g' ->
  (ex_result <$> option_list (execution_of e)) ++ undelivered_of g
    ≡ₚ recv_of e ++ undelivered_of g' ->
  fl = failures cst ++ omap id (recv_of e) ->
  (forall pool,
     Z.of_nat (b2n (running_on pool g)) + delta pool e
     = Z.of_nat (b2n (running_on pool g'))) ->
  (forall pool, delta pool e <= 0 \/ (in_use pool (goroutines cst) < 10)%nat) ->
  Inv (evs ++ [e])
    {| base := b; pending := pending cst;
       goroutines := <[i:=g']> (goroutines cst); failures := fl |}.
Proof.
  intros [Hc Ht Hf Hm Hmo Hph Hsub Hok Hex Hres Hfl Hif Hpk]
    Hi Hs Htr Hbf Hbm Hbo Hev Hnogo Hxok Hexd Hund -> Hdelta Hcap.
  assert (Hfl' : forall pool,
            in_flight pool (evs ++ [e])
            = Z.of_nat (in_use pool (<[i:=g']> (goroutines cst)))).
  { intros pool. rewrite in_flight_snoc, Hif.
    pose proof (in_use_insert pool _ i g g' Hi). specialize (Hdelta pool). lia. }
  constructor; simpl.
  - now rewrite (stmts_insert _ i g g' Hi Hs).
  - now rewrite Htr, Ht, app_assoc.
  - congruence.
  - congruence.
  - congruence.
  - now rewrite forallb_snoc, Hph, Hev.
  - rewrite (stmts_insert _ i g g' Hi Hs), <- Hsub.
    unfold submitted in *. now rewrite omap_app, Hnogo, app_nil_r.
  - rewrite executions_snoc. now apply Forall_app.
  - destruct (bind_insert executed_of _ i g g' Hi) as (rest & H1 & H2).
    rewrite executions_snoc, fmap_app, Hex, H1, H2, <- Hexd.
    solve_Permutation.
  - destruct (bind_insert undelivered_of _ i g g' Hi) as (rest & H1 & H2).
    rewrite executions_snoc, fmap_app, Hres, H1, H2, received_snoc.
    fold (recv_of e).
    transitivity (received evs
                  ++ ((ex_result <$> option_list (execution_of e)) ++ undelivered_of g)
                  ++ rest).
    { solve_Permutation. }
    rewrite Hund. solve_Permutation.
  - rewrite received_snoc. fold (recv_of e). now rewrite omap_app, Hfl.
  - exact Hfl'.
  - intros pool. rewrite peak_snoc, Hfl'.
    pose proof (Hpk pool). pose proof (peak_bounds pool evs) as [_ Hle].
    rewrite Hif in Hle.
    pose proof (in_use_insert pool _ i g g' Hi). specialize (Hdelta pool).
    destruct (Hcap pool); unfold b2n in *;
      destruct (running_on pool g), (running_on pool g'); lia.
Qed.

Lemma lookup_creates cst evs i g :
  Inv evs cst -> goroutines cst !! i = Some g -> creates !! i = Some (g_stmt g).
Proof.
  intros HI Hi. rewrite <- (inv_creates _ _ _ _ HI).
  apply lookup_app_l_Some. now rewrite list_lookup_fmap, Hi.
Qed.

Lemma step_start evs cst i :
  Inv evs cst -> exists evs', Inv evs' (step db dbRemember (ActStart i) cst).
Proof.
  intros HI. simpl.
  destruct (goroutines cst !! i) as [[s []]|] eqn:Hi; try (now exists evs).
  destruct (can_start _ _) eqn:Hcan; [|now exists evs].
  rewrite (inv_maxOpen _ _ _ _ HI), limits in Hcan. apply can_start_10 in Hcan.
  eexists. unfold set_goroutine.
  eapply (Inv_update evs cst i _ _ _ _ _ HI Hi); try reflexivity.
  - constructor.
  - simpl. now rewrite app_nil_r.
  - intros pool. unfold running_on. simpl. destruct (decide (pool_of s = pool)).
    + now rewrite bool_decide_eq_true_2.
    + now rewrite bool_decide_eq_false_2.
  - intros pool. simpl. destruct (decide (pool_of s = pool)) as [<-|]; [right|left]; lia.
Qed.

Lemma step_finish evs cst i :
  Inv evs cst -> exists evs', Inv evs' (step db dbRemember (ActFinish i) cst).
Proof.
  intros HI. simpl.
  destruct (goroutines cst !! i) as [[s []]|] eqn:Hi; try (now exists evs).
  destruct (execStatement _ s (world (base cst))) as [w r] eqn:Hexec.
  eexists. unfold set_goroutine.
  eapply (Inv_update evs cst i _ _ _ _ _ HI Hi); try reflexivity.
  - simpl. constructor; [|constructor]. repeat split; simpl.
    + exists i. split; [reflexivity|]. exact (lookup_creates _ _ _ _ HI Hi).
    + intros se ->. eapply execStatement_Statement. now rewrite Hexec.
  - simpl. now rewrite app_nil_r.
  - intros pool. unfold running_on. simpl. destruct (decide (pool_of s = pool)).
    + now rewrite bool_decide_eq_true_2.
    + now rewrite bool_decide_eq_false_2.
  - intros pool. left. simpl. destruct (decide (pool_of s = pool)); lia.
Qed.

Lemma step_recv evs cst i :
  Inv evs cst -> exists evs', Inv evs' (step db dbRemember (ActRecv i) cst).
Proof.
  intros HI. simpl.
  destruct (goroutines cst !! i) as [[s [| |r|]]|] eqn:Hi; try (now exists evs).
  destruct (is_nil (pending cst)); [|now exists evs].
  eexists.
  eapply (Inv_update evs cst i _ _ _ _ _ HI Hi); try reflexivity.
  - constructor.
  - intros pool. left. simpl. lia.
Qed.

Lemma step_Inv a evs cst :
  Inv evs cst -> exists evs', Inv evs' (step db dbRemember a cst).
Proof.
  destruct a; [apply step_go | apply step_start | apply step_finish | apply step_recv].
Qed.

Lemma run_Inv fuel : forall sched evs cst,
  Inv evs cst -> exists evs', Inv evs' (run_goroutines fuel sched db dbRemember cst).
Proof.
  induction fuel as [|fuel IH]; intros sched evs cst HI; simpl.
  - now exists evs.
  - destruct (enabled cst) as [|a acts]; [now exists evs|].
    destruct (step_Inv (default a ((a :: acts) !! (hd 0%nat sched mod length (a :: acts))%nat))
                evs cst HI) as (evs' & HI').
    exact (IH _ _ _ HI').
Qed.

(** *** The phase runs to completion *)

Lemma actions_from_elem cst a gs : forall i,
  a ∈ actions_from cst i gs ->
  exists j g, gs !! j = Some g /\ a ∈ actions_at cst (i + j) g.
Proof.
  induction gs as [|g gs IH]; intros i; simpl.
  - intros Hin. now apply elem_of_nil in Hin.
  - intros [Hin|Hin]%elem_of_app.
    + exists 0%nat, g. now rewrite Nat.add_0_r.
    + destruct (IH _ Hin) as (j & g' & Hj & Ha).
      exists (S j), g'. split; [exact Hj|]. now replace (i + S j)%nat with (S i + j)%nat by lia.
Qed.

Lemma actions_from_nil cst gs : forall i,
  actions_from cst i gs = [] -> Forall (fun g => actions_at cst 0 g = []) gs.
Proof.
  induction gs as [|g gs IH]; intros i; simpl; [constructor|].
  intros [Hg Hgs]%app_eq_nil. constructor; [|now apply (IH (S i))].
  unfold actions_at in *. destruct (g_status g); try discriminate; try reflexivity.
  - now destruct (can_start _ _).
  - now destruct (is_nil _).
Qed.

Lemma in_use_none pool gs :
  Forall (fun g => g_status g <> Running) gs -> in_use pool gs = 0%nat.
Proof.
  induction 1 as [|g gs Hg _ IH]; simpl; [reflexivity|].
  rewrite IH. unfold running_on. now destruct (g_status g).
Qed.

Lemma enabled_nil evs cst :
  Inv evs cst -> enabled cst = [] -> remaining cst = 0%nat.
Proof.
  intros HI [Hp Ha]%app_eq_nil. unfold remaining.
  destruct (pending cst) as [|s rest] eqn:Hpend; [|discriminate]. simpl.
  pose proof (actions_from_nil _ _ _ Ha) as Hall.
  assert (Hnr : Forall (fun g => g_status g <> Running) (goroutines cst)).
  { eapply Forall_impl; [exact Hall|]. intros g Hg Hr. unfold actions_at in Hg.
    now rewrite Hr in Hg. }
  assert (Hex : Forall (fun g => weight g = 0%nat) (goroutines cst)).
  { eapply Forall_impl; [exact Hall|]. intros g Hg. unfold actions_at, weight in *.
    rewrite (inv_maxOpen _ _ _ _ HI), limits, (in_use_none _ _ Hnr), Hpend in Hg.
    now destruct (g_status g). }
  clear -Hex. induction Hex as [|g gs Hg _ IH]; csimpl; [reflexivity|]. lia.
Qed.

Lemma enabled_elem cst a :
  a ∈ enabled cst ->
  (a = ActGo /\ pending cst <> [])
  \/ exists j g, goroutines cst !! j = Some g /\ a ∈ actions_at cst j g.
Proof.
  unfold enabled. intros [Hin|Hin]%elem_of_app.
  - left. destruct (pending cst); simpl in Hin.
    + now apply elem_of_nil in Hin.
    + apply list_elem_of_singleton in Hin. easy.
  - right. exact (actions_from_elem _ _ _ _ Hin).
Qed.

Lemma step_remaining cst a :
  a ∈ enabled cst ->
  (remaining (step db dbRemember a cst) + 1 = remaining cst)%nat.
Proof.
  intros [[-> Hp] | (j & g & Hj & Ha)]%enabled_elem.
  - unfold remaining. simpl. destruct (pending cst) as [|s rest]; [easy|]. simpl.
    rewrite fmap_app, sum_list_with_app. simpl. lia.
  - unfold actions_at in Ha. destruct g as [s status].
    simpl in Ha. destruct status as [| |r|].
    + destruct (can_start _ _) eqn:Hcan; [|now apply elem_of_nil in Ha].
      apply list_elem_of_singleton in Ha. subst a. simpl. rewrite Hj, Hcan.
      unfold remaining. simpl.
      pose proof (weight_insert _ j _ {| g_stmt := s; g_status := Running |} Hj).
      simpl in *. unfold weight in *. simpl in *. lia.
    + apply list_elem_of_singleton in Ha. subst a. simpl. rewrite Hj.
      destruct (execStatement _ s _) as [w r]. unfold remaining. simpl.
      pose proof (weight_insert _ j _ {| g_stmt := s; g_status := Sending r |} Hj).
      simpl in *. unfold weight in *. simpl in *. lia.
    + destruct (is_nil (pending cst)) eqn:Hnil; [|now apply elem_of_nil in Ha].
      apply list_elem_of_singleton in Ha. subst a. simpl. rewrite Hj, Hnil.
      unfold remaining. simpl.
      pose proof (weight_insert _ j _ {| g_stmt := s; g_status := Exited |} Hj).
      simpl in *. unfold weight in *. simpl in *. lia.
    + now apply elem_of_nil in Ha.
Qed.

Lemma choice_enabled (a : Action) acts (k : nat) :
  default a ((a :: acts) !! k) ∈ a :: acts.
Proof.
  destruct ((a :: acts) !! k) as [x|] eqn:Hk; simpl.
  - eapply list_elem_of_lookup_2. exact Hk.
  - left.
Qed.

Lemma run_complete fuel : forall sched evs cst,
  Inv evs cst -> (remaining cst <= fuel)%nat ->
  remaining (run_goroutines fuel sched db dbRemember cst) = 0%nat.
Proof.
  induction fuel as [|fuel IH]; intros sched evs cst HI Hle; simpl.
  - lia.
  - destruct (enabled cst) as [|a acts] eqn:Hen; [exact (enabled_nil _ _ HI Hen)|].
    set (choice := default a _).
    assert (Hin : choice ∈ enabled cst) by (rewrite Hen; apply choice_enabled).
    pose proof (step_remaining _ _ Hin).
    destruct (step_Inv choice evs cst HI) as (evs' & HI').
    apply (IH _ _ _ HI'). lia.
Qed.

Lemma remaining_0 cst :
  remaining cst = 0%nat ->
  pending cst = [] /\ Forall (fun g => g_status g = Exited) (goroutines cst).
Proof.
  unfold remaining. intros Hz. split.
  - destruct (pending cst); [reflexivity|]. simpl in Hz. lia.
  - assert (Hs : sum_list (weight <$> goroutines cst) = 0%nat) by lia. clear Hz.
    induction (goroutines cst) as [|g gs IH]; [constructor|]. csimpl in Hs.
    constructor; [|apply IH; lia].
    unfold weight in Hs. destruct (g_status g); try reflexivity; lia.
Qed.

Lemma all_exited gs :
  Forall (fun g => g_status g = Exited) gs ->
  gs ≫= executed_of = g_stmt <$> gs /\ gs ≫= undelivered_of = []
  /\ forall pool, in_use pool gs = 0%nat.
Proof.
  induction 1 as [|g gs Hg _ (IH1 & IH2 & IH3)]; [easy|]. csimpl.
  rewrite IH1, IH2. unfold executed_of, undelivered_of, running_on. rewrite Hg.
  repeat split. intros pool. now rewrite IH3.
Qed.

(** Every interleaving is the run of some schedule. *)
Lemma schedule_covers_every_interleaving (acts : list Action) : forall cst,
  valid_run db dbRemember cst acts ->
  exists sched,
    run_goroutines (length acts) sched db dbRemember cst
    = foldl (fun st a => step db dbRemember a st) cst acts.
Proof.
  induction acts as [|a acts IH]; intros cst; cbn [valid_run foldl].
  - intros _. now exists [].
  - intros [Hin Hrest]. destruct (IH _ Hrest) as (sched & Hrun).
    apply list_elem_of_lookup_1 in Hin as (k & Hk).
    exists (k :: sched).
    change (run_goroutines (length (a :: acts)) (k :: sched) db dbRemember cst)
      with (match enabled cst with
            | [] => cst
            | x :: xs =>
              run_goroutines (length acts) sched db dbRemember
                (step db dbRemember
                   (default x ((x :: xs) !! (k mod length (x :: xs))%nat)) cst)
            end).
    destruct (enabled cst) as [|x xs] eqn:Hen; [easy|].
    rewrite Nat.mod_small by (eapply lookup_lt_Some; exact Hk).
    rewrite Hk. exact Hrun.
Qed.

(** The CREATE phase from start to end. *)
Lemma create_phase_spec sched :
  let cst := run_goroutines (4 * length creates) sched db dbRemember
               {| base := st0; pending := creates; goroutines := []; failures := [] |} in
  exists evs,
    trace (base cst) = trace st0 ++ evs
    /\ shutdownFuncs (base cst) = shutdownFuncs st0
    /\ shutdownFuncMutex (base cst) = shutdownFuncMutex st0
    /\ maxOpen (base cst) = maxOpen st0
    /\ forallb create_phase_event evs = true
    /\ submitted evs = imap pair creates
    /\ Forall exec_ok (executions evs)
    /\ ex_stmt <$> executions evs ≡ₚ creates
    /\ ex_result <$> executions evs ≡ₚ received evs
    /\ failures cst = omap id (received evs)
    /\ (forall pool, in_flight pool evs = 0 /\ peak pool evs <= 10).
Proof.
  intros cst.
  destruct (run_Inv (4 * length creates) sched [] _ Inv_init) as (evs & HI).
  fold cst in HI.
  assert (Hz : remaining cst = 0%nat).
  { apply (run_complete _ _ [] _ Inv_init). unfold remaining. simpl. lia. }
  destruct (remaining_0 _ Hz) as [Hp Hex].
  destruct (all_exited _ Hex) as (He & Hu & Hn).
  destruct HI as [Hc Ht Hf Hm Hmo Hph Hsub Hok Hexd Hres Hfl Hif Hpk].
  rewrite Hp, app_nil_r in Hc.
  exists evs. repeat split; try assumption.
  - now rewrite Hsub, Hc.
  - now rewrite Hexd, He, Hc.
  - now rewrite Hres, Hu, app_nil_r.
  - now rewrite Hif, Hn.
  - apply Hpk.
Qed.

End CreatePhase.

(** ** ExecLogicalSchema, path by path *)

Section Exec.
Context `{C : Collaborators}.

Lemma run_alters_spec db alters : forall fl st,
  let out := run_alters db alters fl st in
  exists rs,
    Forall2 names alters rs
    /\ trace out.1 = trace st ++ (zip alters rs ≫= alter_events)
    /\ out.2 = fl ++ omap id rs
    /\ shutdownFuncs out.1 = shutdownFuncs st
    /\ shutdownFuncMutex out.1 = shutdownFuncMutex st
    /\ maxOpen out.1 = maxOpen st.
Proof.
  induction alters as [|s alters IH]; intros fl st; simpl.
  - exists []. rewrite !app_nil_r. repeat split. constructor.
  - destruct (execStatement db s (world st)) as [w r] eqn:Hexec.
    destruct (IH (fl ++ option_list r)
                (emit (EvExecDone Main Normal s r)
                   (set_world w (emit (EvExecStart Main Normal s) st))))
      as (rs & Hn & Htr & Hfl & Hf & Hm & Hmo).
    exists (r :: rs). repeat split; try assumption.
    + constructor; [|exact Hn]. intros se ->.
      eapply execStatement_Statement. now rewrite Hexec.
    + rewrite Htr. simpl. now rewrite <- !app_assoc.
    + rewrite Hfl, <- app_assoc. f_equal. now destruct r.
Qed.

(** The three ways [exec_in_workspace] can go: the first pool cannot be
    obtained, the second cannot, or both phases run and the schema is
    introspected. *)
Lemma exec_in_workspace_cases sched ls ws st :
  let out := exec_in_workspace sched ls ws st in
  (exists err,
     out.2 = (None, Some (cannot_connect err))
     /\ trace out.1 = trace st ++ [EvConnectionPool "" (Some err)])
  \/ (exists err,
     out.2 = (None, Some (cannot_connect err))
     /\ trace out.1 = trace st ++ [EvConnectionPool "" None;
                                   EvConnectionPool "sql_mode=@@GLOBAL.sql_mode" (Some err)])
  \/ (exists cre rs schema ierr,
     out.2 = (Some {| Schema_ := schema; LogicalSchema_ := ls;
                      Failures := omap id (received cre) ++ omap id rs |}, ierr)
     /\ trace out.1 = trace st
          ++ [EvConnectionPool "" None; EvConnectionPool "sql_mode=@@GLOBAL.sql_mode" None;
              EvSetMaxOpenConns Normal 10; EvSetMaxOpenConns Remember 10]
          ++ cre ++ [EvClose] ++ (zip (Alters ls) rs ≫= alter_events)
          ++ [EvIntrospectSchema ierr; EvSetMaxOpenConns Remember 0;
              EvSetMaxOpenConns Normal 0]
     /\ create_phase_ok (Creates ls) cre
     /\ Forall2 names (Alters ls) rs).
Proof.
  unfold exec_in_workspace.
  destruct (ConnectionPool ws "" (world st)) as [w1 [db|err]]; simpl.
  2: { left. exists err. easy. }
  destruct (ConnectionPool ws _ w1) as [w2 [dbRemember|err]]; simpl.
  2: { right. left. exists err. rewrite <- app_assoc. easy. }
  right. right.
  set (st2 := SetMaxOpenConns Remember 10 (SetMaxOpenConns Normal 10 _)).
  assert (Hlim : forall pool, maxOpen st2 pool = 10) by (now intros []).
  destruct (create_phase_spec db dbRemember (Creates ls) st2 Hlim sched)
    as (cre & Htr & Hf & Hm & Hmo & Hph & Hsub & Hok & Hex & Hres & Hfl & Hcap).
  set (cst := run_goroutines _ _ _ _ _) in *.
  pose proof (run_alters_spec db (Alters ls) (failures cst) (emit EvClose (base cst)))
    as (rs & Hn & Htr' & Hfl' & _).
  destruct (run_alters db (Alters ls) (failures cst) (emit EvClose (base cst)))
    as [st3 fl]. simpl in *.
  destruct (IntrospectSchema ws (world st3)) as [w4 [schema ierr]]. simpl.
  exists cre, rs, schema, ierr. repeat split; try assumption.
  - now rewrite Hfl', Hfl.
  - rewrite Htr', Htr. unfold st2. simpl. rewrite <- !app_assoc. reflexivity.
  - apply Hcap.
  - apply Hcap.
Qed.

(** The five ways [ExecLogicalSchema] can go. *)
Lemma ExecLogicalSchema_cases sched ls opts st :
  let out := ExecLogicalSchema sched ls opts st in
  let o := merge_charset ls opts in
  (exists e,
     (New o (world st)).2.2 = Some e
     /\ out.2 = Returned None (Some e)
     /\ trace out.1 = trace st ++ [EvNew o (Some e)])
  \/ ((New o (world st)).2 = (None, None)
     /\ out.2 = Panicked
     /\ trace out.1 = trace st ++ [EvNew o None])
  \/ (exists ws err cerr,
     (New o (world st)).2 = (Some ws, None)
     /\ out.2 = Returned None (Some (cannot_connect err))
     /\ trace out.1 = trace st ++ [EvNew o None; EvConnectionPool "" (Some err);
                                   EvCleanup cerr])
  \/ (exists ws err cerr,
     (New o (world st)).2 = (Some ws, None)
     /\ out.2 = Returned None (Some (cannot_connect err))
     /\ trace out.1 = trace st ++ [EvNew o None; EvConnectionPool "" None;
                                   EvConnectionPool "sql_mode=@@GLOBAL.sql_mode" (Some err);
                                   EvCleanup cerr])
  \/ (exists ws cre rs schema ierr cerr,
     (New o (world st)).2 = (Some ws, None)
     /\ out.2 = Returned
                  (Some {| Schema_ := schema; LogicalSchema_ := ls;
                           Failures := omap id (received cre) ++ omap id rs |})
                  (match ierr with None => cerr | Some _ => ierr end)
     /\ trace out.1 = trace st
          ++ [EvNew o None; EvConnectionPool "" None;
              EvConnectionPool "sql_mode=@@GLOBAL.sql_mode" None;
              EvSetMaxOpenConns Normal 10; EvSetMaxOpenConns Remember 10]
          ++ cre ++ [EvClose] ++ (zip (Alters ls) rs ≫= alter_events)
          ++ [EvIntrospectSchema ierr; EvSetMaxOpenConns Remember 0;
              EvSetMaxOpenConns Normal 0; EvCleanup cerr]
     /\ create_phase_ok (Creates ls) cre
     /\ Forall2 names (Alters ls) rs).
Proof.
  unfold ExecLogicalSchema.
  destruct (New (merge_charset ls opts) (world st)) as [w [ws [e|]]]; simpl.
  { left. exists e. easy. }
  destruct ws as [ws|]; simpl.
  2: { right. left. easy. }
  right. right.
  set (st1 := emit _ (set_world w st)).
  pose proof (exec_in_workspace_cases sched ls ws st1) as Hcases.
  destruct (exec_in_workspace sched ls ws st1) as [st2 [wsSchema fatalErr]].
  simpl in Hcases.
  destruct (Cleanup ws (world st2)) as [w3 cerr]. simpl.
  destruct Hcases as [(err & [= -> ->] & Htr) | [(err & [= -> ->] & Htr)
    | (cre & rs & schema & ierr & [= -> ->] & Htr & Hok & Hn)]].
  - left. exists ws, err, cerr. rewrite Htr. unfold st1. simpl.
    rewrite <- !app_assoc. easy.
  - right. left. exists ws, err, cerr. rewrite Htr. unfold st1. simpl.
    rewrite <- !app_assoc. easy.
  - right. right. exists ws, cre, rs, schema, ierr, cerr. rewrite Htr. unfold st1. simpl.
    split; [reflexivity|]. split; [reflexivity|]. split; [|easy].
    repeat (rewrite <- app_assoc; simpl). reflexivity.
Qed.

End Exec.

(** ** Projections of the trace of a run *)

Section Projections.
Context `{U : Universe}.

Lemma fatal_events_app (a b : list Event) :
  fatal_events (a ++ b) = fatal_events a ++ fatal_events b.
Proof. apply omap_app. Qed.

Lemma executions_app (a b : list Event) :
  executions (a ++ b) = executions a ++ executions b.
Proof. apply omap_app. Qed.

Lemma received_app (a b : list Event) : received (a ++ b) = received a ++ received b.
Proof. apply omap_app. Qed.

Lemma submitted_app (a b : list Event) : submitted (a ++ b) = submitted a ++ submitted b.
Proof. apply omap_app. Qed.

Lemma forallb_impl {A} (f g : A -> bool) (l : list A) :
  (forall x, f x = true -> g x = true) -> forallb f l = true -> forallb g l = true.
Proof.
  intros Hfg. induction l as [|x l IH]; simpl; [easy|].
  intros [Hx Hl]%andb_true_iff. now rewrite (Hfg _ Hx), IH.
Qed.

Lemma create_events_quiet (cre : list Event) :
  forallb create_phase_event cre = true ->
  fatal_events cre = []
  /\ existsb is_cleanup cre = false
  /\ forallb (fun e => negb (is_main_exec e)) cre = true.
Proof.
  induction cre as [|e cre IH]; [easy|]. simpl.
  intros [He Hc]%andb_true_iff. destruct (IH Hc) as (IH1 & IH2 & IH3).
  unfold fatal_events in *. simpl. rewrite IH2, IH3.
  destruct e as [| | | | [] | [] | | | | | | | | ]; try discriminate; easy.
Qed.

Lemma alter_events_quiet (l : list (Statement * option StatementError)) :
  fatal_events (l ≫= alter_events) = []
  /\ existsb is_cleanup (l ≫= alter_events) = false
  /\ executions (l ≫= alter_events) = alter_execution <$> l
  /\ received (l ≫= alter_events) = []
  /\ submitted (l ≫= alter_events) = []
  /\ forall pool, in_flight pool (l ≫= alter_events) = 0.
Proof.
  induction l as [|[s r] l (IH1 & IH2 & IH3 & IH4 & IH5 & IH6)]; [easy|].
  csimpl. unfold fatal_events, executions, received, submitted in *. simpl.
  rewrite IH1, IH2, IH3, IH4, IH5. repeat split.
  intros pool. unfold in_flight in *. simpl. rewrite IH6.
  destruct (decide (Normal = pool)); lia.
Qed.

Lemma omap_id_fmap {A B} (f : A -> option B) (l : list A) :
  omap id (f <$> l) = omap f l.
Proof. induction l as [|x l IH]; csimpl; [easy|]. now rewrite IH. Qed.

Lemma Forall2_names_zip alters rs :
  Forall2 names alters rs ->
  ex_stmt <$> (alter_execution <$> zip alters rs) = alters
  /\ ex_result <$> (alter_execution <$> zip alters rs) = rs
  /\ Forall (fun x => names (ex_stmt x) (ex_result x)) (alter_execution <$> zip alters rs)
  /\ Forall (fun x => ex_who x = Main) (alter_execution <$> zip alters rs).
Proof.
  induction 1 as [|s r alters rs Hn _ (IH1 & IH2 & IH3 & IH4)]; csimpl.
  - repeat split; constructor.
  - rewrite IH1, IH2. repeat split; constructor; assumption || reflexivity.
Qed.

End Projections.

(** ** The calls of db.Exec behind a run *)

Section Chain.
Context `{C : Collaborators}.

Lemma execStatement_spec db statement w :
  execStatement db statement w
  = ((DB_Exec db (Body statement) w).1,
     statement_result statement (DB_Exec db (Body statement) w).2).
Proof.
  unfold execStatement, statement_result.
  now destruct (DB_Exec db (Body statement) w) as [w' [err|]].
Qed.

Lemma route_pool_of db dbRemember statement :
  match pool_of statement with Normal => db | Remember => dbRemember end
  = route db dbRemember statement.
Proof.
  unfold route. pose proof (pool_of_spec statement) as Hspec.
  destruct (String.eqb_spec (ObjectType statement) tengo.ObjectTypeFunc) as [Hf|Hf]; simpl.
  { now rewrite (proj2 Hspec (or_introl Hf)). }
  destruct (String.eqb_spec (ObjectType statement) tengo.ObjectTypeProc) as [Hp|Hp].
  { now rewrite (proj2 Hspec (or_intror Hp)). }
  destruct (pool_of statement); [reflexivity|].
  destruct (proj1 Hspec eq_refl); contradiction.
Qed.

Lemma exec_seq_length pool_for stmts : forall w,
  length (exec_seq pool_for stmts w).1 = length stmts.
Proof.
  induction stmts as [|s stmts IH]; intros w; simpl; [reflexivity|].
  destruct (DB_Exec (pool_for s) (Body s) w) as [w1 err].
  specialize (IH w1). destruct (exec_seq pool_for stmts w1) as [errs w2]. simpl in *.
  now rewrite IH.
Qed.

Lemma exec_seq_app pool_for stmts1 stmts2 : forall w,
  exec_seq pool_for (stmts1 ++ stmts2) w
  = ((exec_seq pool_for stmts1 w).1
       ++ (exec_seq pool_for stmts2 (exec_seq pool_for stmts1 w).2).1,
     (exec_seq pool_for stmts2 (exec_seq pool_for stmts1 w).2).2).
Proof.
  induction stmts1 as [|s stmts1 IH]; intros w; simpl.
  - now destruct (exec_seq pool_for stmts2 w).
  - destruct (DB_Exec (pool_for s) (Body s) w) as [w1 err]. rewrite IH.
    now destruct (exec_seq pool_for stmts1 w1).
Qed.

Lemma faithful_nil pool_for w : faithful pool_for [] w w.
Proof. now split. Qed.

Lemma faithful_other pool_for evs e w w' :
  execution_of e = None ->
  faithful pool_for evs w w' -> faithful pool_for (evs ++ [e]) w w'.
Proof.
  intros He Hf. unfold faithful in *. unfold executions in *.
  rewrite omap_app. simpl. rewrite He. simpl. now rewrite app_nil_r.
Qed.

Lemma faithful_exec pool_for evs who pool statement w w' :
  faithful pool_for evs w w' ->
  faithful pool_for
    (evs ++ [EvExecDone who pool statement
               (statement_result statement
                  (DB_Exec (pool_for statement) (Body statement) w').2)])
    w (DB_Exec (pool_for statement) (Body statement) w').1.
Proof.
  intros [Hr ->]. unfold faithful in *. unfold executions in *.
  rewrite omap_app. simpl. rewrite !fmap_app. simpl.
  rewrite exec_seq_app. simpl.
  set (r := exec_seq pool_for (ex_stmt <$> omap execution_of evs) w) in *.
  destruct (DB_Exec (pool_for statement) (Body statement) r.2) as [w1 err]. simpl.
  split; [|reflexivity].
  rewrite zip_with_app by (unfold r; now rewrite exec_seq_length).
  now rewrite Hr.
Qed.

(** *** The CREATE phase *)

Section CreateCalls.
Variables (db dbRemember : Pool) (st0 : State).

Local Abbreviation reached evs cst :=
  (trace (base cst) = trace st0 ++ evs
   /\ faithful (route db dbRemember) evs (world st0) (world (base cst))).

Lemma step_calls a evs cst :
  reached evs cst -> exists evs', reached evs' (step db dbRemember a cst).
Proof.
  intros [Htr Hf]. destruct a as [|i|i|i]; simpl.
  - destruct (pending cst) as [|s rest]; [now exists evs|].
    exists (evs ++ [EvGo (length (goroutines cst)) s]). simpl.
    split; [now rewrite Htr, app_assoc | now apply faithful_other].
  - destruct (goroutines cst !! i) as [[s []]|]; try (now exists evs).
    destruct (can_start _ _); [|now exists evs].
    exists (evs ++ [EvExecStart (Goroutine i) (pool_of s) s]). simpl.
    split; [now rewrite Htr, app_assoc | now apply faithful_other].
  - destruct (goroutines cst !! i) as [[s []]|]; try (now exists evs).
    rewrite route_pool_of, execStatement_spec. simpl.
    eexists. split; [rewrite Htr, <- app_assoc; reflexivity|].
    now apply faithful_exec.
  - destruct (goroutines cst !! i) as [[s [| |r|]]|]; try (now exists evs).
    destruct (is_nil (pending cst)); [|now exists evs].
    exists (evs ++ [EvRecv r]). simpl.
    split; [now rewrite Htr, app_assoc | now apply faithful_other].
Qed.

Lemma run_calls fuel : forall sched evs cst,
  reached evs cst -> exists evs', reached evs' (run_goroutines fuel sched db dbRemember cst).
Proof.
  induction fuel as [|fuel IH]; intros sched evs cst Hr; simpl.
  - now exists evs.
  - destruct (enabled cst) as [|a acts]; [now exists evs|].
    destruct (step_calls (default a ((a :: acts) !! (hd 0%nat sched mod length (a :: acts))%nat))
                evs cst Hr) as (evs' & Hr').
    exact (IH _ _ _ Hr').
Qed.

End CreateCalls.

(** *** The ALTER loop *)

Lemma run_alters_calls db alters : forall fl st,
  let out := run_alters db alters fl st in
  let r := exec_seq (fun _ => db) alters (world st) in
  let rs := zip_with statement_result alters r.1 in
  trace out.1 = trace st ++ (zip alters rs ≫= alter_events)
  /\ out.2 = fl ++ omap id rs
  /\ world out.1 = r.2
  /\ Forall2 names alters rs.
Proof.
  induction alters as [|s alters IH]; intros fl st; simpl.
  - rewrite !app_nil_r. repeat split. constructor.
  - rewrite execStatement_spec. simpl.
    destruct (DB_Exec db (Body s) (world st)) as [w err]. simpl.
    specialize (IH (fl ++ option_list (statement_result s err))
                  (emit (EvExecDone Main Normal s (statement_result s err))
                     (set_world w (emit (EvExecStart Main Normal s) st)))).
    simpl in IH.
    destruct (exec_seq (fun _ => db) alters w) as [errs w']. simpl in *.
    destruct IH as (Htr & Hfl & Hw & Hn). repeat split.
    + rewrite Htr. now rewrite <- !app_assoc.
    + rewrite Hfl, <- app_assoc. f_equal. now destruct (statement_result s err).
    + exact Hw.
    + constructor; [|exact Hn]. intros se Hse. unfold statement_result in Hse.
      destruct err; [|discriminate]. now injection Hse as <-.
Qed.

(** *** The whole call *)

(** The path on which both pools are obtained, call by call. *)
Lemma exec_in_workspace_chain sched ls ws st db w1 dbRemember w2 :
  ConnectionPool ws "" (world st) = (w1, inl db) ->
  ConnectionPool ws "sql_mode=@@GLOBAL.sql_mode" w1 = (w2, inl dbRemember) ->
  let out := exec_in_workspace sched ls ws st in
  exists cre,
    let order := ex_stmt <$> executions cre in
    let rc := exec_seq (route db dbRemember) order w2 in
    let ra := exec_seq (fun _ => db) (Alters ls) rc.2 in
    let rs := zip_with statement_result (Alters ls) ra.1 in
    let i := IntrospectSchema ws ra.2 in
    create_phase_ok (Creates ls) cre
    /\ ex_result <$> executions cre = zip_with statement_result order rc.1
    /\ out.2 = (Some {| Schema_ := i.2.1; LogicalSchema_ := ls;
                        Failures := omap id (received cre) ++ omap id rs |}, i.2.2)
    /\ trace out.1 = trace st
         ++ [EvConnectionPool "" None; EvConnectionPool "sql_mode=@@GLOBAL.sql_mode" None;
             EvSetMaxOpenConns Normal 10; EvSetMaxOpenConns Remember 10]
         ++ cre ++ [EvClose] ++ (zip (Alters ls) rs ≫= alter_events)
         ++ [EvIntrospectSchema i.2.2; EvSetMaxOpenConns Remember 0;
             EvSetMaxOpenConns Normal 0]
    /\ world out.1 = i.1
    /\ Forall2 names (Alters ls) rs.
Proof.
  intros Hp1 Hp2. unfold exec_in_workspace. rewrite Hp1. simpl. rewrite Hp2. simpl.
  set (st2 := SetMaxOpenConns Remember 10 (SetMaxOpenConns Normal 10 _)).
  assert (Hlim : forall pool, maxOpen st2 pool = 10) by (now intros []).
  destruct (create_phase_spec db dbRemember (Creates ls) st2 Hlim sched)
    as (cre & Htr & Hf & Hm & Hmo & Hph & Hsub & Hok & Hex & Hres & Hfl & Hcap).
  destruct (run_calls db dbRemember st2 (4 * length (Creates ls)) sched []
              {| base := st2; pending := Creates ls; goroutines := []; failures := [] |})
    as (cre' & Htr' & Hfa & Hw).
  { split; [now rewrite app_nil_r | apply faithful_nil]. }
  set (cst := run_goroutines _ _ _ _ _) in *.
  assert (cre' = cre) as -> by (apply (app_inv_head (trace st2)); congruence).
  exists cre. cbn zeta.
  pose proof (run_alters_calls db (Alters ls) (failures cst) (emit EvClose (base cst)))
    as (Hta & Hfla & Hwa & Hn).
  destruct (run_alters db (Alters ls) (failures cst) (emit EvClose (base cst)))
    as [st3 fl]. simpl in Hta, Hfla, Hwa, Hn.
  change (world st2) with w2 in Hfa, Hw. rewrite Hw in Hwa, Hta, Hfla, Hn.
  rewrite Hwa.
  destruct (IntrospectSchema ws _) as [w4 [schema ierr]] eqn:Hi. simpl.
  split; [|split; [|split; [|split; [|split]]]].
  - repeat split; try assumption; apply Hcap.
  - exact Hfa.
  - now rewrite Hfla, Hfl.
  - rewrite Hta. simpl. rewrite Htr. unfold st2. simpl.
    repeat (rewrite <- app_assoc; simpl). reflexivity.
  - reflexivity.
  - exact Hn.
Qed.

(** What the deferred closure does, on every path. *)
Lemma ExecLogicalSchema_cleanup sched ls opts st ws w :
  New (merge_charset ls opts) (world st) = (w, (Some ws, None)) ->
  let body := exec_in_workspace sched ls ws
                (emit (EvNew (merge_charset ls opts) None) (set_world w st)) in
  let c := Cleanup ws (world body.1) in
  (ExecLogicalSchema sched ls opts st).2
    = Returned body.2.1 (match body.2.2 with None => c.2 | Some e => Some e end)
  /\ trace (ExecLogicalSchema sched ls opts st).1 = trace body.1 ++ [EvCleanup c.2]
  /\ world (ExecLogicalSchema sched ls opts st).1 = c.1.
Proof.
  intros HNew. unfold ExecLogicalSchema. rewrite HNew. simpl.
  destruct (exec_in_workspace _ _ _ _) as [st2 [wsSchema fatalErr]]. simpl.
  destruct (Cleanup ws (world st2)) as [w3 cerr]. simpl.
  now destruct fatalErr.
Qed.

(** The run that returns a schema, call by call: [New], the two pools, the
    CREATE statements in the order in which they finished, the ALTER
    statements, [IntrospectSchema], [Cleanup]. *)
Lemma ExecLogicalSchema_chain sched ls opts st (s : Schema) fatalErr :
  (ExecLogicalSchema sched ls opts st).2 = Returned (Some s) fatalErr ->
  exists ws w0 db w1 dbRemember w2 cre,
    let order := ex_stmt <$> executions cre in
    let rc := exec_seq (route db dbRemember) order w2 in
    let ra := exec_seq (fun _ => db) (Alters ls) rc.2 in
    let rs := zip_with statement_result (Alters ls) ra.1 in
    let i := IntrospectSchema ws ra.2 in
    let c := Cleanup ws i.1 in
    New (merge_charset ls opts) (world st) = (w0, (Some ws, None))
    /\ ConnectionPool ws "" w0 = (w1, inl db)
    /\ ConnectionPool ws "sql_mode=@@GLOBAL.sql_mode" w1 = (w2, inl dbRemember)
    /\ create_phase_ok (Creates ls) cre
    /\ ex_result <$> executions cre = zip_with statement_result order rc.1
    /\ s = {| Schema_ := i.2.1; LogicalSchema_ := ls;
              Failures := omap id (received cre) ++ omap id rs |}
    /\ fatalErr = match i.2.2 with None => c.2 | Some e => Some e end
    /\ trace (ExecLogicalSchema sched ls opts st).1 = trace st
         ++ [EvNew (merge_charset ls opts) None; EvConnectionPool "" None;
             EvConnectionPool "sql_mode=@@GLOBAL.sql_mode" None;
             EvSetMaxOpenConns Normal 10; EvSetMaxOpenConns Remember 10]
         ++ cre ++ [EvClose] ++ (zip (Alters ls) rs ≫= alter_events)
         ++ [EvIntrospectSchema i.2.2; EvSetMaxOpenConns Remember 0;
             EvSetMaxOpenConns Normal 0; EvCleanup c.2]
    /\ world (ExecLogicalSchema sched ls opts st).1 = c.1
    /\ Forall2 names (Alters ls) rs.
Proof.
  intros Hout.
  destruct (New (merge_charset ls opts) (world st)) as [w0 [[ws|] [e|]]] eqn:HNew;
    try (unfold ExecLogicalSchema in Hout; rewrite HNew in Hout; discriminate Hout).
  destruct (ExecLogicalSchema_cleanup sched ls opts st ws w0 HNew) as (Ho & Htr & Hw).
  rewrite Ho in Hout.
  set (st1 := emit (EvNew (merge_charset ls opts) None) (set_world w0 st)) in *.
  destruct (ConnectionPool ws "" w0) as [w1 [db|err]] eqn:Hp1.
  2: { unfold exec_in_workspace in Hout. change (world st1) with w0 in Hout.
       rewrite Hp1 in Hout. discriminate Hout. }
  destruct (ConnectionPool ws "sql_mode=@@GLOBAL.sql_mode" w1) as [w2 [dbRemember|err]] eqn:Hp2.
  2: { unfold exec_in_workspace in Hout. change (world st1) with w0 in Hout.
       rewrite Hp1 in Hout. simpl in Hout. rewrite Hp2 in Hout. discriminate Hout. }
  destruct (exec_in_workspace_chain sched ls ws st1 db w1 dbRemember w2 Hp1 Hp2)
    as (cre & Hok & Hres & Hbody & Htrb & Hwb & Hn).
  exists ws, w0, db, w1, dbRemember, w2, cre. cbn zeta in *.
  rewrite Hbody in Hout. simpl in Hout. injection Hout as Hs Hfe.
  rewrite Hwb in Hw, Htr, Hfe.
  split; [reflexivity|]. split; [exact Hp1|]. split; [exact Hp2|].
  split; [exact Hok|]. split; [exact Hres|]. split; [now symmetry|].
  split; [now symmetry|]. split; [|split; [exact Hw | exact Hn]].
  rewrite Htr, Htrb. unfold st1. simpl.
  repeat (rewrite <- app_assoc; simpl). reflexivity.
Qed.

(** The same, in the form the theorems below use: the events of the run,
    its executions, and the calls of [db.Exec] they stand for. *)
Lemma schema_run_calls sched ls opts st (s : Schema) fatalErr :
  (ExecLogicalSchema sched ls opts st).2 = Returned (Some s) fatalErr ->
  exists ws db dbRemember cre errsC errsA ierr cerr,
    let created := ex_stmt <$> executions cre in
    let rs := zip_with statement_result (Alters ls) errsA in
    db_calls ls opts st (ExecLogicalSchema sched ls opts st).1 s fatalErr
      ws db dbRemember created errsC errsA
    /\ length errsC = length created
    /\ length errsA = length (Alters ls)
    /\ ex_result <$> executions cre = zip_with statement_result created errsC
    /\ create_phase_ok (Creates ls) cre
    /\ Forall2 names (Alters ls) rs
    /\ Failures s = omap id (received cre) ++ omap id rs
    /\ trace (ExecLogicalSchema sched ls opts st).1 = trace st
         ++ [EvNew (merge_charset ls opts) None; EvConnectionPool "" None;
             EvConnectionPool "sql_mode=@@GLOBAL.sql_mode" None;
             EvSetMaxOpenConns Normal 10; EvSetMaxOpenConns Remember 10]
         ++ cre ++ [EvClose] ++ (zip (Alters ls) rs ≫= alter_events)
         ++ [EvIntrospectSchema ierr; EvSetMaxOpenConns Remember 0;
             EvSetMaxOpenConns Normal 0; EvCleanup cerr]
    /\ fatalErr = match ierr with None => cerr | Some e => Some e end.
Proof.
  intros Hout.
  destruct (ExecLogicalSchema_chain _ _ _ _ _ _ Hout)
    as (ws & w0 & db & w1 & dbRemember & w2 & cre & HNew & Hp1 & Hp2 & Hok & Hres
        & Hs & Hfe & Htr & Hw & Hn).
  cbn zeta in *.
  eexists ws, db, dbRemember, cre, _, _, _, _.
  split; [exists w0, w1, w2; cbn zeta; repeat split; try eassumption; try reflexivity|].
  { now rewrite Hs. }
  split; [apply exec_seq_length|]. split; [apply exec_seq_length|].
  split; [exact Hres|]. split; [exact Hok|]. split; [exact Hn|].
  split; [now rewrite Hs|]. split; [exact Htr | exact Hfe].
Qed.

Lemma statement_results_failed stmts : forall errs : list (option error),
  length errs = length stmts ->
  length (omap id (zip_with statement_result stmts errs)) = length (filter is_Some errs).
Proof.
  induction stmts as [|s stmts IH]; intros [|err errs] Hlen; try discriminate; [reflexivity|].
  injection Hlen as Hlen. csimpl. destruct err as [e|]; csimpl.
  - now rewrite IH.
  - rewrite filter_cons_False by (intros [? ?]; discriminate). now apply IH.
Qed.

(** The results of two lists of calls, put end to end. *)
Lemma statement_results_app stmts1 stmts2 (errs1 errs2 : list (option error)) :
  length errs1 = length stmts1 ->
  zip_with statement_result (stmts1 ++ stmts2) (errs1 ++ errs2)
  = zip_with statement_result stmts1 errs1 ++ zip_with statement_result stmts2 errs2.
Proof. intros Hlen. now apply zip_with_app. Qed.

End Chain.

(** ** The claims about ExecLogicalSchema *)

(** C2.  Unless [New] hands back a nil workspace without an error,
    [ExecLogicalSchema] returns.  Its fatal error is the first of the errors
    of [New], of the two [ConnectionPool] calls, of [IntrospectSchema] and of
    [Cleanup], hence nil when none of them fails, whatever the statements
    did.  When it returns a schema, every CREATE and every ALTER statement
    was executed exactly once, each error an execution returned names its
    statement, and [Failures] holds exactly the errors the executions
    returned, one per failed execution.  The executions are the calls of
    [db.Exec]: on the pools the workspace gave, the CREATE statements in the
    order in which they finished and then the ALTER statements, each call in
    the world the one before left; what an execution returned is what
    [execStatement] makes of what its call returned, so that [Failures] has
    one entry for each call that returned an error and none for the others;
    and the fatal error is that of [IntrospectSchema] or else of [Cleanup],
    called after the last statement. *)
Theorem Failures_one_per_failed_statement `{Collaborators}
    (sched : list nat) (ls : LogicalSchema) (opts : Options) (st : State) :
  (New (merge_charset ls opts) (world st)).2 <> (None, None) ->
  exists wsSchema fatalErr evs,
    (ExecLogicalSchema sched ls opts st).2 = Returned wsSchema fatalErr
    /\ trace (ExecLogicalSchema sched ls opts st).1 = trace st ++ evs
    /\ fatalErr = head (fatal_events evs)
    /\ (fatal_events evs = [] -> fatalErr = None /\ wsSchema <> None)
    /\ forall s, wsSchema = Some s ->
         ex_stmt <$> executions evs ≡ₚ Creates ls ++ Alters ls
         /\ Forall (fun x => names (ex_stmt x) (ex_result x)) (executions evs)
         /\ Failures s ≡ₚ omap ex_result (executions evs)
         /\ Statement_ <$> Failures s ≡ₚ failed_statements (executions evs)
         /\ exists ws db dbRemember created errsC errsA,
              db_calls ls opts st (ExecLogicalSchema sched ls opts st).1 s fatalErr
                ws db dbRemember created errsC errsA
              /\ created ≡ₚ Creates ls
              /\ length errsC = length created
              /\ length errsA = length (Alters ls)
              /\ ex_stmt <$> executions evs = created ++ Alters ls
              /\ ex_result <$> executions evs
                 = zip_with statement_result (created ++ Alters ls) (errsC ++ errsA)
              /\ Failures s
                 ≡ₚ omap id (zip_with statement_result (created ++ Alters ls)
                               (errsC ++ errsA))
              /\ length (Failures s) = length (filter is_Some (errsC ++ errsA)).
Proof.
  intros HNew.
  destruct (ExecLogicalSchema_cases sched ls opts st) as
    [(e & _ & Ho & Htr) | [(Hnil & _) | [(ws & err & cerr & _ & Ho & Htr)
    | [(ws & err & cerr & _ & Ho & Htr)
    | (ws0 & cre0 & rs0 & schema0 & ierr0 & cerr0 & _ & Ho & _)]]]];
    try (now destruct HNew).
  1-3: eexists _, _, _; (split; [exact Ho|]); (split; [exact Htr|]);
       simpl; repeat split; discriminate.
  assert (Ho' : exists s0 fe0, (ExecLogicalSchema sched ls opts st).2 = Returned (Some s0) fe0)
    by eauto.
  clear ws0 cre0 rs0 schema0 ierr0 cerr0 Ho. destruct Ho' as (s0 & fe0 & Ho).
  destruct (schema_run_calls _ _ _ _ _ _ Ho)
    as (ws & db & dbRemember & cre & errsC & errsA & ierr & cerr & Hcalls & HlenC & HlenA
        & Hresc & Hok & Hn & Hfail0 & Htr & Hfe).
  cbn zeta in *. set (rs := zip_with statement_result (Alters ls) errsA) in *.
  subst fe0.
  eexists _, _, _. split; [exact Ho|]. split; [exact Htr|].
  destruct Hok as (Hph & _ & Hxok & Hex & Hres & _).
  destruct (create_events_quiet _ Hph) as (Hfc & _).
  destruct (alter_events_quiet (zip (Alters ls) rs)) as (Hfa & _ & Hxa & _).
  destruct (Forall2_names_zip _ _ Hn) as (Hz1 & Hz2 & Hz3 & _).
  assert (Hfev : fatal_events
            ([EvNew (merge_charset ls opts) None; EvConnectionPool "" None;
              EvConnectionPool "sql_mode=@@GLOBAL.sql_mode" None;
              EvSetMaxOpenConns Normal 10; EvSetMaxOpenConns Remember 10]
             ++ cre ++ [EvClose] ++ (zip (Alters ls) rs ≫= alter_events)
             ++ [EvIntrospectSchema ierr; EvSetMaxOpenConns Remember 0;
                 EvSetMaxOpenConns Normal 0; EvCleanup cerr])
          = option_list ierr ++ option_list cerr).
  { rewrite !fatal_events_app, Hfc, Hfa. unfold fatal_events. simpl.
    now destruct ierr, cerr. }
  rewrite Hfev. split; [now destruct ierr, cerr|]. split.
  { destruct ierr, cerr; try discriminate. easy. }
  assert (Hxe : executions
            ([EvNew (merge_charset ls opts) None; EvConnectionPool "" None;
              EvConnectionPool "sql_mode=@@GLOBAL.sql_mode" None;
              EvSetMaxOpenConns Normal 10; EvSetMaxOpenConns Remember 10]
             ++ cre ++ [EvClose] ++ (zip (Alters ls) rs ≫= alter_events)
             ++ [EvIntrospectSchema ierr; EvSetMaxOpenConns Remember 0;
                 EvSetMaxOpenConns Normal 0; EvCleanup cerr])
          = executions cre ++ (alter_execution <$> zip (Alters ls) rs)).
  { rewrite !executions_app, Hxa.
    change (executions [EvIntrospectSchema ierr; EvSetMaxOpenConns Remember 0;
                        EvSetMaxOpenConns Normal 0; EvCleanup cerr])
      with (@nil Execution).
    now rewrite app_nil_r. }
  intros s [= <-]. rewrite Hfail0, Hxe.
  assert (Hall : Forall (fun x => names (ex_stmt x) (ex_result x)) (executions cre)).
  { eapply Forall_impl; [exact Hxok|]. now intros x (_ & _ & Hx). }
  assert (Hfail : omap id (received cre) ++ omap id rs
                  ≡ₚ omap ex_result (executions cre ++ (alter_execution <$> zip (Alters ls) rs))).
  { rewrite omap_app, <- Hres, !omap_id_fmap, <- (omap_id_fmap ex_result (_ <$> _)), Hz2.
    reflexivity. }
  assert (Hnames : Forall (fun x => names (ex_stmt x) (ex_result x))
                     (executions cre ++ (alter_execution <$> zip (Alters ls) rs)))
    by now apply Forall_app.
  assert (Hresults : ex_result <$> executions cre ++ (alter_execution <$> zip (Alters ls) rs)
                     = zip_with statement_result ((ex_stmt <$> executions cre) ++ Alters ls)
                         (errsC ++ errsA)).
  { rewrite fmap_app, Hz2, Hresc. symmetry. now apply statement_results_app. }
  split; [now rewrite fmap_app, Hex, Hz1|]. split; [exact Hnames|].
  split; [exact Hfail|]. split.
  { rewrite Hfail. unfold failed_statements. revert Hnames.
    generalize (executions cre ++ (alter_execution <$> zip (Alters ls) rs)).
    intros xs Hxs. induction Hxs as [|x xs Hx _ IH]; [reflexivity|]. csimpl.
    destruct (ex_result x) as [se|] eqn:Hr; csimpl; [|exact IH].
    now rewrite (Hx se eq_refl), IH. }
  exists ws, db, dbRemember, (ex_stmt <$> executions cre), errsC, errsA.
  split; [exact Hcalls|]. split; [exact Hex|]. split; [exact HlenC|]. split; [exact HlenA|].
  split; [now rewrite fmap_app, Hz1|]. split; [exact Hresults|].
  assert (Hperm : omap id (received cre) ++ omap id rs
                  ≡ₚ omap id (zip_with statement_result
                                ((ex_stmt <$> executions cre) ++ Alters ls) (errsC ++ errsA))).
  { rewrite Hfail, <- Hresults, omap_id_fmap. reflexivity. }
  split; [exact Hperm|].
  rewrite Hperm. apply statement_results_failed.
  now rewrite !length_app, HlenC, HlenA.
Qed.

Lemma Failures_one_per_failed_statement_witness :
  (New (merge_charset Sim.schema_example Sim.options_example)
     (world Sim.state_example)).2 <> (None, None)
  /\ exists evs s (errs : list (option error)),
       trace Sim.run_example.1 = evs
       /\ Sim.run_example.2 = Returned (Some s) None
       /\ Statement_ <$> Failures s ≡ₚ failed_statements (executions evs)
       /\ length (Failures s) = length (filter is_Some errs).
Proof.
  assert (HNew : (New (merge_charset Sim.schema_example Sim.options_example)
                    (world Sim.state_example)).2 <> (None, None))
    by (vm_compute; discriminate).
  split; [exact HNew|].
  destruct (@Failures_one_per_failed_statement Sim.sim_universe Sim.sim_collaborators
              Sim.schedule_example Sim.schema_example Sim.options_example
              Sim.state_example HNew)
    as (wsSchema & fatalErr & evs & Hout & Htr & Hf & Hnil & Hs).
  destruct wsSchema as [s|]; [|vm_compute in Hout; discriminate Hout].
  destruct fatalErr as [e|]; [vm_compute in Hout; discriminate Hout|].
  destruct (Hs s eq_refl)
    as (_ & _ & _ & Hfs & ws & db & dbRemember & created & errsC & errsA & Hrest).
  exists evs, s, (errsC ++ errsA). split; [exact Htr|]. split; [exact Hout|].
  split; [exact Hfs|]. exact (proj2 (proj2 (proj2 (proj2 (proj2 (proj2 (proj2 Hrest))))))).
Defined.

(** C3.  Once [New] has produced a workspace, [ExecLogicalSchema] returns,
    and on every path [Cleanup] is called exactly once, as the last thing
    done.  The fatal error returned is the first fatal error that occurred
    before [Cleanup], if there is one, and the error of [Cleanup]
    otherwise.  The call is the workspace's own [Cleanup], made in the world
    in which the rest of the function (the two pools, the statements, the
    introspection: [body]) ended, whichever way it ended: the error recorded
    is the one that call returns, the world the function leaves is the one
    that call leaves, and the earlier fatal error is the one [body] set. *)
Theorem Cleanup_runs_last_and_yields `{Collaborators}
    (sched : list nat) (ls : LogicalSchema) (opts : Options) (st : State)
    (ws : Workspace) (w : World) :
  New (merge_charset ls opts) (world st) = (w, (Some ws, None)) ->
  let body := exec_in_workspace sched ls ws
                (emit (EvNew (merge_charset ls opts) None) (set_world w st)) in
  let c := Cleanup ws (world body.1) in
  exists wsSchema fatalErr evs cleanupErr,
    (ExecLogicalSchema sched ls opts st).2 = Returned wsSchema fatalErr
    /\ trace (ExecLogicalSchema sched ls opts st).1 = trace st ++ evs ++ [EvCleanup cleanupErr]
    /\ existsb is_cleanup evs = false
    /\ fatalErr = match head (fatal_events evs) with
                  | Some earlier => Some earlier
                  | None => cleanupErr
                  end
    /\ cleanupErr = c.2
    /\ world (ExecLogicalSchema sched ls opts st).1 = c.1
    /\ trace body.1 = trace st ++ evs
    /\ head (fatal_events evs) = body.2.2
    /\ wsSchema = body.2.1.
Proof.
  intros HNew body c.
  destruct (ExecLogicalSchema_cleanup sched ls opts st ws w HNew) as (Ho & Htr & Hw).
  fold body in Ho, Htr, Hw. fold c in Ho, Htr, Hw.
  pose proof (exec_in_workspace_cases sched ls ws
                (emit (EvNew (merge_charset ls opts) None) (set_world w st))) as Hcases.
  fold body in Hcases. cbn zeta in Hcases.
  change (trace (emit (EvNew (merge_charset ls opts) None) (set_world w st)))
    with (trace st ++ [EvNew (merge_charset ls opts) None]) in Hcases.
  destruct Hcases as [(err & Hb & Htb) | [(err & Hb & Htb)
    | (cre & rs & schema & ierr & Hb & Htb & Hok & Hn)]].
  - exists body.2.1, (match body.2.2 with None => c.2 | Some e => Some e end),
      [EvNew (merge_charset ls opts) None; EvConnectionPool "" (Some err)], c.2.
    rewrite Htr, Htb, Hb in *. rewrite <- !app_assoc. simpl. repeat split; easy.
  - exists body.2.1, (match body.2.2 with None => c.2 | Some e => Some e end),
      [EvNew (merge_charset ls opts) None; EvConnectionPool "" None;
       EvConnectionPool "sql_mode=@@GLOBAL.sql_mode" (Some err)], c.2.
    rewrite Htr, Htb, Hb in *. rewrite <- !app_assoc. simpl. repeat split; easy.
  - destruct Hok as (Hph & _).
    destruct (create_events_quiet _ Hph) as (Hfc & Hcc & _).
    destruct (alter_events_quiet (zip (Alters ls) rs)) as (Hfa & Hca & _).
    exists body.2.1, (match body.2.2 with None => c.2 | Some e => Some e end),
      ([EvNew (merge_charset ls opts) None; EvConnectionPool "" None;
        EvConnectionPool "sql_mode=@@GLOBAL.sql_mode" None;
        EvSetMaxOpenConns Normal 10; EvSetMaxOpenConns Remember 10]
       ++ cre ++ [EvClose] ++ (zip (Alters ls) rs ≫= alter_events)
       ++ [EvIntrospectSchema ierr; EvSetMaxOpenConns Remember 0;
           EvSetMaxOpenConns Normal 0]), c.2.
    assert (Hfe : fatal_events
              ([EvNew (merge_charset ls opts) None; EvConnectionPool "" None;
                EvConnectionPool "sql_mode=@@GLOBAL.sql_mode" None;
                EvSetMaxOpenConns Normal 10; EvSetMaxOpenConns Remember 10]
               ++ cre ++ [EvClose] ++ (zip (Alters ls) rs ≫= alter_events)
               ++ [EvIntrospectSchema ierr; EvSetMaxOpenConns Remember 0;
                   EvSetMaxOpenConns Normal 0])
            = option_list ierr).
    { rewrite !fatal_events_app, Hfc, Hfa. unfold fatal_events. simpl.
      now destruct ierr. }
    assert (Htb' : trace body.1 = trace st
              ++ [EvNew (merge_charset ls opts) None; EvConnectionPool "" None;
                  EvConnectionPool "sql_mode=@@GLOBAL.sql_mode" None;
                  EvSetMaxOpenConns Normal 10; EvSetMaxOpenConns Remember 10]
              ++ cre ++ [EvClose] ++ (zip (Alters ls) rs ≫= alter_events)
              ++ [EvIntrospectSchema ierr; EvSetMaxOpenConns Remember 0;
                  EvSetMaxOpenConns Normal 0]).
    { rewrite Htb. repeat (rewrite <- app_assoc; simpl). reflexivity. }
    rewrite Hfe. split; [exact Ho|]. split; [now rewrite Htr, Htb', <- app_assoc|].
    split; [rewrite !existsb_app, Hcc, Hca; reflexivity|].
    rewrite Hb. simpl. repeat split; try easy; now destruct ierr.
Qed.

Lemma Cleanup_runs_last_and_yields_witness :
  New (merge_charset Sim.schema_example Sim.options_example) (world Sim.state_example)
    = (Sim.world0, (Some Sim.sim_workspace, None))
  /\ exists evs cleanupErr,
       trace Sim.run_example.1 = evs ++ [EvCleanup cleanupErr]
       /\ existsb is_cleanup evs = false
       /\ Sim.cleanups (world Sim.run_example.1) = 1%nat.
Proof.
  assert (HNew : New (merge_charset Sim.schema_example Sim.options_example) (world Sim.state_example)
                 = (Sim.world0, (Some Sim.sim_workspace, None)))
    by (vm_compute; reflexivity).
  split; [exact HNew|].
  destruct (@Cleanup_runs_last_and_yields Sim.sim_universe Sim.sim_collaborators
              Sim.schedule_example Sim.schema_example Sim.options_example
              Sim.state_example Sim.sim_workspace Sim.world0 HNew)
    as (wsSchema & fatalErr & evs & cerr & _ & Htr & Hc & _ & _ & Hw & _).
  exists evs, cerr. split; [exact Htr|]. split; [exact Hc|].
  rewrite Hw. vm_compute. reflexivity.
Defined.

(** C5, as the code has it.  The options [ExecLogicalSchema] hands to [New]
    carry the logical schema's character set whenever that one is not empty,
    and the caller's [DefaultCharacterSet] otherwise; likewise for the
    collation.  Whether the caller's option was set plays no part.  All other
    fields are the caller's. *)
Theorem ExecLogicalSchema_charset_overrides `{Collaborators}
    (sched : list nat) (ls : LogicalSchema) (opts : Options) (st : State) :
  exists used err evs,
    trace (ExecLogicalSchema sched ls opts st).1 = trace st ++ EvNew used err :: evs
    /\ DefaultCharacterSet used
       = (if String.eqb (CharSet ls) "" then DefaultCharacterSet opts else CharSet ls)
    /\ DefaultCollation used
       = (if String.eqb (Collation ls) "" then DefaultCollation opts else Collation ls)
    /\ Type__ used = Type__ opts
    /\ CleanupAction_ used = CleanupAction_ opts
    /\ Instance used = Instance opts
    /\ Flavor used = Flavor opts
    /\ ContainerName used = ContainerName opts
    /\ SchemaName used = SchemaName opts
    /\ DefaultConnParams used = DefaultConnParams opts
    /\ RootPassword used = RootPassword opts
    /\ PrefabWorkspace used = PrefabWorkspace opts
    /\ LockWaitTimeout used = LockWaitTimeout opts.
Proof.
  assert (Hm : DefaultCharacterSet (merge_charset ls opts)
               = (if String.eqb (CharSet ls) "" then DefaultCharacterSet opts else CharSet ls)
            /\ DefaultCollation (merge_charset ls opts)
               = (if String.eqb (Collation ls) "" then DefaultCollation opts else Collation ls)
            /\ Type__ (merge_charset ls opts) = Type__ opts
            /\ CleanupAction_ (merge_charset ls opts) = CleanupAction_ opts
            /\ Instance (merge_charset ls opts) = Instance opts
            /\ Flavor (merge_charset ls opts) = Flavor opts
            /\ ContainerName (merge_charset ls opts) = ContainerName opts
            /\ SchemaName (merge_charset ls opts) = SchemaName opts
            /\ DefaultConnParams (merge_charset ls opts) = DefaultConnParams opts
            /\ RootPassword (merge_charset ls opts) = RootPassword opts
            /\ PrefabWorkspace (merge_charset ls opts) = PrefabWorkspace opts
            /\ LockWaitTimeout (merge_charset ls opts) = LockWaitTimeout opts).
  { unfold merge_charset.
    destruct (String.eqb (CharSet ls) ""), (String.eqb (Collation ls) ""); easy. }
  destruct (ExecLogicalSchema_cases sched ls opts st) as
    [(e & _ & _ & Htr) | [(_ & _ & Htr) | [(ws & err & cerr & _ & _ & Htr)
    | [(ws & err & cerr & _ & _ & Htr)
    | (ws & cre & rs & schema & ierr & cerr & _ & _ & Htr & _)]]]];
    eexists (merge_charset ls opts), _, _; (split; [exact Htr | exact Hm]).
Qed.

(** C5, as stated, fails: the caller set [DefaultCharacterSet] to latin1,
    the logical schema says utf8mb4, and [New] is called with utf8mb4. *)
Lemma ExecLogicalSchema_set_charset_not_preserved :
  DefaultCharacterSet Sim.options_example = "latin1"
  /\ DefaultCharacterSet <$> options_used (trace Sim.run_example.1) = ["utf8mb4"]
  /\ ~ (DefaultCharacterSet Sim.options_example <> "" ->
        DefaultCharacterSet <$> options_used (trace Sim.run_example.1)
        = [DefaultCharacterSet Sim.options_example]).
Proof.
  split; [reflexivity|]. split; [vm_compute; reflexivity|].
  intros Hclaim. assert (Hset : DefaultCharacterSet Sim.options_example <> "") by discriminate.
  specialize (Hclaim Hset). vm_compute in Hclaim. discriminate Hclaim.
Qed.

(** C6.  When [ExecLogicalSchema] gets as far as returning a schema, the
    statements the caller's own thread executes are the ALTER statements, in
    the order of the logical schema's list, each on the normal pool and each
    finished before the next one starts.  When the first of them starts no
    CREATE statement is still executing, and nothing is executed after the
    last.  The normal pool is the one the workspace's [ConnectionPool] gave
    for the empty parameters: the executions are the calls of [db.Exec] on
    that pool, one for each ALTER statement in the order of the list, the
    first in the world the CREATE statements left and each later one in the
    world the one before left, and what each execution returned is what
    [execStatement] makes of what its call returned. *)
Theorem Alters_run_one_by_one_in_order `{Collaborators}
    (sched : list nat) (ls : LogicalSchema) (opts : Options) (st : State)
    (wsSchema : Schema) (fatalErr : option error) :
  (ExecLogicalSchema sched ls opts st).2 = Returned (Some wsSchema) fatalErr ->
  exists pre rs post,
    trace (ExecLogicalSchema sched ls opts st).1
      = trace st ++ pre ++ (zip (Alters ls) rs ≫= alter_events) ++ post
    /\ length rs = length (Alters ls)
    /\ forallb (fun e => negb (is_main_exec e)) pre = true
    /\ (forall pool, in_flight pool pre = 0)
    /\ forallb (fun e => negb (is_exec e)) post = true
    /\ exists ws db dbRemember created errsC errsA,
         db_calls ls opts st (ExecLogicalSchema sched ls opts st).1 wsSchema fatalErr
           ws db dbRemember created errsC errsA
         /\ created = ex_stmt <$> executions pre
         /\ created ≡ₚ Creates ls
         /\ length errsA = length (Alters ls)
         /\ rs = zip_with statement_result (Alters ls) errsA.
Proof.
  intros Hout.
  destruct (schema_run_calls _ _ _ _ _ _ Hout)
    as (ws & db & dbRemember & cre & errsC & errsA & ierr & cerr & Hcalls & HlenC & HlenA
        & Hresc & Hok & Hn & Hfail0 & Htr & Hfe).
  cbn zeta in *. set (rs := zip_with statement_result (Alters ls) errsA) in *.
  destruct Hok as (Hph & _ & _ & Hex & _ & Hcap).
  destruct (create_events_quiet _ Hph) as (_ & _ & Hmain).
  exists ([EvNew (merge_charset ls opts) None; EvConnectionPool "" None;
           EvConnectionPool "sql_mode=@@GLOBAL.sql_mode" None;
           EvSetMaxOpenConns Normal 10; EvSetMaxOpenConns Remember 10]
          ++ cre ++ [EvClose]), rs,
    [EvIntrospectSchema ierr; EvSetMaxOpenConns Remember 0;
     EvSetMaxOpenConns Normal 0; EvCleanup cerr].
  split; [|split; [|split; [|split; [|split]]]].
  - rewrite Htr. f_equal. repeat (rewrite <- app_assoc; simpl). reflexivity.
  - symmetry. exact (Forall2_length _ _ _ Hn).
  - rewrite !forallb_app, Hmain. reflexivity.
  - intros pool. rewrite !in_flight_app, (proj1 (Hcap pool)). reflexivity.
  - reflexivity.
  - exists ws, db, dbRemember, (ex_stmt <$> executions cre), errsC, errsA.
    split; [exact Hcalls|]. split; [|easy].
    rewrite !executions_app. simpl. now rewrite app_nil_r.
Qed.

Lemma Alters_run_one_by_one_in_order_witness :
  exists s e pre rs post,
    Sim.run_example.2 = Returned (Some s) e
    /\ trace Sim.run_example.1 = pre ++ (zip (Alters Sim.schema_example) rs ≫= alter_events) ++ post
    /\ length rs = 2%nat.
Proof.
  destruct (returned_schema Sim.run_example.2) as [s|] eqn:Hrs;
    [|vm_compute in Hrs; discriminate Hrs].
  assert (Hout : Sim.run_example.2 = Returned (returned_schema Sim.run_example.2)
                                   (returned_error Sim.run_example.2))
    by (vm_compute; reflexivity).
  rewrite Hrs in Hout.
  destruct (@Alters_run_one_by_one_in_order Sim.sim_universe Sim.sim_collaborators
              Sim.schedule_example Sim.schema_example Sim.options_example Sim.state_example
              s (returned_error Sim.run_example.2) Hout)
    as (pre & rs & post & Htr & Hlen & _).
  exists s, (returned_error Sim.run_example.2), pre, rs, post.
  split; [exact Hout|]. split; [exact Htr | exact Hlen].
Defined.

(** C7.  When [ExecLogicalSchema] gets as far as returning a schema, both
    pools have been limited to 10 open connections before the CREATE phase;
    in the phase one goroutine is started for each CREATE statement, each
    statement is executed exactly once, by its goroutine, on the pool that
    remembers the session mode exactly when its object type is a function or
    a procedure and on the normal pool otherwise; at no moment are more than
    10 statements executing on a pool; and the caller receives exactly one
    result per statement, the results of the executions, before it closes
    the channel: nothing is started or received afterwards.  The two pools
    are those the workspace's [ConnectionPool] gave, the normal one for the
    empty parameters and the other for the sql_mode ones: the executions
    are calls of [db.Exec], in the order in which they finished, each on the
    pool [route] gives for its statement and in the world the one before
    left, and what each execution returned is what [execStatement] makes of
    what its call returned. *)
Theorem Creates_run_concurrently_and_are_collected `{Collaborators}
    (sched : list nat) (ls : LogicalSchema) (opts : Options) (st : State)
    (wsSchema : Schema) (fatalErr : option error) :
  (ExecLogicalSchema sched ls opts st).2 = Returned (Some wsSchema) fatalErr ->
  exists cre post,
    trace (ExecLogicalSchema sched ls opts st).1
      = trace st
        ++ [EvNew (merge_charset ls opts) None; EvConnectionPool "" None;
            EvConnectionPool "sql_mode=@@GLOBAL.sql_mode" None;
            EvSetMaxOpenConns Normal 10; EvSetMaxOpenConns Remember 10]
        ++ cre ++ EvClose :: post
    /\ submitted cre = imap pair (Creates ls)
    /\ ex_stmt <$> executions cre ≡ₚ Creates ls
    /\ Forall (fun x =>
         (exists i, ex_who x = Goroutine i /\ Creates ls !! i = Some (ex_stmt x))
         /\ (ex_pool x = Remember
             <-> ObjectType (ex_stmt x) = tengo.ObjectTypeFunc
                 \/ ObjectType (ex_stmt x) = tengo.ObjectTypeProc)
         /\ (ex_pool x = Normal
             <-> ~ (ObjectType (ex_stmt x) = tengo.ObjectTypeFunc
                    \/ ObjectType (ex_stmt x) = tengo.ObjectTypeProc)))
         (executions cre)
    /\ (forall pool, peak pool cre <= 10)
    /\ received cre ≡ₚ ex_result <$> executions cre
    /\ length (received cre) = length (Creates ls)
    /\ submitted post = [] /\ received post = []
    /\ Forall (fun x => ex_who x = Main) (executions post)
    /\ exists ws db dbRemember errsC errsA,
         db_calls ls opts st (ExecLogicalSchema sched ls opts st).1 wsSchema fatalErr
           ws db dbRemember (ex_stmt <$> executions cre) errsC errsA
         /\ length errsC = length (executions cre)
         /\ ex_result <$> executions cre
            = zip_with statement_result (ex_stmt <$> executions cre) errsC
         /\ Forall (fun x =>
              route db dbRemember (ex_stmt x)
              = match ex_pool x with Normal => db | Remember => dbRemember end)
              (executions cre).
Proof.
  intros Hout.
  destruct (schema_run_calls _ _ _ _ _ _ Hout)
    as (ws & db & dbRemember & cre & errsC & errsA & ierr & cerr & Hcalls & HlenC & HlenA
        & Hresc & Hok & Hn & Hfail0 & Htr & Hfe).
  cbn zeta in *. set (rs := zip_with statement_result (Alters ls) errsA) in *.
  destruct Hok as (Hph & Hsub & Hxok & Hex & Hres & Hcap).
  destruct (alter_events_quiet (zip (Alters ls) rs)) as (_ & _ & Hxa & Hra & Hsa & _).
  destruct (Forall2_names_zip _ _ Hn) as (_ & _ & _ & Hmain).
  exists cre, ((zip (Alters ls) rs ≫= alter_events)
               ++ [EvIntrospectSchema ierr; EvSetMaxOpenConns Remember 0;
                   EvSetMaxOpenConns Normal 0; EvCleanup cerr]).
  split; [exact Htr|]. split; [exact Hsub|]. split; [exact Hex|].
  split; [|split; [|split; [|split; [|split; [|split; [|split]]]]]].
  - eapply Forall_impl; [exact Hxok|]. intros x (Hi & Hpool & _).
    split; [exact Hi|]. rewrite Hpool. split; [apply pool_of_spec|].
    rewrite <- pool_of_spec. destruct (pool_of (ex_stmt x)); split; congruence.
  - intros pool. apply Hcap.
  - now symmetry.
  - rewrite <- Hres, length_fmap, <- (length_fmap ex_stmt). now apply Permutation_length.
  - now rewrite submitted_app, Hsa.
  - now rewrite received_app, Hra.
  - rewrite executions_app, Hxa.
    change (executions [EvIntrospectSchema ierr; EvSetMaxOpenConns Remember 0;
                        EvSetMaxOpenConns Normal 0; EvCleanup cerr])
      with (@nil Execution).
    now rewrite app_nil_r.
  - exists ws, db, dbRemember, errsC, errsA.
    split; [exact Hcalls|]. split; [now rewrite HlenC, length_fmap|].
    split; [exact Hresc|].
    eapply Forall_impl; [exact Hxok|]. intros x (_ & Hpool & _).
    rewrite Hpool. symmetry. apply route_pool_of.
Qed.

Lemma Creates_run_concurrently_and_are_collected_witness :
  exists s e cre,
    Sim.run_example.2 = Returned (Some s) e
    /\ submitted cre = imap pair (Creates Sim.schema_example)
    /\ length (received cre) = 3%nat.
Proof.
  destruct (returned_schema Sim.run_example.2) as [s|] eqn:Hrs;
    [|vm_compute in Hrs; discriminate Hrs].
  assert (Hout : Sim.run_example.2 = Returned (returned_schema Sim.run_example.2)
                                   (returned_error Sim.run_example.2))
    by (vm_compute; reflexivity).
  rewrite Hrs in Hout.
  destruct (@Creates_run_concurrently_and_are_collected Sim.sim_universe
              Sim.sim_collaborators
              Sim.schedule_example Sim.schema_example Sim.options_example Sim.state_example
              s (returned_error Sim.run_example.2) Hout)
    as (cre & post & _ & Hsub & _ & _ & _ & _ & Hlen & _).
  exists s, (returned_error Sim.run_example.2), cre.
  split; [exact Hout|]. split; [exact Hsub | exact Hlen].
Defined.

(** ** Further properties of the shutdown registry *)

Section RegistryMore.
Context `{U : Universe}.

Lemma kept_sublist (fs : list ShutdownFunc) : forall rets,
  kept fs rets `sublist_of` fs.
Proof.
  induction fs as [|f fs IH]; intros [|r rets]; try (apply sublist_nil_l).
  rewrite kept_cons. destruct r.
  - apply sublist_cons, IH.
  - apply sublist_skip, IH.
Qed.

Lemma kept_length (fs : list ShutdownFunc) : forall rets,
  length rets = length fs ->
  length (kept fs rets) = length (filter (fun r => r = false) rets).
Proof.
  induction fs as [|f fs IH]; intros [|r rets] Hlen; try discriminate; [reflexivity|].
  rewrite kept_cons. injection Hlen as Hlen. destruct r.
  - rewrite filter_cons_False by discriminate. now apply IH.
  - rewrite filter_cons_True by reflexivity. simpl. now rewrite IH.
Qed.

Lemma call_all_length args (fs : list ShutdownFunc) : forall w,
  length (call_all args fs w).1 = length fs.
Proof.
  induction fs as [|f fs IH]; intros w; simpl; [reflexivity|].
  destruct (f args w) as [w1 r]. specialize (IH w1).
  destruct (call_all args fs w1). simpl in *. now rewrite IH.
Qed.

Lemma call_all_snoc args (fs : list ShutdownFunc) f : forall w,
  call_all args (fs ++ [f]) w
  = ((call_all args fs w).1 ++ [(f args (call_all args fs w).2).2],
     (f args (call_all args fs w).2).1).
Proof.
  induction fs as [|g fs IH]; intros w; simpl.
  - now destruct (f args w).
  - destruct (g args w) as [w1 r]. rewrite IH.
    now destruct (call_all args fs w1).
Qed.

Lemma kept_snoc (fs : list ShutdownFunc) f : forall rets r,
  length rets = length fs ->
  kept (fs ++ [f]) (rets ++ [r]) = kept fs rets ++ (if r then [] else [f]).
Proof.
  induction fs as [|g fs IH]; intros [|r0 rets] r Hlen; try discriminate.
  - simpl. rewrite kept_cons. now destruct r.
  - injection Hlen as Hlen. simpl. rewrite !kept_cons, IH by assumption.
    now destruct r0.
Qed.

Lemma calls_app (a b : list Event) : calls (a ++ b) = calls a ++ calls b.
Proof. apply omap_app. Qed.

Lemma calls_imap_with args (rets : list bool) : forall g : nat -> nat,
  calls (imap (fun i r => EvCall (g i) args r) rets) = imap (fun i r => (g i, r)) rets.
Proof.
  induction rets as [|r rets IH]; intros g; [reflexivity|].
  rewrite !imap_cons. unfold calls. simpl. f_equal.
  exact (IH (fun i => g (S i))).
Qed.

Lemma calls_imap args (rets : list bool) :
  calls (imap (fun i r => EvCall i args r) rets) = imap pair rets.
Proof. exact (calls_imap_with args rets (fun i => i)). Qed.

(** What a completed [Shutdown] did, in terms of the values the functions
    returned. *)
Lemma Shutdown_spec args (st st' : State) :
  Shutdown args st = Some st' ->
  let rets := (call_all args (shutdownFuncs st) (world st)).1 in
  shutdownFuncMutex st = false
  /\ shutdownFuncs st' = kept (shutdownFuncs st) rets
  /\ world st' = (call_all args (shutdownFuncs st) (world st)).2
  /\ shutdownFuncMutex st' = false
  /\ trace st' = trace st ++ [EvLock] ++ imap (fun i r => EvCall i args r) rets
                 ++ [EvStore (length (kept (shutdownFuncs st) rets)); EvUnlock].
Proof.
  unfold Shutdown, Lock. destruct (shutdownFuncMutex st) eqn:Hfree; [discriminate|]. simpl.
  pose proof (shutdown_loop_spec args (shutdownFuncs st) 0%nat []
                (emit EvLock (set_mutex true st))) as Hloop.
  simpl in Hloop.
  destruct (shutdown_loop args 0 (shutdownFuncs st) []
              (emit EvLock (set_mutex true st))) as [retained st1].
  simpl in Hloop. destruct Hloop as (H1 & H2 & H3 & H4 & _).
  intros [= <-]. simpl. repeat split; try assumption.
  rewrite H2, H1, <- !app_assoc. reflexivity.
Qed.

Lemma Shutdown_returns args (st : State) :
  shutdownFuncMutex st = false -> exists st', Shutdown args st = Some st'.
Proof.
  intros Hfree. unfold Shutdown, Lock. rewrite Hfree. simpl.
  destruct (shutdown_loop _ _ _ _ _). eauto.
Qed.

End RegistryMore.

(** X8.  [Shutdown] never adds to the registry and never reorders it: what
    it leaves is a subsequence of what it found, with one entry for each
    function that returned false.  If every function cleaned up, the registry
    is empty; if none did, it is unchanged. *)
Theorem Shutdown_registry_only_shrinks `{Universe}
    (args : list Any) (st st' : State) :
  Shutdown args st = Some st' ->
  let rets := (call_all args (shutdownFuncs st) (world st)).1 in
  shutdownFuncs st' `sublist_of` shutdownFuncs st
  /\ length (shutdownFuncs st') = length (filter (fun r => r = false) rets)
  /\ (Forall (fun r => r = true) rets -> shutdownFuncs st' = [])
  /\ (Forall (fun r => r = false) rets -> shutdownFuncs st' = shutdownFuncs st).
Proof.
  intros Hs rets. destruct (Shutdown_spec _ _ _ Hs) as (_ & Hk & _).
  fold rets in Hk. rewrite Hk.
  assert (Hlen : length rets = length (shutdownFuncs st)) by apply call_all_length.
  split; [apply kept_sublist|]. split; [now apply kept_length|].
  clearbody rets. clear Hk Hs. revert rets Hlen.
  induction (shutdownFuncs st) as [|f fs IH]; intros [|r rets] Hlen; try discriminate.
  - easy.
  - injection Hlen as Hlen. rewrite kept_cons. destruct (IH rets Hlen) as [IH1 IH2].
    split; intros Hall; inversion Hall as [|? ? Hr Hrest]; subst.
    + now apply IH1.
    + now rewrite IH2.
Qed.

Lemma Shutdown_registry_only_shrinks_witness :
  exists st',
    @Shutdown Sim.sim_universe ["skeema-mysql-8.0"] Sim.registry_example = Some st'
    /\ shutdownFuncs st' `sublist_of` shutdownFuncs Sim.registry_example
    /\ length (shutdownFuncs st') = 1%nat.
Proof.
  destruct (@Shutdown Sim.sim_universe ["skeema-mysql-8.0"] Sim.registry_example)
    as [st'|] eqn:Hs; [|vm_compute in Hs; discriminate Hs].
  exists st'. split; [reflexivity|].
  destruct (@Shutdown_registry_only_shrinks Sim.sim_universe _ _ _ Hs) as (Hsub & Hlen & _).
  split; [exact Hsub|]. rewrite Hlen. reflexivity.
Defined.

(** X9.  A function that reported a cleanup is not called again: with the
    mutex free, two [Shutdown] calls in a row both return, and the second
    calls exactly the functions the first one retained, in order, so that the
    two together make as many calls as there were functions plus functions
    that declined the first time. *)
Theorem Shutdown_twice_calls_retained_only `{Universe}
    (args1 args2 : list Any) (st : State) :
  shutdownFuncMutex st = false ->
  exists st1 st2,
    Shutdown args1 st = Some st1
    /\ Shutdown args2 st1 = Some st2
    /\ let rets1 := (call_all args1 (shutdownFuncs st) (world st)).1 in
       let rets2 := (call_all args2 (shutdownFuncs st1) (world st1)).1 in
       shutdownFuncs st1 = kept (shutdownFuncs st) rets1
       /\ calls (trace st1) = calls (trace st) ++ imap pair rets1
       /\ calls (trace st2) = calls (trace st1) ++ imap pair rets2
       /\ length rets2 = length (filter (fun r => r = false) rets1).
Proof.
  intros Hfree.
  destruct (Shutdown_returns args1 st Hfree) as (st1 & Hs1).
  destruct (Shutdown_spec _ _ _ Hs1) as (_ & Hk1 & Hw1 & Hm1 & Htr1).
  destruct (Shutdown_returns args2 st1 Hm1) as (st2 & Hs2).
  destruct (Shutdown_spec _ _ _ Hs2) as (_ & Hk2 & Hw2 & Hm2 & Htr2).
  exists st1, st2. split; [exact Hs1|]. split; [exact Hs2|]. simpl.
  split; [exact Hk1|]. split; [|split].
  - rewrite Htr1, !calls_app. rewrite calls_imap. simpl.
    now rewrite app_nil_r.
  - rewrite Htr2, !calls_app. rewrite calls_imap. simpl.
    now rewrite app_nil_r.
  - rewrite call_all_length, Hk1. apply kept_length, call_all_length.
Qed.

Lemma Shutdown_twice_calls_retained_only_witness :
  shutdownFuncMutex Sim.registry_example = false
  /\ exists st2,
       (st1 ← @Shutdown Sim.sim_universe ["skeema-mysql-8.0"] Sim.registry_example;
        Shutdown [] st1) = Some st2
       /\ length (calls (trace st2)) = 3%nat.
Proof.
  split; [reflexivity|].
  destruct (@Shutdown_twice_calls_retained_only Sim.sim_universe
              ["skeema-mysql-8.0"] [] Sim.registry_example eq_refl)
    as (st1 & st2 & Hs1 & Hs2 & _ & Hc1 & Hc2 & Hlen).
  exists st2. split.
  - rewrite Hs1. exact Hs2.
  - rewrite Hc2, Hc1, !length_app, !length_imap, Hlen. vm_compute. reflexivity.
Defined.

(** X10.  A function registered just before [Shutdown] is called by it last,
    after all the functions registered earlier and on the world they leave
    behind; it stays in the registry, behind the others that stay, exactly
    when it returns false. *)
Theorem Register_then_Shutdown_calls_last `{Universe}
    (args : list Any) (f : ShutdownFunc) (st : State) :
  shutdownFuncMutex st = false ->
  exists st1 st2,
    RegisterShutdownFunc f st = Some st1
    /\ Shutdown args st1 = Some st2
    /\ let old := call_all args (shutdownFuncs st) (world st) in
       let last := f args old.2 in
       calls (trace st2)
         = calls (trace st) ++ imap pair old.1
           ++ [(length (shutdownFuncs st), last.2)]
       /\ world st2 = last.1
       /\ shutdownFuncs st2
          = kept (shutdownFuncs st) old.1 ++ (if last.2 then [] else [f]).
Proof.
  intros Hfree.
  assert (Hr : RegisterShutdownFunc f st
               = Some (Unlock (set_funcs (shutdownFuncs st ++ [f])
                                 (emit EvLock (set_mutex true st))))).
  { unfold RegisterShutdownFunc, Lock. now rewrite Hfree. }
  set (st1 := Unlock _) in Hr.
  destruct (Shutdown_returns args st1 eq_refl) as (st2 & Hs2).
  destruct (Shutdown_spec _ _ _ Hs2) as (_ & Hk & Hw & _ & Htr).
  exists st1, st2. split; [exact Hr|]. split; [exact Hs2|].
  change (shutdownFuncs st1) with (shutdownFuncs st ++ [f]) in *.
  change (world st1) with (world st) in *.
  rewrite call_all_snoc in Hk, Hw, Htr. cbn [fst snd] in Hk, Hw, Htr. cbn zeta.
  split; [|split].
  - rewrite Htr, !calls_app, calls_imap.
    change (trace st1) with (((trace st ++ [EvLock])
                              ++ [EvStore (length (shutdownFuncs st ++ [f]))]) ++ [EvUnlock]).
    rewrite !calls_app.
    change (calls [EvLock]) with (@nil (nat * bool)).
    change (calls [EvStore (length (shutdownFuncs st ++ [f]))]) with (@nil (nat * bool)).
    change (calls [EvUnlock]) with (@nil (nat * bool)).
    change (calls [EvStore _; EvUnlock]) with (@nil (nat * bool)).
    rewrite !app_nil_r, imap_app. simpl.
    now rewrite call_all_length, Nat.add_0_r.
  - exact Hw.
  - rewrite Hk. apply kept_snoc, call_all_length.
Qed.

Lemma Register_then_Shutdown_calls_last_witness :
  shutdownFuncMutex Sim.registry_example = false
  /\ exists st2,
       (st1 ← @RegisterShutdownFunc Sim.sim_universe (Sim.stop_container "extra")
                Sim.registry_example;
        Shutdown ["skeema-mysql-8.0"] st1) = Some st2
       /\ last (calls (trace st2)) = Some (2%nat, true).
Proof.
  split; [reflexivity|].
  destruct (@Register_then_Shutdown_calls_last Sim.sim_universe
              ["skeema-mysql-8.0"] (Sim.stop_container "extra")
              Sim.registry_example eq_refl)
    as (st1 & st2 & Hs1 & Hs2 & Hc & _).
  exists st2. split.
  - rewrite Hs1. exact Hs2.
  - rewrite Hc. vm_compute. reflexivity.
Defined.

(** ** Further properties of ExecLogicalSchema *)

Section ExecMore.
Context `{C : Collaborators}.

Lemma failed_statements_submseteq (xs : list Execution) :
  failed_statements xs ⊆+ ex_stmt <$> xs.
Proof.
  unfold failed_statements. induction xs as [|x xs IH]; csimpl; [reflexivity|].
  destruct (ex_result x); [now apply submseteq_skip | now apply submseteq_cons].
Qed.

Lemma failed_statements_named (xs : list Execution) :
  Forall (fun x => names (ex_stmt x) (ex_result x)) xs ->
  Statement_ <$> omap ex_result xs = failed_statements xs.
Proof.
  unfold failed_statements. induction 1 as [|x xs Hx _ IH]; [reflexivity|]. csimpl.
  destruct (ex_result x) as [se|] eqn:Hr; csimpl; [|exact IH].
  now rewrite (Hx se eq_refl), IH.
Qed.

Lemma alter_failures_sublist alters rs :
  Forall2 names alters rs -> Statement_ <$> omap id rs `sublist_of` alters.
Proof.
  induction 1 as [|s r alters rs Hn _ IH]; csimpl; [constructor|].
  destruct r as [se|]; csimpl.
  - rewrite (Hn se eq_refl). now apply sublist_skip.
  - now apply sublist_cons.
Qed.

Lemma FailedKeys_fmap (wsSchema : Schema) :
  FailedKeys wsSchema = Statement_ObjectKey <$> (Statement_ <$> Failures wsSchema).
Proof.
  unfold FailedKeys.
  assert (Hgen : forall l acc,
            fold_left (fun result statementError =>
                         result ++ [Statement_ObjectKey (Statement_ statementError)]) l acc
            = acc ++ (Statement_ObjectKey <$> (Statement_ <$> l))).
  { induction l as [|se l IH]; intros acc; csimpl; [now rewrite app_nil_r|].
    now rewrite IH, <- app_assoc. }
  apply (Hgen _ []).
Qed.

(** A run that returns a schema, taken apart: the events of the CREATE
    phase, the outcomes of the ALTER statements, and what became of them. *)
Lemma schema_run sched ls opts st (s : Schema) e :
  (ExecLogicalSchema sched ls opts st).2 = Returned (Some s) e ->
  exists evs cre rs,
    trace (ExecLogicalSchema sched ls opts st).1 = trace st ++ evs
    /\ executions evs = executions cre ++ (alter_execution <$> zip (Alters ls) rs)
    /\ Failures s = omap id (received cre) ++ omap id rs
    /\ LogicalSchema_ s = ls
    /\ create_phase_ok (Creates ls) cre
    /\ Forall2 names (Alters ls) rs.
Proof.
  intros Hout.
  destruct (ExecLogicalSchema_cases sched ls opts st) as
    [(e' & _ & Ho & Htr) | [(_ & Ho & _) | [(ws & err & cerr & _ & Ho & Htr)
    | [(ws & err & cerr & _ & Ho & Htr)
    | (ws & cre & rs & schema & ierr & cerr & _ & Ho & Htr & Hok & Hn)]]]];
    rewrite Ho in Hout; try discriminate.
  injection Hout as <- <-.
  destruct (alter_events_quiet (zip (Alters ls) rs)) as (_ & _ & Hxa & _).
  eexists _, cre, rs. split; [exact Htr|]. split; [|easy].
  rewrite !executions_app, Hxa.
  change (executions [EvIntrospectSchema ierr; EvSetMaxOpenConns Remember 0;
                      EvSetMaxOpenConns Normal 0; EvCleanup cerr])
    with (@nil Execution).
  now rewrite app_nil_r.
Qed.

Lemma exec_in_workspace_maxOpen sched ls ws st :
  let out := exec_in_workspace sched ls ws st in
  (out.2.1 = None -> maxOpen out.1 = maxOpen st)
  /\ (out.2.1 <> None -> forall pool, maxOpen out.1 pool = 0).
Proof.
  unfold exec_in_workspace.
  destruct (ConnectionPool ws "" (world st)) as [w1 [db|err]]; simpl; [|easy].
  destruct (ConnectionPool ws _ w1) as [w2 [dbRemember|err]]; simpl; [|easy].
  destruct (run_alters _ _ _ _) as [st3 fl].
  destruct (IntrospectSchema ws (world st3)) as [w4 [schema ierr]]. simpl.
  split; [discriminate|]. now intros _ [].
Qed.

(** The failures of a run that returns a schema, as the calls of [db.Exec]
    that returned an error. *)
Lemma schema_failures sched ls opts st (s : Schema) e :
  (ExecLogicalSchema sched ls opts st).2 = Returned (Some s) e ->
  exists ws db dbRemember created errsC errsA evs,
    db_calls ls opts st (ExecLogicalSchema sched ls opts st).1 s e
      ws db dbRemember created errsC errsA
    /\ created ≡ₚ Creates ls
    /\ length errsC = length created
    /\ length errsA = length (Alters ls)
    /\ trace (ExecLogicalSchema sched ls opts st).1 = trace st ++ evs
    /\ ex_stmt <$> executions evs = created ++ Alters ls
    /\ ex_result <$> executions evs
       = zip_with statement_result (created ++ Alters ls) (errsC ++ errsA)
    /\ Failures s
       ≡ₚ omap id (zip_with statement_result (created ++ Alters ls) (errsC ++ errsA)).
Proof.
  intros Hout.
  destruct (schema_run_calls _ _ _ _ _ _ Hout)
    as (ws & db & dbRemember & cre & errsC & errsA & ierr & cerr & Hcalls & HlenC & HlenA
        & Hresc & Hok & Hn & Hfail0 & Htr & Hfe).
  cbn zeta in *. set (rs := zip_with statement_result (Alters ls) errsA) in *.
  destruct Hok as (_ & _ & _ & Hex & Hres & _).
  destruct (alter_events_quiet (zip (Alters ls) rs)) as (_ & _ & Hxa & _).
  destruct (Forall2_names_zip _ _ Hn) as (Hz1 & Hz2 & _).
  eexists ws, db, dbRemember, _, errsC, errsA, _.
  split; [exact Hcalls|]. split; [exact Hex|]. split; [exact HlenC|].
  split; [exact HlenA|]. split; [exact Htr|].
  assert (Hxe : executions
            ([EvNew (merge_charset ls opts) None; EvConnectionPool "" None;
              EvConnectionPool "sql_mode=@@GLOBAL.sql_mode" None;
              EvSetMaxOpenConns Normal 10; EvSetMaxOpenConns Remember 10]
             ++ cre ++ [EvClose] ++ (zip (Alters ls) rs ≫= alter_events)
             ++ [EvIntrospectSchema ierr; EvSetMaxOpenConns Remember 0;
                 EvSetMaxOpenConns Normal 0; EvCleanup cerr])
          = executions cre ++ (alter_execution <$> zip (Alters ls) rs)).
  { rewrite !executions_app, Hxa.
    change (executions [EvIntrospectSchema ierr; EvSetMaxOpenConns Remember 0;
                        EvSetMaxOpenConns Normal 0; EvCleanup cerr])
      with (@nil Execution).
    now rewrite app_nil_r. }
  rewrite Hxe, !fmap_app, Hz1, Hz2, Hresc, Hfail0.
  rewrite statement_results_app by exact HlenC.
  split; [reflexivity|]. split; [reflexivity|].
  rewrite omap_app. apply Permutation_app_tail.
  rewrite <- Hresc, <- Hres. reflexivity.
Qed.

(** The statements of the failures [execStatement] makes are those whose
    call returned an error. *)
Lemma failed_of_errs stmts : forall errs : list (option error),
  length errs = length stmts ->
  Statement_ <$> omap id (zip_with statement_result stmts errs)
  = (filter (fun se : Statement * option error => is_Some se.2) (zip stmts errs)).*1.
Proof.
  induction stmts as [|s stmts IH]; intros [|err errs] Hlen; try discriminate; [reflexivity|].
  injection Hlen as Hlen. csimpl. destruct err as [e|]; csimpl.
  - now rewrite IH.
  - rewrite filter_cons_False by (simpl; intros [? ?]; discriminate). now apply IH.
Qed.

End ExecMore.

(** X11.  When [ExecLogicalSchema] returns no schema (because [New] or a
    [ConnectionPool] call failed), no goroutine was started, no statement
    was executed and nothing was received.  If it was [New] that failed, the
    call of [New] is all that happened: there is no workspace to clean up. *)
Theorem No_statement_runs_without_a_workspace `{Collaborators}
    (sched : list nat) (ls : LogicalSchema) (opts : Options) (st : State) :
  exists evs,
    trace (ExecLogicalSchema sched ls opts st).1 = trace st ++ evs
    /\ (returned_schema (ExecLogicalSchema sched ls opts st).2 = None ->
        forallb (fun e => negb (is_exec e)) evs = true
        /\ submitted evs = [] /\ received evs = [])
    /\ (forall err, (New (merge_charset ls opts) (world st)).2.2 = Some err ->
        evs = [EvNew (merge_charset ls opts) (Some err)]
        /\ (ExecLogicalSchema sched ls opts st).2 = Returned None (Some err)).
Proof.
  destruct (ExecLogicalSchema_cases sched ls opts st) as
    [(e & HN & Ho & Htr) | [(HN & Ho & Htr) | [(ws & err & cerr & HN & Ho & Htr)
    | [(ws & err & cerr & HN & Ho & Htr)
    | (ws & cre & rs & schema & ierr & cerr & HN & Ho & Htr & Hok & Hn)]]]];
    eexists; (split; [exact Htr|]); rewrite Ho; rewrite ?HN; simpl.
  - split; [easy|]. now intros err [= <-].
  - split; [easy|]. discriminate.
  - split; [easy|]. discriminate.
  - split; [easy|]. discriminate.
  - split; discriminate.
Qed.

Lemma No_statement_runs_without_a_workspace_witness :
  returned_schema Sim.no_pool_run.2 = None
  /\ executions (trace Sim.no_pool_run.1) = [].
Proof.
  assert (Hnone : returned_schema Sim.no_pool_run.2 = None) by (vm_compute; reflexivity).
  split; [exact Hnone|].
  destruct (@No_statement_runs_without_a_workspace Sim.sim_universe Sim.sim_collaborators
              Sim.schedule_example Sim.schema_example Sim.options_example
              Sim.no_pool_state)
    as (evs & Htr & Hq & _).
  rewrite Htr. destruct (Hq Hnone) as (Hx & _). clear Hq Htr Hnone. simpl.
  induction evs as [|e evs IH]; [reflexivity|]. simpl in Hx.
  apply andb_true_iff in Hx as [He Hx]. unfold executions in *. simpl.
  destruct e; try discriminate He; now apply IH.
Defined.

(** X12.  The limit of 10 open connections lasts only as long as the call:
    when [ExecLogicalSchema] returns a schema, both pools are back to "no
    limit" (0), whatever happened to the statements and to the
    introspection; when it returns without one, the limits were never
    touched. *)
Theorem Pool_limits_are_lifted_on_return `{Collaborators}
    (sched : list nat) (ls : LogicalSchema) (opts : Options) (st : State) :
  let out := ExecLogicalSchema sched ls opts st in
  (returned_schema out.2 <> None -> forall pool, maxOpen out.1 pool = 0)
  /\ (returned_schema out.2 = None -> maxOpen out.1 = maxOpen st).
Proof.
  unfold ExecLogicalSchema.
  destruct (New (merge_charset ls opts) (world st)) as [w [ws [e|]]]; simpl; [easy|].
  destruct ws as [ws|]; simpl; [|easy].
  set (st1 := emit _ (set_world w st)).
  pose proof (exec_in_workspace_maxOpen sched ls ws st1) as [Hnone Hsome].
  destruct (exec_in_workspace sched ls ws st1) as [st2 [wsSchema fatalErr]].
  destruct (Cleanup ws (world st2)) as [w3 cerr]. simpl in *.
  split; [exact Hsome | exact Hnone].
Qed.

Lemma Pool_limits_are_lifted_on_return_witness :
  returned_schema Sim.run_example.2 <> None
  /\ forall pool, maxOpen Sim.run_example.1 pool = 0.
Proof.
  assert (Hsome : returned_schema Sim.run_example.2 <> None)
    by (vm_compute; discriminate).
  split; [exact Hsome|].
  exact (proj1 (@Pool_limits_are_lifted_on_return Sim.sim_universe Sim.sim_collaborators
                  Sim.schedule_example Sim.schema_example Sim.options_example
                  Sim.state_example) Hsome).
Defined.

(** X13.  In the [Failures] of a returned schema the failures of the CREATE
    statements come first, in the order in which their results arrived, and
    the failures of the ALTER statements after them, in the order of the
    ALTER list. *)
Theorem Failures_creates_then_alters_in_order `{Collaborators}
    (sched : list nat) (ls : LogicalSchema) (opts : Options) (st : State)
    (wsSchema : Schema) (fatalErr : option error) :
  (ExecLogicalSchema sched ls opts st).2 = Returned (Some wsSchema) fatalErr ->
  exists createFailures alterFailures,
    Failures wsSchema = createFailures ++ alterFailures
    /\ Statement_ <$> createFailures ⊆+ Creates ls
    /\ Statement_ <$> alterFailures `sublist_of` Alters ls.
Proof.
  intros Hout.
  destruct (schema_run _ _ _ _ _ _ Hout) as (evs & cre & rs & _ & _ & Hf & _ & Hok & Hn).
  destruct Hok as (_ & _ & Hxok & Hex & Hres & _).
  exists (omap id (received cre)), (omap id rs).
  split; [exact Hf|]. split; [|now apply alter_failures_sublist].
  rewrite <- Hres, omap_id_fmap, failed_statements_named.
  - rewrite <- Hex. apply failed_statements_submseteq.
  - eapply Forall_impl; [exact Hxok|]. now intros x (_ & _ & Hx).
Qed.

Lemma Failures_creates_then_alters_in_order_witness :
  exists s e createFailures alterFailures,
    Sim.run_example.2 = Returned (Some s) e
    /\ Failures s = createFailures ++ alterFailures
    /\ Statement_ <$> alterFailures `sublist_of` Alters Sim.schema_example.
Proof.
  destruct (returned_schema Sim.run_example.2) as [s|] eqn:Hrs;
    [|vm_compute in Hrs; discriminate Hrs].
  assert (Hout : Sim.run_example.2 = Returned (returned_schema Sim.run_example.2)
                                       (returned_error Sim.run_example.2))
    by (vm_compute; reflexivity).
  rewrite Hrs in Hout.
  destruct (@Failures_creates_then_alters_in_order Sim.sim_universe Sim.sim_collaborators
              Sim.schedule_example Sim.schema_example Sim.options_example
              Sim.state_example s (returned_error Sim.run_example.2) Hout)
    as (cf & af & Hf & _ & Hsub).
  exists s, (returned_error Sim.run_example.2), cf, af.
  split; [exact Hout|]. split; [exact Hf | exact Hsub].
Defined.

(** X14.  [FailedKeys] of a schema returned by [ExecLogicalSchema] lists the
    object keys of the statements whose execution failed, one key per failed
    execution and no others; if no execution failed it is empty.  A failed
    execution is a call of [db.Exec] that returned an error: with the calls
    taken in turn, the CREATE statements in the order in which they
    finished and then the ALTER statements, [FailedKeys] is, up to order,
    the keys of the statements whose call returned an error, and it is
    empty when no call did. *)
Theorem FailedKeys_are_the_failed_statements `{Collaborators}
    (sched : list nat) (ls : LogicalSchema) (opts : Options) (st : State)
    (wsSchema : Schema) (fatalErr : option error) :
  (ExecLogicalSchema sched ls opts st).2 = Returned (Some wsSchema) fatalErr ->
  exists evs,
    trace (ExecLogicalSchema sched ls opts st).1 = trace st ++ evs
    /\ FailedKeys wsSchema ≡ₚ Statement_ObjectKey <$> failed_statements (executions evs)
    /\ length (FailedKeys wsSchema) = length (Failures wsSchema)
    /\ (Forall (fun x => ex_result x = None) (executions evs) -> FailedKeys wsSchema = [])
    /\ exists ws db dbRemember created errsC errsA,
         db_calls ls opts st (ExecLogicalSchema sched ls opts st).1 wsSchema fatalErr
           ws db dbRemember created errsC errsA
         /\ created ≡ₚ Creates ls
         /\ length (errsC ++ errsA) = length (created ++ Alters ls)
         /\ FailedKeys wsSchema
            ≡ₚ Statement_ObjectKey
                 <$> (filter (fun se : Statement * option error => is_Some se.2)
                        (zip (created ++ Alters ls) (errsC ++ errsA))).*1
         /\ (Forall (fun err => err = None) (errsC ++ errsA) -> FailedKeys wsSchema = []).
Proof.
  intros Hout.
  destruct (schema_run _ _ _ _ _ _ Hout) as (evs & cre & rs & Htr & Hx & Hf & _ & Hok & Hn).
  destruct Hok as (_ & _ & Hxok & _ & Hres & _).
  destruct (Forall2_names_zip _ _ Hn) as (_ & Hz2 & Hz3 & _).
  assert (Hnames : Forall (fun x => names (ex_stmt x) (ex_result x)) (executions evs)).
  { rewrite Hx. apply Forall_app. split; [|exact Hz3].
    eapply Forall_impl; [exact Hxok|]. now intros x (_ & _ & Hn'). }
  assert (Hfail : Failures wsSchema ≡ₚ omap ex_result (executions evs)).
  { rewrite Hf, Hx, omap_app, <- Hres, !omap_id_fmap,
      <- (omap_id_fmap ex_result (_ <$> _)), Hz2. reflexivity. }
  exists evs. split; [exact Htr|]. rewrite FailedKeys_fmap.
  assert (Hkeys : Statement_ObjectKey <$> (Statement_ <$> Failures wsSchema)
                  ≡ₚ Statement_ObjectKey <$> failed_statements (executions evs)).
  { now rewrite Hfail, failed_statements_named. }
  split; [exact Hkeys|]. split; [now rewrite !length_fmap|].
  split.
  { intros Hall. apply Permutation_nil_r. rewrite Hkeys.
    clear -Hall. unfold failed_statements.
    induction Hall as [|x xs Hx _ IH]; [reflexivity|]. csimpl. now rewrite Hx. }
  destruct (schema_failures _ _ _ _ _ _ Hout)
    as (ws & db & dbRemember & created & errsC & errsA & evs' & Hcalls & Hperm & HlenC
        & HlenA & _ & _ & _ & Hfailed).
  exists ws, db, dbRemember, created, errsC, errsA.
  assert (Hlen : length (errsC ++ errsA) = length (created ++ Alters ls))
    by now rewrite !length_app, HlenC, HlenA.
  assert (Hk : Statement_ObjectKey <$> (Statement_ <$> Failures wsSchema)
               ≡ₚ Statement_ObjectKey
                    <$> (filter (fun se : Statement * option error => is_Some se.2)
                           (zip (created ++ Alters ls) (errsC ++ errsA))).*1).
  { now rewrite Hfailed, failed_of_errs. }
  split; [exact Hcalls|]. split; [exact Hperm|]. split; [exact Hlen|].
  split; [exact Hk|].
  intros Hnone. apply Permutation_nil_r. rewrite Hk.
  clear -Hnone. revert Hnone. generalize (errsC ++ errsA), (created ++ Alters ls).
  intros errs. induction errs as [|err errs IH]; intros [|s stmts] Hnone; try reflexivity.
  csimpl. inversion Hnone as [|? ? -> Hrest]; subst.
  rewrite filter_cons_False by (simpl; intros [? ?]; discriminate). now apply IH.
Qed.

Lemma FailedKeys_are_the_failed_statements_witness :
  exists s e,
    Sim.run_example.2 = Returned (Some s) e
    /\ length (FailedKeys s) = length (Failures s).
Proof.
  destruct (returned_schema Sim.run_example.2) as [s|] eqn:Hrs;
    [|vm_compute in Hrs; discriminate Hrs].
  assert (Hout : Sim.run_example.2 = Returned (returned_schema Sim.run_example.2)
                                       (returned_error Sim.run_example.2))
    by (vm_compute; reflexivity).
  rewrite Hrs in Hout.
  destruct (@FailedKeys_are_the_failed_statements Sim.sim_universe Sim.sim_collaborators
              Sim.schedule_example Sim.schema_example Sim.options_example
              Sim.state_example s (returned_error Sim.run_example.2) Hout)
    as (evs & _ & _ & Hlen & _).
  exists s, (returned_error Sim.run_example.2). split; [exact Hout | exact Hlen].
Defined.

(** X15.  With a workspace type that is none of the three known ones,
    [ExecLogicalSchema] returns the error "Unsupported workspace type N" and
    does nothing else: the world is untouched and the call of [New] is the
    only event.  With [TypePrefab] and no prefab workspace supplied, [New]
    returns a nil workspace without an error and the call panics. *)
Theorem Unsupported_type_errs_and_nil_prefab_panics `{Collaborators}
    (sched : list nat) (ls : LogicalSchema) (opts : Options) (st : State) :
  let out := ExecLogicalSchema sched ls opts st in
  let unsupported :=
    errorString ("Unsupported workspace type " +:+ pretty (Type__ opts)) in
  (Type__ opts <> TypeTempSchema -> Type__ opts <> TypeLocalDocker ->
   Type__ opts <> TypePrefab ->
   out.2 = Returned None (Some unsupported)
   /\ trace out.1 = trace st ++ [EvNew (merge_charset ls opts) (Some unsupported)]
   /\ world out.1 = world st)
  /\ (Type__ opts = TypePrefab -> PrefabWorkspace opts = None ->
      out.2 = Panicked /\ world out.1 = world st).
Proof.
  assert (Hty : Type__ (merge_charset ls opts) = Type__ opts
                /\ PrefabWorkspace (merge_charset ls opts) = PrefabWorkspace opts).
  { unfold merge_charset.
    destruct (String.eqb (CharSet ls) ""), (String.eqb (Collation ls) ""); easy. }
  destruct Hty as [Hty Hpre]. unfold ExecLogicalSchema, New. rewrite Hty, Hpre.
  split.
  - intros Ht0 Ht1 Ht2.
    apply Z.eqb_neq in Ht0, Ht1, Ht2. rewrite Ht0, Ht1, Ht2. easy.
  - intros -> ->. easy.
Qed.

Lemma Unsupported_type_errs_and_nil_prefab_panics_witness :
  (ExecLogicalSchema Sim.schedule_example Sim.schema_example Sim.unsupported_options
     Sim.state_example).2
  = Returned None (Some (errorString "Unsupported workspace type 7"))
  /\ (ExecLogicalSchema Sim.schedule_example Sim.schema_example Sim.prefab_options
        Sim.state_example).2 = Panicked.
Proof.
  split.
  - refine (proj1 (proj1 (@Unsupported_type_errs_and_nil_prefab_panics
                            Sim.sim_universe Sim.sim_collaborators
                            Sim.schedule_example Sim.schema_example Sim.unsupported_options
                            Sim.state_example) _ _ _)); vm_compute; discriminate.
  - refine (proj1 (proj2 (@Unsupported_type_errs_and_nil_prefab_panics
                            Sim.sim_universe Sim.sim_collaborators
                            Sim.schedule_example Sim.schema_example Sim.prefab_options
                            Sim.state_example) _ _)); reflexivity.
Defined.

(** ** Statements whose outcome depends on their text alone *)

Section Independent.
Context `{C : Collaborators}.
Variable verdict : string -> option error.
Hypothesis independent : forall db body w, (DB_Exec db body w).2 = verdict body.

Lemma execStatement_verdict db statement w :
  (execStatement db statement w).2 = statement_outcome verdict statement.
Proof.
  unfold execStatement, statement_outcome. rewrite <- (independent db (Body statement) w).
  now destruct (DB_Exec db (Body statement) w) as [w' [err|]].
Qed.

Local Abbreviation continues := (workspace.continues verdict).

Lemma continues_refl st : continues st st.
Proof. exists []. now rewrite app_nil_r. Qed.

Lemma continues_trans st1 st2 st3 :
  continues st1 st2 -> continues st2 st3 -> continues st1 st3.
Proof.
  intros (e1 & H1 & F1) (e2 & H2 & F2). exists (e1 ++ e2).
  rewrite H2, H1, app_assoc. split; [reflexivity|].
  rewrite executions_app. now apply Forall_app.
Qed.

Lemma continues_emit st st' e :
  trace st' = trace st ++ [e] ->
  Forall (determined verdict) (option_list (execution_of e)) ->
  continues st st'.
Proof.
  intros Htr He. exists [e]. split; [exact Htr|].
  unfold executions. simpl. now destruct (execution_of e).
Qed.

Lemma step_continues db dbRemember a cst :
  continues (base cst) (base (step db dbRemember a cst)).
Proof.
  destruct a as [|i|i|i]; simpl.
  - destruct (pending cst); [apply continues_refl|].
    now apply (continues_emit _ _ (EvGo (length (goroutines cst)) s)).
  - destruct (goroutines cst !! i) as [[s []]|]; try apply continues_refl.
    destruct (can_start _ _); [|apply continues_refl].
    now apply (continues_emit _ _ (EvExecStart (Goroutine i) (pool_of s) s)).
  - destruct (goroutines cst !! i) as [[s []]|]; try apply continues_refl.
    destruct (execStatement _ s (world (base cst))) as [w r] eqn:Hexec.
    apply (continues_emit _ _ (EvExecDone (Goroutine i) (pool_of s) s r)); [reflexivity|].
    constructor; [|constructor]. unfold determined. simpl.
    now rewrite <- (execStatement_verdict
                      (match pool_of s with Remember => dbRemember | Normal => db end)
                      s (world (base cst))), Hexec.
  - destruct (goroutines cst !! i) as [[s [| |r|]]|]; try apply continues_refl.
    destruct (is_nil (pending cst)); [|apply continues_refl].
    now apply (continues_emit _ _ (EvRecv r)).
Qed.

Lemma run_continues db dbRemember fuel : forall sched cst,
  continues (base cst) (base (run_goroutines fuel sched db dbRemember cst)).
Proof.
  induction fuel as [|fuel IH]; intros sched cst; simpl; [apply continues_refl|].
  destruct (enabled cst) as [|a acts]; [apply continues_refl|].
  eapply continues_trans; [apply step_continues | apply IH].
Qed.

Lemma run_alters_continues db alters : forall fl st,
  continues st (run_alters db alters fl st).1.
Proof.
  induction alters as [|s alters IH]; intros fl st; simpl; [apply continues_refl|].
  destruct (execStatement db s (world st)) as [w r] eqn:Hexec.
  eapply continues_trans; [|apply IH].
  eapply continues_trans.
  - now apply (continues_emit st (emit (EvExecStart Main Normal s) st)
                 (EvExecStart Main Normal s)).
  - apply (continues_emit _ _ (EvExecDone Main Normal s r)); [reflexivity|].
    constructor; [|constructor]. unfold determined. simpl.
    now rewrite <- (execStatement_verdict db s (world st)), Hexec.
Qed.

Lemma exec_in_workspace_continues sched ls ws st :
  continues st (exec_in_workspace sched ls ws st).1.
Proof.
  unfold exec_in_workspace.
  destruct (ConnectionPool ws "" (world st)) as [w1 [db|err]]; simpl.
  2: { now apply (continues_emit _ _ (EvConnectionPool "" (Some err))). }
  eapply continues_trans;
    [now apply (continues_emit st (emit (EvConnectionPool "" None) (set_world w1 st))
                  (EvConnectionPool "" None))|].
  destruct (ConnectionPool ws _ w1) as [w2 [dbRemember|err]]; simpl.
  2: { now apply (continues_emit _ _
                    (EvConnectionPool "sql_mode=@@GLOBAL.sql_mode" (Some err))). }
  set (st1 := emit (EvConnectionPool "sql_mode=@@GLOBAL.sql_mode" None) _).
  eapply continues_trans;
    [now apply (continues_emit _ st1 (EvConnectionPool "sql_mode=@@GLOBAL.sql_mode" None))|].
  set (st2 := SetMaxOpenConns Normal 10 st1).
  eapply continues_trans;
    [now apply (continues_emit st1 st2 (EvSetMaxOpenConns Normal 10))|].
  set (st3 := SetMaxOpenConns Remember 10 st2).
  eapply continues_trans;
    [now apply (continues_emit st2 st3 (EvSetMaxOpenConns Remember 10))|].
  set (cst := run_goroutines _ _ _ _ _).
  apply (continues_trans _ (base cst));
    [exact (run_continues db dbRemember _ sched
              {| base := st3; pending := Creates ls; goroutines := []; failures := [] |})|].
  eapply continues_trans;
    [now apply (continues_emit (base cst) (emit EvClose (base cst)) EvClose)|].
  pose proof (run_alters_continues db (Alters ls) (failures cst) (emit EvClose (base cst)))
    as Halt.
  destruct (run_alters db (Alters ls) (failures cst) (emit EvClose (base cst)))
    as [st4 fl]. simpl in Halt.
  eapply continues_trans; [exact Halt|].
  destruct (IntrospectSchema ws (world st4)) as [w5 [schema ierr]]. simpl.
  set (st5 := emit (EvIntrospectSchema ierr) (set_world w5 st4)).
  eapply continues_trans;
    [now apply (continues_emit st4 st5 (EvIntrospectSchema ierr))|].
  eapply continues_trans;
    [now apply (continues_emit st5 (SetMaxOpenConns Remember 0 st5)
                  (EvSetMaxOpenConns Remember 0))|].
  now apply (continues_emit _ _ (EvSetMaxOpenConns Normal 0)).
Qed.

Lemma ExecLogicalSchema_continues sched ls opts st :
  continues st (ExecLogicalSchema sched ls opts st).1.
Proof.
  unfold ExecLogicalSchema.
  destruct (New (merge_charset ls opts) (world st)) as [w [ws [e|]]]; simpl.
  { now apply (continues_emit _ _ (EvNew (merge_charset ls opts) (Some e))). }
  destruct ws as [ws|]; simpl.
  2: { now apply (continues_emit _ _ (EvNew (merge_charset ls opts) None)). }
  set (st1 := emit _ (set_world w st)).
  eapply continues_trans;
    [now apply (continues_emit st st1 (EvNew (merge_charset ls opts) None))|].
  pose proof (exec_in_workspace_continues sched ls ws st1) as Hex.
  destruct (exec_in_workspace sched ls ws st1) as [st2 [wsSchema fatalErr]].
  simpl in Hex. eapply continues_trans; [exact Hex|].
  destruct (Cleanup ws (world st2)) as [w3 cerr]. simpl.
  now apply (continues_emit _ _ (EvCleanup cerr)).
Qed.

(** The failures of a run that returns a schema, when outcomes depend on the
    text alone. *)
Lemma Failures_by_verdict sched ls opts st (s : Schema) e :
  (ExecLogicalSchema sched ls opts st).2 = Returned (Some s) e ->
  Failures s ≡ₚ omap (statement_outcome verdict) (Creates ls ++ Alters ls).
Proof.
  intros Hout.
  destruct (schema_run _ _ _ _ _ _ Hout) as (evs & cre & rs & Htr & Hx & Hf & _ & Hok & Hn).
  destruct (ExecLogicalSchema_continues sched ls opts st) as (evs' & Htr' & Hdet).
  rewrite Htr in Htr'. apply app_inv_head in Htr'. subst evs'.
  destruct Hok as (_ & _ & _ & Hex & Hres & _).
  destruct (Forall2_names_zip _ _ Hn) as (Hz1 & Hz2 & _).
  assert (Hfail : Failures s ≡ₚ omap ex_result (executions evs)).
  { rewrite Hf, Hx, omap_app, <- Hres, !omap_id_fmap,
      <- (omap_id_fmap ex_result (_ <$> _)), Hz2. reflexivity. }
  assert (Hstmts : ex_stmt <$> executions evs ≡ₚ Creates ls ++ Alters ls).
  { now rewrite Hx, fmap_app, Hex, Hz1. }
  rewrite Hfail, <- Hstmts. clear -Hdet.
  induction Hdet as [|x xs Hx _ IH]; [reflexivity|]. csimpl.
  rewrite Hx. destruct (statement_outcome verdict (ex_stmt x)); now rewrite IH.
Qed.

End Independent.

(** X16.  If whether a statement fails depends on its text alone, not on
    what ran before it or on which pool, then the failures of a run that
    returns a schema are those of the failing statements of the logical
    schema, one each, whatever the interleaving of the goroutines: two runs
    under different schedules return the same failures up to order. *)
Theorem Failures_do_not_depend_on_the_schedule `{Collaborators}
    (verdict : string -> option error)
    (sched1 sched2 : list nat) (ls : LogicalSchema) (opts : Options) (st : State)
    (s1 s2 : Schema) (e1 e2 : option error) :
  (forall db body w, (DB_Exec db body w).2 = verdict body) ->
  (ExecLogicalSchema sched1 ls opts st).2 = Returned (Some s1) e1 ->
  (ExecLogicalSchema sched2 ls opts st).2 = Returned (Some s2) e2 ->
  Failures s1 ≡ₚ omap (statement_outcome verdict) (Creates ls ++ Alters ls)
  /\ Failures s1 ≡ₚ Failures s2.
Proof.
  intros Hind H1 H2.
  pose proof (Failures_by_verdict verdict Hind _ _ _ _ _ _ H1) as Hf1.
  pose proof (Failures_by_verdict verdict Hind _ _ _ _ _ _ H2) as Hf2.
  split; [exact Hf1|]. now rewrite Hf1, Hf2.
Qed.

Lemma Failures_do_not_depend_on_the_schedule_witness :
  (forall db body w,
     (@DB_Exec Sim.sim_universe Sim.independent_collaborators db body w).2
     = Sim.text_verdict body)
  /\ exists s1 s2 e1 e2,
       Sim.independent_run1.2 = Returned (Some s1) e1
       /\ Sim.independent_run2.2 = Returned (Some s2) e2
       /\ Failures s1 ≡ₚ Failures s2.
Proof.
  assert (Hind : forall db body w,
            (@DB_Exec Sim.sim_universe Sim.independent_collaborators db body w).2
            = Sim.text_verdict body).
  { intros db body w. simpl. now destruct (Sim.text_verdict body). }
  split; [exact Hind|].
  destruct (returned_schema Sim.independent_run1.2) as [s1|] eqn:Hrs1;
    [|vm_compute in Hrs1; discriminate Hrs1].
  destruct (returned_schema Sim.independent_run2.2) as [s2|] eqn:Hrs2;
    [|vm_compute in Hrs2; discriminate Hrs2].
  assert (Hout1 : Sim.independent_run1.2
                  = Returned (returned_schema Sim.independent_run1.2)
                      (returned_error Sim.independent_run1.2))
    by (vm_compute; reflexivity).
  assert (Hout2 : Sim.independent_run2.2
                  = Returned (returned_schema Sim.independent_run2.2)
                      (returned_error Sim.independent_run2.2))
    by (vm_compute; reflexivity).
  rewrite Hrs1 in Hout1. rewrite Hrs2 in Hout2.
  exists s1, s2, (returned_error Sim.independent_run1.2),
    (returned_error Sim.independent_run2.2).
  split; [exact Hout1|]. split; [exact Hout2|].
  exact (proj2 (@Failures_do_not_depend_on_the_schedule
                  Sim.sim_universe Sim.independent_collaborators Sim.text_verdict
                  Sim.schedule_example [] Sim.schema_example Sim.options_example
                  Sim.state_example s1 s2 _ _ Hind Hout1 Hout2)).
Defined.

(** ** OptionsForDir *)

Section OptionsForDirFacts.
Context `{F : Flavors}.

Lemma replace_colons_no_colon (s : string) :
  Forall (fun c => c <> ":"%char) (list_ascii_of_string (replace_colons s)).
Proof.
  induction s as [|c s IH]; simpl; [constructor|].
  constructor; [|exact IH].
  destruct (Ascii.eqb c ":") eqn:Hc; [discriminate|].
  now apply Ascii.eqb_neq.
Qed.

Lemma replace_colons_length (s : string) :
  String.length (replace_colons s) = String.length s.
Proof. induction s as [|c s IH]; simpl; congruence. Qed.

Lemma list_ascii_of_string_app (a b : string) :
  list_ascii_of_string (a +:+ b) = list_ascii_of_string a ++ list_ascii_of_string b.
Proof. induction a as [|c a IH]; simpl; [reflexivity|]. now rewrite IH. Qed.

Lemma OptionsForDir_docker_name (dir : Dir) (instance : option TengoInstance) :
  (OptionsForDir dir instance).2 = None ->
  Type__ (OptionsForDir dir instance).1 = TypeLocalDocker ->
  ContainerName (OptionsForDir dir instance).1
  = "skeema-" +:+ replace_colons (Flavor_String (Flavor (OptionsForDir dir instance).1)).
Proof.
  unfold OptionsForDir.
  destruct (Config_GetEnum dir "workspace" _) as [requestedType [e|]]; simpl; [discriminate|].
  destruct (String.eqb requestedType "docker"); simpl; [|discriminate].
  destruct (Config_GetEnum dir "docker-cleanup" _) as [cleanup [e|]]; simpl; [discriminate|].
  destruct (InstanceDefaultParams dir) as [params [e|]]; simpl; [discriminate|].
  reflexivity.
Qed.

End OptionsForDirFacts.

(** X17.  The options [OptionsForDir] returns are consistent: on an error
    they are the zero value; otherwise the type is temp-schema or
    local-docker, never prefab, the cleanup action is one the type admits
    (none or drop for a temp schema, drop exactly when the temp schema is not
    to be reused; none, stop or destroy for Docker), the instance is passed on
    only for a temp schema, the schema name is the configured one and the
    lock wait timeout is 30 seconds. *)
Theorem OptionsForDir_is_consistent `{Flavors}
    (dir : Dir) (instance : option TengoInstance) :
  let opts := (OptionsForDir dir instance).1 in
  match (OptionsForDir dir instance).2 with
  | Some _ => opts = zero_Options
  | None =>
    SchemaName opts = Config_Get dir "temp-schema"
    /\ LockWaitTimeout opts = 30000000000
    /\ PrefabWorkspace opts = None
    /\ ((Type__ opts = TypeTempSchema
         /\ Instance opts = instance
         /\ CleanupAction_ opts
            = (if Config_GetBool dir "reuse-temp-schema"
               then CleanupActionNone else CleanupActionDrop)
         /\ ContainerName opts = "")
        \/ (Type__ opts = TypeLocalDocker
            /\ Instance opts = None
            /\ (CleanupAction_ opts = CleanupActionNone
                \/ CleanupAction_ opts = CleanupActionStop
                \/ CleanupAction_ opts = CleanupActionDestroy)
            /\ DefaultConnParams opts = (InstanceDefaultParams dir).1))
  end.
Proof.
  unfold OptionsForDir.
  destruct (Config_GetEnum dir "workspace" _) as [requestedType [e|]]; simpl; [reflexivity|].
  destruct (String.eqb requestedType "docker"); simpl.
  - destruct (Config_GetEnum dir "docker-cleanup" _) as [cleanup [e|]]; simpl; [reflexivity|].
    destruct (InstanceDefaultParams dir) as [params [e|]]; simpl; [reflexivity|].
    repeat split. right. repeat split.
    destruct (String.eqb cleanup "stop"); [tauto|].
    destruct (String.eqb cleanup "destroy"); tauto.
  - repeat split. left. repeat split.
    now destruct (Config_GetBool dir "reuse-temp-schema").
Qed.

(** X18.  The container name [OptionsForDir] chooses for a Docker workspace
    is "skeema-" followed by the flavor with every colon replaced by a dash:
    it contains no colon, and it is as long as "skeema-" and the flavor
    together. *)
Theorem OptionsForDir_container_name_has_no_colon `{Flavors}
    (dir : Dir) (instance : option TengoInstance) :
  (OptionsForDir dir instance).2 = None ->
  Type__ (OptionsForDir dir instance).1 = TypeLocalDocker ->
  let opts := (OptionsForDir dir instance).1 in
  Forall (fun c => c <> ":"%char) (list_ascii_of_string (ContainerName opts))
  /\ String.prefix "skeema-" (ContainerName opts) = true
  /\ String.length (ContainerName opts)
     = (7 + String.length (Flavor_String (Flavor opts)))%nat.
Proof.
  intros Hok Hty opts. subst opts.
  rewrite (OptionsForDir_docker_name dir instance Hok Hty).
  generalize (Flavor_String (Flavor (OptionsForDir dir instance).1)). intros fl.
  split; [|split].
  - rewrite list_ascii_of_string_app. apply Forall_app. split.
    + repeat (constructor; [discriminate|]). constructor.
    + apply replace_colons_no_colon.
  - simpl. now destruct (replace_colons fl).
  - rewrite <- (replace_colons_length fl). reflexivity.
Qed.

Lemma OptionsForDir_container_name_has_no_colon_witness :
  (@OptionsForDir Sim.sim_universe Sim.sim_flavors Sim.docker_dir (Some ())).2 = None
  /\ ContainerName (@OptionsForDir Sim.sim_universe Sim.sim_flavors Sim.docker_dir (Some ())).1
     = "skeema-mysql-8.0"
  /\ Forall (fun c => c <> ":"%char)
       (list_ascii_of_string
          (ContainerName
             (@OptionsForDir Sim.sim_universe Sim.sim_flavors Sim.docker_dir (Some ())).1)).
Proof.
  split; [reflexivity|]. split; [reflexivity|].
  exact (proj1 (@OptionsForDir_container_name_has_no_colon Sim.sim_universe Sim.sim_flavors
                  Sim.docker_dir (Some ()) eq_refl eq_refl)).
Defined.

(** X19.  Options obtained from [OptionsForDir] always reach a real
    constructor: [New], and the [New] that [ExecLogicalSchema] calls after
    merging the character set, is [NewTempSchema] or [NewLocalDocker] on those
    options, never the "unsupported workspace type" error and never the
    prefab branch. *)
Theorem OptionsForDir_options_reach_a_constructor `{Collaborators} `{!Flavors}
    (dir : Dir) (instance : option TengoInstance) (ls : LogicalSchema) (w : World) :
  (OptionsForDir dir instance).2 = None ->
  let opts := (OptionsForDir dir instance).1 in
  (New opts w = NewTempSchema opts w \/ New opts w = NewLocalDocker opts w)
  /\ (New (merge_charset ls opts) w = NewTempSchema (merge_charset ls opts) w
      \/ New (merge_charset ls opts) w = NewLocalDocker (merge_charset ls opts) w).
Proof.
  intros Hok opts.
  assert (Hty : Type__ opts = TypeTempSchema \/ Type__ opts = TypeLocalDocker).
  { subst opts. revert Hok. unfold OptionsForDir.
    destruct (Config_GetEnum dir "workspace" _) as [requestedType [e|]]; simpl; [discriminate|].
    destruct (String.eqb requestedType "docker"); simpl; [|now left].
    destruct (Config_GetEnum dir "docker-cleanup" _) as [cleanup [e|]]; simpl; [discriminate|].
    destruct (InstanceDefaultParams dir) as [params [e|]]; simpl; [discriminate|].
    now right. }
  assert (Hm : Type__ (merge_charset ls opts) = Type__ opts).
  { unfold merge_charset.
    destruct (String.eqb (CharSet ls) ""), (String.eqb (Collation ls) ""); easy. }
  unfold New. rewrite Hm. destruct Hty as [-> | ->]; simpl; tauto.
Qed.

Lemma OptionsForDir_options_reach_a_constructor_witness :
  (@OptionsForDir Sim.sim_universe Sim.sim_flavors Sim.docker_dir None).2 = None
  /\ @New Sim.sim_universe Sim.sim_collaborators
       (@OptionsForDir Sim.sim_universe Sim.sim_flavors Sim.docker_dir None).1 Sim.world0
     = (Sim.world0, (None, Some (errorString "docker is not running"))).
Proof.
  split; [reflexivity|].
  destruct (proj1 (@OptionsForDir_options_reach_a_constructor
                     Sim.sim_universe Sim.sim_collaborators Sim.sim_flavors
                     Sim.docker_dir None Sim.schema_example Sim.world0 eq_refl))
    as [Ht | Hd].
  - vm_compute in Ht. discriminate Ht.
  - rewrite Hd. reflexivity.
Defined.

End workspace_spec.
